(** * Raqm: itemization pipeline of [raqm.c]

    A shallow embedding of [src/raqm.c] (script resolution, bidi run
    splitting, shaping driver, public API) together with the properties
    the specification states about it.

    Conventions of the embedding.
    - C [int] / [FriBidiStrIndex] / [hb_script_t] values are [Z]; loop
      counters and array indices that the code keeps non-negative are [nat].
    - A heap array is a [list]; an access outside of it, a read of a cell
      that was never written and a dereference of a null pointer are
      undefined behaviour in C and are modelled by the outcome [Fault].
    - A nullable pointer is an [option]; the [next]-linked list of runs is
      a [list] whose empty list is the null pointer.
    - HarfBuzz, FriBidi and FreeType are collaborators outside of the
      repository: they are fields of the class [Collaborators]. *)

From stdpp Require Import base list option numbers strings.

Local Open Scope Z_scope.

(** ** Outcomes of running C code *)

Inductive exec (A : Type) : Type :=
| Done (a : A)
| Fault.
Arguments Done {A} a.
Arguments Fault {A}.

Definition bind {A B : Type} (m : exec A) (k : A -> exec B) : exec B :=
  match m with
  | Done a => k a
  | Fault => Fault
  end.

Notation "'do' x <- m ; k" := (bind m (fun x => k))
  (at level 10, x pattern, m at level 100, k at level 200,
   format "'[v' 'do'  x  <-  m ; '/' k ']'").

(** [for (i = lo; i < lo + count; i++) s = body (i, s);] *)
Fixpoint for_loop {S : Type} (body : nat -> S -> exec S)
    (lo count : nat) (s : S) : exec S :=
  match count with
  | O => Done s
  | Datatypes.S c => do s' <- body lo s; for_loop body (Datatypes.S lo) c s'
  end.

(** Checked array accesses. *)
Definition load {A : Type} (arr : list A) (i : nat) : exec A :=
  match arr !! i with
  | Some v => Done v
  | None => Fault
  end.

Definition store {A : Type} (arr : list A) (i : nat) (v : A) : exec (list A) :=
  if decide (i < length arr)%nat then Done (<[i:=v]> arr) else Fault.

(** A cell of a [malloc]ed array holds nothing until it is written. *)
Definition load_init {A : Type} (arr : list (option A)) (i : nat) : exec A :=
  match arr !! i with
  | Some (Some v) => Done v
  | _ => Fault
  end.

(** ** Integer types *)

Definition INT_MAX : Z := 2147483647.

(** The conversion [(int) n] of a [size_t]: reduction modulo 2^32 into the
    signed range. *)
Definition int_of_size_t (n : Z) : Z :=
  let m := n mod 4294967296 in
  if m <? 2147483648 then m else m - 4294967296.

(** ** HarfBuzz scripts and directions ([hb-common.h]) *)

Definition hb_script_t : Type := Z.

Definition HB_TAG (c1 c2 c3 c4 : Z) : Z :=
  Z.lor (Z.lor (Z.lor (Z.shiftl c1 24) (Z.shiftl c2 16)) (Z.shiftl c3 8)) c4.

(** [Zyyy], [Zinh], and [HB_TAG_NONE]. *)
Definition HB_SCRIPT_COMMON : hb_script_t := HB_TAG 90 121 121 121.
Definition HB_SCRIPT_INHERITED : hb_script_t := HB_TAG 90 105 110 104.
Definition HB_SCRIPT_INVALID : hb_script_t := 0.
(** [Latn], [Arab], [Grek]: used by the worked examples. *)
Definition HB_SCRIPT_LATIN : hb_script_t := HB_TAG 76 97 116 110.
Definition HB_SCRIPT_ARABIC : hb_script_t := HB_TAG 65 114 97 98.
Definition HB_SCRIPT_GREEK : hb_script_t := HB_TAG 71 114 101 107.

Inductive hb_direction_t : Type :=
| HB_DIRECTION_INVALID
| HB_DIRECTION_LTR
| HB_DIRECTION_RTL
| HB_DIRECTION_TTB
| HB_DIRECTION_BTT.

Definition hb_direction_code (d : hb_direction_t) : Z :=
  match d with
  | HB_DIRECTION_INVALID => 0
  | HB_DIRECTION_LTR => 4
  | HB_DIRECTION_RTL => 5
  | HB_DIRECTION_TTB => 6
  | HB_DIRECTION_BTT => 7
  end.

(** [#define HB_DIRECTION_IS_BACKWARD(dir) ((((unsigned int) (dir)) & ~2U) == 5)] *)
Definition HB_DIRECTION_IS_BACKWARD (d : hb_direction_t) : bool :=
  Z.land (hb_direction_code d) (Z.lnot 2) =? 5.

(** [#define FRIBIDI_LEVEL_IS_RTL(lev) ((lev) & 1)] *)
Definition FRIBIDI_LEVEL_IS_RTL (level : Z) : bool :=
  negb (Z.land level 1 =? 0).

(** ** The bracket stack *)

Record raqm_stack_t : Type := mk_stack {
  stack_capacity : nat;
  stack_size : nat;
  stack_pair_index : list (option Z);
  stack_scripts : list (option hb_script_t)
}.

Definition _raqm_stack_new (max : nat) : raqm_stack_t :=
  {| stack_capacity := max;
     stack_size := 0;
     stack_pair_index := replicate max None;
     stack_scripts := replicate max None |}.

Definition _raqm_stack_pop (stack : raqm_stack_t) : bool * raqm_stack_t :=
  if decide (stack_size stack = 0%nat) then (false, stack)
  else (true, {| stack_capacity := stack_capacity stack;
                 stack_size := Nat.pred (stack_size stack);
                 stack_pair_index := stack_pair_index stack;
                 stack_scripts := stack_scripts stack |}).

Definition _raqm_stack_top (stack : raqm_stack_t) : exec hb_script_t :=
  if decide (stack_size stack = 0%nat) then Done HB_SCRIPT_INVALID
  else load_init (stack_scripts stack) (stack_size stack).

Definition _raqm_stack_push (stack : raqm_stack_t) (script : hb_script_t)
    (pi : Z) : exec (bool * raqm_stack_t) :=
  if decide (stack_size stack = stack_capacity stack) then Done (false, stack)
  else
    let size' := Datatypes.S (stack_size stack) in
    do scripts' <- store (stack_scripts stack) size' (Some script);
    do pair_index' <- store (stack_pair_index stack) size' (Some pi);
    Done (true, {| stack_capacity := stack_capacity stack;
                   stack_size := size';
                   stack_pair_index := pair_index';
                   stack_scripts := scripts' |}).

(** ** Paired characters *)

Definition paired_len : Z := 34.

Definition paired_chars : list Z :=
  [ 0x0028; 0x0029;
    0x003c; 0x003e;
    0x005b; 0x005d;
    0x007b; 0x007d;
    0x00ab; 0x00bb;
    0x2018; 0x2019;
    0x201c; 0x201d;
    0x2039; 0x203a;
    0x3008; 0x3009;
    0x300a; 0x300b;
    0x300c; 0x300d;
    0x300e; 0x300f;
    0x3010; 0x3011;
    0x3014; 0x3015;
    0x3016; 0x3017;
    0x3018; 0x3019;
    0x301a; 0x301b ].

(** The [while (lower <= upper)] loop of [get_pair_index]; every round
    shrinks [upper - lower], so [fuel] rounds with
    [upper - lower < fuel] reach the exit. *)
Fixpoint get_pair_index_loop (fuel : nat) (ch lower upper : Z) : Z :=
  match fuel with
  | O => -1
  | Datatypes.S fuel' =>
      if lower <=? upper then
        let mid := (lower + upper) `quot` 2 in
        let c := nth (Z.to_nat mid) paired_chars 0 in
        if ch <? c then get_pair_index_loop fuel' ch lower (mid - 1)
        else if c <? ch then get_pair_index_loop fuel' ch (mid + 1) upper
        else mid
      else -1
  end.

Definition get_pair_index (ch : Z) : Z :=
  get_pair_index_loop (Z.to_nat paired_len) ch 0 (paired_len - 1).

Definition STACK_IS_EMPTY (stack : raqm_stack_t) : bool :=
  bool_decide (stack_size stack <= 0)%nat.
Definition STACK_IS_NOT_EMPTY (stack : raqm_stack_t) : bool :=
  negb (STACK_IS_EMPTY stack).
Definition IS_OPEN (pair_index : Z) : bool :=
  Z.land pair_index 1 =? 0.

(** ** Data of the layout context *)

Inductive raqm_direction_t : Type :=
| RAQM_DIRECTION_DEFAULT
| RAQM_DIRECTION_RTL
| RAQM_DIRECTION_LTR
| RAQM_DIRECTION_TTB.

Global Instance raqm_direction_eq_dec : EqDecision raqm_direction_t.
Proof. solve_decision. Defined.

Inductive FriBidiParType : Type :=
| FRIBIDI_PAR_LTR
| FRIBIDI_PAR_RTL
| FRIBIDI_PAR_ON
| FRIBIDI_PAR_WLTR
| FRIBIDI_PAR_WRTL.

Record FriBidiRun : Type := mk_bidi_run {
  bidi_pos : Z;
  bidi_len : Z;
  bidi_level : Z
}.

(** The [types] array handed to the bidi engine: filled by
    [fribidi_get_bidi_types], or the [malloc]ed block after
    [memset (types, byte, count)]. *)
Inductive bidi_types_t : Type :=
| types_filled (types : list Z)
| types_memset (byte : Z) (count : nat).

Definition FRIBIDI_TYPE_LTR : Z := 0x110.

Definition FT_Face : Type := nat.

(** The font made by [HB_FT_FONT_CREATE (face)]. *)
Inductive hb_font_t : Type :=
| hb_ft_font (face : FT_Face).

Record hb_feature_t : Type := mk_feature {
  feature_tag : Z;
  feature_value : Z;
  feature_start : Z;
  feature_end : Z
}.

Record hb_glyph_info_t : Type := mk_info {
  info_codepoint : Z;
  info_cluster : Z
}.

Record hb_glyph_position_t : Type := mk_position {
  position_x_advance : Z;
  position_y_advance : Z;
  position_x_offset : Z;
  position_y_offset : Z
}.

(** The content of a shaped [hb_buffer_t]: its glyph infos and positions. *)
Definition hb_buffer_t : Type := list (hb_glyph_info_t * hb_glyph_position_t).

(** Modelled from the spec: [raqm.h] is not among the sources; a glyph
    record is the tuple (glyph id, cluster, x advance, y advance, x offset,
    y offset), and the one-shot entry points return the same records. *)
Record raqm_glyph_t : Type := mk_glyph {
  index : Z;
  x_advance : Z;
  y_advance : Z;
  x_offset : Z;
  y_offset : Z;
  cluster : Z
}.

Record raqm_run_t : Type := mk_run {
  run_pos : Z;
  run_len : Z;
  run_direction : hb_direction_t;
  run_script : hb_script_t;
  run_font : option hb_font_t;
  run_buffer : option hb_buffer_t
}.

(** [struct _raqm]. The array [text] and its length [text_len] are one
    list, and so are [features] and [features_len]. *)
Record raqm_t : Type := mk_raqm {
  ref_count : Z;
  text : list Z;
  base_dir : raqm_direction_t;
  features : list hb_feature_t;
  scripts : option (list hb_script_t);
  font : option hb_font_t;
  runs : list raqm_run_t;
  glyphs : option (list raqm_glyph_t)
}.

Definition text_len (rq : raqm_t) : nat := length (text rq).
Definition features_len (rq : raqm_t) : nat := length (features rq).

(** ** Collaborators outside of the repository *)

Class Collaborators : Type := {
  (** [hb_unicode_script (hb_unicode_funcs_get_default (), ch)] *)
  hb_unicode_script : Z -> hb_script_t;
  (** [fribidi_get_bidi_types (text, len, types)]: the filled [types]. *)
  fribidi_get_bidi_types : list Z -> nat -> list Z;
  (** [fribidi_get_par_embedding_levels (types, len, &par_type, levels)]:
      the returned maximum level, the resolved [par_type], the filled
      [levels]. *)
  fribidi_get_par_embedding_levels :
    list Z -> nat -> FriBidiParType -> Z * FriBidiParType * list Z;
  (** [fribidi_reorder_runs (types, len, par_type, levels, runs)]
      ([reorder_runs.c], not among the sources): the filled [runs]; the
      returned count is their number. *)
  fribidi_reorder_runs :
    bidi_types_t -> nat -> FriBidiParType -> list Z -> list FriBidiRun;
  (** [hb_feature_from_string (feature, len, &fea)] *)
  hb_feature_from_string : string -> Z -> option hb_feature_t;
  (** [hb_buffer_create], [hb_buffer_add_utf32 (buffer, text, text_len,
      pos, len)], [hb_buffer_set_script], [hb_buffer_set_language] with the
      default language, [hb_buffer_set_direction], then
      [hb_shape_full (font, buffer, features, features_len, NULL)]: the
      status it returns and the shaped buffer. *)
  hb_shape_full :
    option hb_font_t -> list Z -> Z -> Z -> hb_script_t -> hb_direction_t ->
    list hb_feature_t -> bool * hb_buffer_t;
  (** [fribidi_charset_to_unicode (FRIBIDI_CHAR_SET_UTF8, s, len, us)] *)
  fribidi_charset_to_unicode : list Z -> Z -> list Z;
  (** [fribidi_unicode_to_charset (FRIBIDI_CHAR_SET_UTF8, us, len, s)]:
      the bytes written to [s]; the returned length is their number. *)
  fribidi_unicode_to_charset : list Z -> list Z
}.

(** ** Script resolution *)

Record resolve_state : Type := mk_resolve_state {
  rs_scripts : list hb_script_t;
  last_script_index : Z;
  last_set_index : Z;
  last_script_value : hb_script_t;
  rs_stack : raqm_stack_t
}.

(** The closing-bracket loop
    [while (STACK_IS_NOT_EMPTY (stack) && stack->pair_index[stack->size] != pi)
       _raqm_stack_pop (stack);]
    Every round pops, so [fuel] rounds with [stack->size <= fuel] reach
    the exit. *)
Fixpoint pop_until_match (fuel : nat) (stack : raqm_stack_t) (pi : Z)
    : exec raqm_stack_t :=
  match fuel with
  | O => Done stack
  | S fuel' =>
      if STACK_IS_NOT_EMPTY stack then
        do top <- load_init (stack_pair_index stack) (stack_size stack);
        if negb (top =? pi)
        then pop_until_match fuel' (snd (_raqm_stack_pop stack)) pi
        else Done stack
      else Done stack
  end.

Definition set_script (st : resolve_state) (i : nat) (script : hb_script_t)
    : exec resolve_state :=
  do scripts' <- store (rs_scripts st) i script;
  Done {| rs_scripts := scripts';
          last_script_index := last_script_index st;
          last_set_index := Z.of_nat i;
          last_script_value := last_script_value st;
          rs_stack := rs_stack st |}.

(** The body of [for (int i = 0; i < (int) rq->text_len; i++)] in
    [_raqm_resolve_scripts]. *)
Definition resolve_step (text : list Z) (i : nat) (st : resolve_state)
    : exec resolve_state :=
  do script_i <- load (rs_scripts st) i;
  if (script_i =? HB_SCRIPT_COMMON) && negb (last_script_index st =? -1) then
    do ch <- load text i;
    let pair_index := get_pair_index ch in
    if 0 <=? pair_index then
      if IS_OPEN pair_index then
        do st1 <- set_script st i (last_script_value st);
        do script_i' <- load (rs_scripts st1) i;
        do pushed <- _raqm_stack_push (rs_stack st1) script_i' pair_index;
        Done {| rs_scripts := rs_scripts st1;
                last_script_index := last_script_index st1;
                last_set_index := last_set_index st1;
                last_script_value := last_script_value st1;
                rs_stack := snd pushed |}
      else
        let pi := Z.land pair_index (Z.lnot 1) in
        do stack' <- pop_until_match (stack_size (rs_stack st))
                       (rs_stack st) pi;
        if STACK_IS_NOT_EMPTY stack' then
          do top <- _raqm_stack_top stack';
          do scripts' <- store (rs_scripts st) i top;
          do script_i' <- load scripts' i;
          Done {| rs_scripts := scripts';
                  last_script_index := last_script_index st;
                  last_set_index := Z.of_nat i;
                  last_script_value := script_i';
                  rs_stack := stack' |}
        else
          do scripts' <- store (rs_scripts st) i (last_script_value st);
          Done {| rs_scripts := scripts';
                  last_script_index := last_script_index st;
                  last_set_index := Z.of_nat i;
                  last_script_value := last_script_value st;
                  rs_stack := stack' |}
    else
      set_script st i (last_script_value st)
  else if (script_i =? HB_SCRIPT_INHERITED)
          && negb (last_script_index st =? -1) then
    set_script st i (last_script_value st)
  else
    (* for (int j = last_set_index + 1; j < i; ++j)
         rq->scripts[j] = rq->scripts[i]; *)
    let lo := last_set_index st + 1 in
    do scripts' <- for_loop
                     (fun j arr => do v <- load arr i; store arr j v)
                     (Z.to_nat lo) (Z.to_nat (Z.of_nat i - lo))
                     (rs_scripts st);
    do v <- load scripts' i;
    Done {| rs_scripts := scripts';
            last_script_index := Z.of_nat i;
            last_set_index := Z.of_nat i;
            last_script_value := v;
            rs_stack := rs_stack st |}.

Section Resolve.
Context `{Collaborators}.

(** [for (size_t i = 0; i < rq->text_len; ++i)
       rq->scripts[i] = hb_unicode_script (..., rq->text[i]);] *)
Definition initial_scripts (text : list Z) : list hb_script_t :=
  map hb_unicode_script text.

(** The state at the entry of the resolution walk. *)
Definition resolve_init (text : list Z) : resolve_state :=
  {| rs_scripts := initial_scripts text;
     last_script_index := -1;
     last_set_index := -1;
     last_script_value := HB_SCRIPT_INVALID;
     rs_stack := _raqm_stack_new (length text) |}.

(** The first [k] rounds of the resolution walk. *)
Definition resolve_walk (text : list Z) (k : nat) : exec resolve_state :=
  for_loop (resolve_step text) 0 k (resolve_init text).

Definition resolved_scripts (text : list Z) : exec (list hb_script_t) :=
  do st <- resolve_walk text
             (Z.to_nat (int_of_size_t (Z.of_nat (length text))));
  Done (rs_scripts st).

Definition _raqm_resolve_scripts (rq : raqm_t) : exec (bool * raqm_t) :=
  match scripts rq with
  | Some _ => Done (true, rq)
  | None =>
      do scripts' <- resolved_scripts (text rq);
      Done (true, {| ref_count := ref_count rq;
                     text := text rq;
                     base_dir := base_dir rq;
                     features := features rq;
                     scripts := Some scripts';
                     font := font rq;
                     runs := runs rq;
                     glyphs := glyphs rq |})
  end.
End Resolve.

(** ** Itemization *)

(** [for (int j = count - 1; j >= 0; j--) s = body (j, s);] *)
Fixpoint for_down {S : Type} (body : Z -> S -> exec S)
    (count : nat) (s : S) : exec S :=
  match count with
  | O => Done s
  | Datatypes.S c => do s' <- body (Z.of_nat c) s; for_down body c s'
  end.

(** An array access at an [int] index. *)
Definition load_at {A : Type} (arr : list A) (i : Z) : exec A :=
  if i <? 0 then Fault else load arr (Z.to_nat i).

Definition _raqm_hb_dir (rq : raqm_t) (level : Z) : hb_direction_t :=
  if decide (base_dir rq = RAQM_DIRECTION_TTB) then HB_DIRECTION_TTB
  else if FRIBIDI_LEVEL_IS_RTL level then HB_DIRECTION_RTL
  else HB_DIRECTION_LTR.

(** While a bidi run is split: the nodes linked before the node [run]
    points to, and that node. *)
Record split_state : Type := mk_split {
  linked : list raqm_run_t;
  current : raqm_run_t
}.

Definition newrun (pos : Z) (direction : hb_direction_t)
    (script : hb_script_t) : raqm_run_t :=
  {| run_pos := pos;
     run_len := 1;
     run_direction := direction;
     run_script := script;
     run_font := None;
     run_buffer := None |}.

(** The body of the loop over [j] in the backward branch. *)
Definition split_backward_step (scripts : list hb_script_t)
    (direction : hb_direction_t) (pos : Z) (j : Z) (st : split_state)
    : exec split_state :=
  do script <- load_at scripts (pos + j);
  if negb (script =? run_script (current st)) then
    Done {| linked := linked st ++ [current st];
            current := newrun (pos + j) direction script |}
  else
    Done {| linked := linked st;
            current := {| run_pos := pos + j;
                          run_len := run_len (current st) + 1;
                          run_direction := run_direction (current st);
                          run_script := run_script (current st);
                          run_font := run_font (current st);
                          run_buffer := run_buffer (current st) |} |}.

(** The body of the loop over [j] in the forward branch. *)
Definition split_forward_step (scripts : list hb_script_t)
    (direction : hb_direction_t) (pos : Z) (j : nat) (st : split_state)
    : exec split_state :=
  do script <- load_at scripts (pos + Z.of_nat j);
  if negb (script =? run_script (current st)) then
    Done {| linked := linked st ++ [current st];
            current := newrun (pos + Z.of_nat j) direction script |}
  else
    Done {| linked := linked st;
            current := {| run_pos := run_pos (current st);
                          run_len := run_len (current st) + 1;
                          run_direction := run_direction (current st);
                          run_script := run_script (current st);
                          run_font := run_font (current st);
                          run_buffer := run_buffer (current st) |} |}.

(** One round of [for (int i = 0; i < run_count; i++)]: the nodes made for
    the bidi run [runs[i]], in the order they are linked. The first node
    comes from [calloc]: its length starts at 0, its font and buffer are
    null. *)
Definition split_bidi_run (rq : raqm_t) (scripts : list hb_script_t)
    (r : FriBidiRun) : exec (list raqm_run_t) :=
  let direction := _raqm_hb_dir rq (bidi_level r) in
  if HB_DIRECTION_IS_BACKWARD direction then
    let pos := bidi_pos r + bidi_len r - 1 in
    do script <- load_at scripts pos;
    let run := {| run_pos := pos;
                  run_len := 0;
                  run_direction := direction;
                  run_script := script;
                  run_font := None;
                  run_buffer := None |} in
    do st <- for_down (split_backward_step scripts direction (bidi_pos r))
               (Z.to_nat (bidi_len r)) {| linked := []; current := run |};
    Done (linked st ++ [current st])
  else
    let pos := bidi_pos r in
    do script <- load_at scripts pos;
    let run := {| run_pos := pos;
                  run_len := 0;
                  run_direction := direction;
                  run_script := script;
                  run_font := None;
                  run_buffer := None |} in
    do st <- for_loop (split_forward_step scripts direction (bidi_pos r))
               0 (Z.to_nat (bidi_len r)) {| linked := []; current := run |};
    Done (linked st ++ [current st]).

(** The chain of nodes the loop over the bidi runs links together. *)
Fixpoint itemize_chain (rq : raqm_t) (scripts : list hb_script_t)
    (bidi_runs : list FriBidiRun) : exec (list raqm_run_t) :=
  match bidi_runs with
  | [] => Done []
  | r :: rest =>
      do nodes <- split_bidi_run rq scripts r;
      do chain <- itemize_chain rq scripts rest;
      Done (nodes ++ chain)
  end.

Definition set_scripts (rq : raqm_t) (scripts' : option (list hb_script_t))
    : raqm_t :=
  {| ref_count := ref_count rq;
     text := text rq;
     base_dir := base_dir rq;
     features := features rq;
     scripts := scripts';
     font := font rq;
     runs := runs rq;
     glyphs := glyphs rq |}.

Definition set_runs (rq : raqm_t) (runs' : list raqm_run_t) : raqm_t :=
  {| ref_count := ref_count rq;
     text := text rq;
     base_dir := base_dir rq;
     features := features rq;
     scripts := scripts rq;
     font := font rq;
     runs := runs';
     glyphs := glyphs rq |}.

Section Layout.
Context `{Collaborators}.

(** What [_raqm_itemize] gets from the bidi engine: [max_level], the
    [types] and [levels] arrays and the resolved [par_type]. A
    [FriBidiLevel] is one byte, so [memset (levels, 0, text_len)] clears
    the whole array; a [FriBidiCharType] is wider, and [memset] with
    [FRIBIDI_TYPE_LTR] fills the first [text_len] bytes of [types] with
    the low byte of that constant. *)
Definition itemize_bidi (rq : raqm_t)
    : Z * bidi_types_t * list Z * FriBidiParType :=
  let par_type :=
    if decide (base_dir rq = RAQM_DIRECTION_RTL) then FRIBIDI_PAR_RTL
    else if decide (base_dir rq = RAQM_DIRECTION_LTR) then FRIBIDI_PAR_LTR
    else FRIBIDI_PAR_ON in
  if decide (base_dir rq = RAQM_DIRECTION_TTB) then
    (0, types_memset (FRIBIDI_TYPE_LTR `mod` 256) (text_len rq),
     replicate (text_len rq) 0, par_type)
  else
    let types := fribidi_get_bidi_types (text rq) (text_len rq) in
    let '(max_level, par_type', levels) :=
      fribidi_get_par_embedding_levels types (text_len rq) par_type in
    (max_level, types_filled types, levels, par_type').

Definition itemize_levels (rq : raqm_t) : list Z :=
  let '(_, _, levels, _) := itemize_bidi rq in levels.

(** The bidi runs [_raqm_itemize] gets from [fribidi_reorder_runs]. *)
Definition itemize_bidi_runs (rq : raqm_t) : list FriBidiRun :=
  let '(_, types, levels, par_type) := itemize_bidi rq in
  fribidi_reorder_runs types (text_len rq) par_type levels.

Definition _raqm_itemize (rq : raqm_t) : exec (bool * raqm_t) :=
  let '(max_level, _, _, _) := itemize_bidi rq in
  if max_level <? 0 then Done (false, rq)
  else
    let bidi_runs := itemize_bidi_runs rq in
    do resolved <- _raqm_resolve_scripts rq;
    let '(ok, rq1) := resolved in
    if negb ok then Done (false, rq1)
    else
      match scripts rq1 with
      | None => Fault
      | Some scripts1 =>
          do chain <- itemize_chain rq1 scripts1 bidi_runs;
          match chain with
          | [] => Fault (* last->next = NULL with last == NULL *)
          | _ :: _ =>
              Done (true,
                    match runs rq1 with
                    | [] => set_runs rq1 chain
                    | _ :: _ => rq1
                    end)
          end
      end.

Definition shape_run (rq : raqm_t) (run : raqm_run_t) : raqm_run_t :=
  {| run_pos := run_pos run;
     run_len := run_len run;
     run_direction := run_direction run;
     run_script := run_script run;
     run_font := run_font run;
     run_buffer :=
       Some (snd (hb_shape_full (font rq) (text rq) (run_pos run)
                    (run_len run) (run_script run) (run_direction run)
                    (features rq))) |}.

Definition _raqm_shape (rq : raqm_t) : bool * raqm_t :=
  (true, set_runs rq (map (shape_run rq) (runs rq))).

Definition raqm_layout (rq : option raqm_t) : exec (bool * option raqm_t) :=
  match rq with
  | None => Done (false, None)
  | Some r =>
      if decide (text_len r = 0%nat) then Done (false, rq)
      else
        do itemized <- _raqm_itemize r;
        let '(ok, r1) := itemized in
        if negb ok then Done (false, Some r1)
        else
          let '(ok', r2) := _raqm_shape r1 in
          if negb ok' then Done (false, Some r2)
          else Done (true, Some r2)
  end.
End Layout.

(** ** The public API

    The context pointer [rq] is an [option]: [None] is [NULL]. A function
    returns, next to its C result, the context as it has left it. *)

Definition raqm_create : raqm_t :=
  {| ref_count := 1;
     text := [];
     base_dir := RAQM_DIRECTION_DEFAULT;
     features := [];
     scripts := None;
     font := None;
     runs := [];
     glyphs := None |}.

Definition raqm_reference (rq : option raqm_t) : option raqm_t :=
  match rq with
  | None => None
  | Some r =>
      Some {| ref_count := ref_count r + 1;
              text := text r;
              base_dir := base_dir r;
              features := features r;
              scripts := scripts r;
              font := font r;
              runs := runs r;
              glyphs := glyphs r |}
  end.

(** After the last reference is dropped the context is gone. *)
Definition raqm_destroy (rq : option raqm_t) : option raqm_t :=
  match rq with
  | None => None
  | Some r =>
      if ref_count r - 1 =? 0 then None
      else
        Some {| ref_count := ref_count r - 1;
                text := text r;
                base_dir := base_dir r;
                features := features r;
                scripts := scripts r;
                font := font r;
                runs := runs r;
                glyphs := glyphs r |}
  end.

(** [len] is a [size_t]; the copy loop reads [text[0 .. len)]. *)
Definition raqm_set_text (rq : option raqm_t) (text' : list Z) (len : Z)
    : exec (option raqm_t) :=
  match rq with
  | None => Done None
  | Some r =>
      if Z.of_nat (length text') <? len then Fault
      else
        Done (Some {| ref_count := ref_count r;
                      text := take (Z.to_nat len) text';
                      base_dir := base_dir r;
                      features := features r;
                      scripts := scripts r;
                      font := font r;
                      runs := runs r;
                      glyphs := glyphs r |})
  end.

Definition raqm_set_par_direction (rq : option raqm_t)
    (dir : raqm_direction_t) : option raqm_t :=
  match rq with
  | None => None
  | Some r =>
      Some {| ref_count := ref_count r;
              text := text r;
              base_dir := dir;
              features := features r;
              scripts := scripts r;
              font := font r;
              runs := runs r;
              glyphs := glyphs r |}
  end.

(** Single-font variant ([RAQM_MULTI_FONT] is not defined). *)
Definition raqm_set_freetype_face (rq : option raqm_t) (face : FT_Face)
    (start len : Z) : option raqm_t :=
  match rq with
  | None => None
  | Some r =>
      if (Z.of_nat (text_len r) =? 0) || (Z.of_nat (text_len r) <=? start)
      then rq
      else
        Some {| ref_count := ref_count r;
                text := text r;
                base_dir := base_dir r;
                features := features r;
                scripts := scripts r;
                font := Some (hb_ft_font face);
                runs := runs r;
                glyphs := glyphs r |}
  end.

Definition glyph_of (g : hb_glyph_info_t * hb_glyph_position_t)
    : raqm_glyph_t :=
  {| index := info_codepoint (fst g);
     x_advance := position_x_advance (snd g);
     y_advance := position_y_advance (snd g);
     x_offset := position_x_offset (snd g);
     y_offset := position_y_offset (snd g);
     cluster := info_cluster (fst g) |}.

(** The second loop of [raqm_get_glyphs]; [hb_buffer_get_length] and the
    two array getters dereference [run->buffer]. *)
Fixpoint collect_glyphs (runs : list raqm_run_t) : exec (list raqm_glyph_t) :=
  match runs with
  | [] => Done []
  | run :: rest =>
      match run_buffer run with
      | None => Fault
      | Some buffer =>
          do more <- collect_glyphs rest;
          Done (map glyph_of buffer ++ more)
      end
  end.

(** [length] is the out-pointer: [None] when it is [NULL], else the cell
    it points to. The result is the returned array, the cell and the
    context. *)
Definition raqm_get_glyphs (rq : option raqm_t) (length : option Z)
    : exec (option (list raqm_glyph_t) * option Z * option raqm_t) :=
  match rq, length with
  | Some r, Some _ =>
      do all <- collect_glyphs (runs r);
      Done (Some all, Some (Z.of_nat (List.length all)),
            Some {| ref_count := ref_count r;
                    text := text r;
                    base_dir := base_dir r;
                    features := features r;
                    scripts := scripts r;
                    font := font r;
                    runs := runs r;
                    glyphs := Some all |})
  | _, _ => Done (None, length, rq)
  end.

Section Api.
Context `{Collaborators}.

Definition raqm_add_font_feature (rq : option raqm_t) (feature : string)
    (len : Z) : exec (bool * option raqm_t) :=
  match hb_feature_from_string feature len with
  | Some fea =>
      match rq with
      | None => Fault (* rq->features_len++ *)
      | Some r =>
          Done (true,
                Some {| ref_count := ref_count r;
                        text := text r;
                        base_dir := base_dir r;
                        features := features r ++ [fea];
                        scripts := scripts r;
                        font := font r;
                        runs := runs r;
                        glyphs := glyphs r |})
      end
  | None => Done (false, rq)
  end.

(** [for (const char **p = features; *p != NULL; p++)
       raqm_add_font_feature (rq, *p, -1);] *)
Fixpoint add_features (rq : option raqm_t) (features : list string)
    : exec (option raqm_t) :=
  match features with
  | [] => Done rq
  | p :: rest =>
      do added <- raqm_add_font_feature rq p (-1);
      add_features (snd added) rest
  end.

(** [length] is an [int], converted to [size_t] where it is passed on.
    The result is the returned count (a [size_t] converted to
    [unsigned int]) and the array stored in [*info], a copy made before
    [raqm_destroy] frees the context. *)
Definition raqm_shape_u32 (text' : list Z) (length : Z) (face : FT_Face)
    (direction : raqm_direction_t) (features' : option (list string))
    : exec (Z * option (list raqm_glyph_t)) :=
  let len := length `mod` 18446744073709551616 in
  let rq := Some raqm_create in
  do rq <- raqm_set_text rq text' len;
  let rq := raqm_set_par_direction rq direction in
  let rq := raqm_set_freetype_face rq face 0 len in
  let rq := raqm_set_freetype_face rq face 0 len in
  do rq <- match features' with
           | Some fs => add_features rq fs
           | None => Done rq
           end;
  do laid <- raqm_layout rq;
  if fst laid then
    do got <- raqm_get_glyphs (snd laid) (Some 0);
    match got with
    | (Some glyphs', Some count, _) =>
        Done (count `mod` 4294967296, Some glyphs')
    | _ => Fault
    end
  else Done (0, None).

(** [_raqm_utf32_to_utf8_index]: the encoder reads [unicode[0 .. index)]. *)
Definition _raqm_utf32_to_utf8_index (unicode : list Z) (index : Z)
    : exec Z :=
  if (index <? 0) || (Z.of_nat (List.length unicode) <? index) then Fault
  else
    Done (Z.of_nat (List.length
            (fribidi_unicode_to_charset (take (Z.to_nat index) unicode)))).

Definition set_cluster (g : raqm_glyph_t) (cluster' : Z) : raqm_glyph_t :=
  {| index := index g;
     x_advance := x_advance g;
     y_advance := y_advance g;
     x_offset := x_offset g;
     y_offset := y_offset g;
     cluster := cluster' |}.

(** The body of [for (i = 0; i < glyph_count; i++)
       info[i].cluster = _raqm_utf32_to_utf8_index (u32_str, info[i].cluster);] *)
Definition remap_cluster (u32_str : list Z) (i : nat)
    (info : list raqm_glyph_t) : exec (list raqm_glyph_t) :=
  do g <- load info i;
  do c <- _raqm_utf32_to_utf8_index u32_str (cluster g);
  store info i (set_cluster g c).

(** [u32_str] is [calloc]ed with [(size_t) u8_size] cells, of which the
    decoder fills the first [u32_size]. A negative [u8_size] becomes a
    count that no allocation can meet: [calloc] returns the null pointer,
    a buffer of no cell, and [Z.to_nat] of the negative number is the 0
    cells it holds. *)
Definition raqm_shape (u8_str : list Z) (u8_size : Z) (face : FT_Face)
    (direction : raqm_direction_t) (features' : option (list string))
    : exec (Z * option (list raqm_glyph_t)) :=
  let decoded := fribidi_charset_to_unicode u8_str u8_size in
  let u32_size := Z.of_nat (List.length decoded) in
  if Z.max 0 u8_size <? u32_size then Fault
  else
    let u32_str :=
      decoded ++ replicate (Z.to_nat (u8_size - u32_size)) 0 in
    do shaped <- raqm_shape_u32 u32_str u32_size face direction features';
    match shaped with
    | (glyph_count, Some info) =>
        do info' <- for_loop (remap_cluster u32_str) 0
                      (Z.to_nat glyph_count) info;
        Done (glyph_count, Some info')
    | (glyph_count, None) =>
        if glyph_count =? 0 then Done (glyph_count, None) else Fault
    end.
End Api.

(** ** The contract of the bidi run reordering *)

(** The maximal spans of equal level of [levels], in logical order, the
    first span starting at [pos]. *)
Fixpoint level_spans_from (pos : Z) (levels : list Z) : list FriBidiRun :=
  match levels with
  | [] => []
  | level :: rest =>
      match level_spans_from (pos + 1) rest with
      | r :: spans =>
          if bidi_level r =? level
          then mk_bidi_run pos (bidi_len r + 1) level :: spans
          else mk_bidi_run pos 1 level :: r :: spans
      | [] => [mk_bidi_run pos 1 level]
      end
  end.

Definition level_spans (levels : list Z) : list FriBidiRun :=
  level_spans_from 0 levels.

(** Modelled from the spec: [reorder_runs.c] is not among the sources. The
    bidi runs are the maximal spans of consecutive scalars with equal
    level, listed in visual order: some rearrangement of [level_spans] of
    the level array of the paragraph. *)
Definition bidi_runs_of_levels (levels : list Z) (bidi_runs : list FriBidiRun)
    : Prop :=
  bidi_runs ≡ₚ level_spans levels.

Definition bidi_runs_partition (n : nat) (bidi_runs : list FriBidiRun) : Prop :=
  exists levels, length levels = n /\ bidi_runs_of_levels levels bidi_runs.

(** The logical positions [pos, ..., pos + len - 1]. *)
Definition positions (pos len : Z) : list Z :=
  map (fun k => pos + Z.of_nat k) (seq 0 (Z.to_nat len)).

Definition run_positions (run : raqm_run_t) : list Z :=
  positions (run_pos run) (run_len run).

Definition bidi_positions (r : FriBidiRun) : list Z :=
  positions (bidi_pos r) (bidi_len r).

Definition sum_len (chain : list raqm_run_t) : Z :=
  foldr (fun run acc => run_len run + acc) 0 chain.

(** ** Sample collaborators

    Small stand-ins for HarfBuzz and FriBidi on which the model can be
    run: scripts of a few blocks, levels from the strong types alone,
    visual reordering by rule L2, one glyph per scalar, UTF-8. *)

Module Sample.

Definition script_of (ch : Z) : hb_script_t :=
  if ((0x41 <=? ch) && (ch <=? 0x5a)) || ((0x61 <=? ch) && (ch <=? 0x7a))
  then HB_SCRIPT_LATIN
  else if (0x370 <=? ch) && (ch <=? 0x3ff) then HB_SCRIPT_GREEK
  else if (0x620 <=? ch) && (ch <=? 0x64a) then HB_SCRIPT_ARABIC
  else if (0x300 <=? ch) && (ch <=? 0x36f) then HB_SCRIPT_INHERITED
  else HB_SCRIPT_COMMON.

Definition TYPE_AL : Z := 0x113.
Definition TYPE_ON : Z := 0x40.

Definition bidi_type_of (ch : Z) : Z :=
  let s := script_of ch in
  if s =? HB_SCRIPT_ARABIC then TYPE_AL
  else if (s =? HB_SCRIPT_COMMON) || (s =? HB_SCRIPT_INHERITED) then TYPE_ON
  else FRIBIDI_TYPE_LTR.

Definition bidi_types (text' : list Z) (len : nat) : list Z :=
  map bidi_type_of (take len text').

Fixpoint first_strong (types : list Z) : Z :=
  match types with
  | [] => 0
  | t :: rest =>
      if t =? TYPE_AL then 1
      else if t =? FRIBIDI_TYPE_LTR then 0
      else first_strong rest
  end.

Definition level_of (base t : Z) : Z :=
  if t =? TYPE_AL then 1
  else if t =? FRIBIDI_TYPE_LTR then (if base =? 0 then 0 else 2)
  else base.

Definition par_embedding_levels (types : list Z) (len : nat)
    (par : FriBidiParType) : Z * FriBidiParType * list Z :=
  let base :=
    match par with
    | FRIBIDI_PAR_RTL | FRIBIDI_PAR_WRTL => 1
    | FRIBIDI_PAR_LTR | FRIBIDI_PAR_WLTR => 0
    | FRIBIDI_PAR_ON => first_strong types
    end in
  let levels := map (level_of base) (take len types) in
  (foldr Z.max base levels + 1,
   if base =? 0 then FRIBIDI_PAR_LTR else FRIBIDI_PAR_RTL,
   levels).

(** Rule L2 at one level: every maximal sequence of runs at [level] or
    higher is reversed. *)
Fixpoint reverse_at (level : Z) (pending rs : list FriBidiRun)
    : list FriBidiRun :=
  match rs with
  | [] => pending
  | r :: rest =>
      if level <=? bidi_level r then reverse_at level (r :: pending) rest
      else pending ++ r :: reverse_at level [] rest
  end.

Fixpoint reorder_from (level : nat) (rs : list FriBidiRun)
    : list FriBidiRun :=
  match level with
  | O => rs
  | S level' => reorder_from level' (reverse_at (Z.of_nat level) [] rs)
  end.

Definition reorder_runs (types : bidi_types_t) (len : nat)
    (par : FriBidiParType) (levels : list Z) : list FriBidiRun :=
  reorder_from (Z.to_nat (foldr Z.max 0 levels)) (level_spans levels).

(** A four-letter tag switches the feature on. *)
Definition feature_from_string (feature : string) (len : Z)
    : option hb_feature_t :=
  if decide (String.length feature = 4%nat)
  then Some {| feature_tag := 0; feature_value := 1;
               feature_start := 0; feature_end := -1 |}
  else None.

Definition glyph_at (text' : list Z) (i : Z)
    : hb_glyph_info_t * hb_glyph_position_t :=
  ({| info_codepoint := nth (Z.to_nat i) text' 0; info_cluster := i |},
   {| position_x_advance := 10; position_y_advance := 0;
      position_x_offset := 0; position_y_offset := 0 |}).

Definition shape_full (font' : option hb_font_t) (text' : list Z)
    (pos len : Z) (script : hb_script_t) (direction : hb_direction_t)
    (features' : list hb_feature_t) : bool * hb_buffer_t :=
  let logical := map (glyph_at text') (positions pos len) in
  (true,
   if HB_DIRECTION_IS_BACKWARD direction then reverse logical else logical).

Definition utf8_encode_char (ch : Z) : list Z :=
  if ch <=? 0x7f then [ch]
  else if ch <=? 0x7ff then
    [Z.lor 0xc0 (Z.shiftr ch 6); Z.lor 0x80 (Z.land ch 0x3f)]
  else if ch <=? 0xffff then
    [Z.lor 0xe0 (Z.shiftr ch 12);
     Z.lor 0x80 (Z.land (Z.shiftr ch 6) 0x3f);
     Z.lor 0x80 (Z.land ch 0x3f)]
  else
    [Z.lor 0xf0 (Z.shiftr ch 18);
     Z.lor 0x80 (Z.land (Z.shiftr ch 12) 0x3f);
     Z.lor 0x80 (Z.land (Z.shiftr ch 6) 0x3f);
     Z.lor 0x80 (Z.land ch 0x3f)].

Definition utf8_encode (us : list Z) : list Z :=
  concat (map utf8_encode_char us).

Fixpoint utf8_decode_loop (fuel : nat) (s : list Z) : list Z :=
  match fuel with
  | O => []
  | S fuel' =>
      match s with
      | [] => []
      | b0 :: s1 =>
          if b0 <=? 0x7f then b0 :: utf8_decode_loop fuel' s1
          else if b0 <=? 0xdf then
            match s1 with
            | b1 :: s2 =>
                (Z.shiftl (Z.land b0 0x1f) 6 + Z.land b1 0x3f)
                  :: utf8_decode_loop fuel' s2
            | _ => []
            end
          else if b0 <=? 0xef then
            match s1 with
            | b1 :: b2 :: s3 =>
                (Z.shiftl (Z.land b0 0x0f) 12 + Z.shiftl (Z.land b1 0x3f) 6
                 + Z.land b2 0x3f) :: utf8_decode_loop fuel' s3
            | _ => []
            end
          else
            match s1 with
            | b1 :: b2 :: b3 :: s4 =>
                (Z.shiftl (Z.land b0 0x07) 18 + Z.shiftl (Z.land b1 0x3f) 12
                 + Z.shiftl (Z.land b2 0x3f) 6 + Z.land b3 0x3f)
                  :: utf8_decode_loop fuel' s4
            | _ => []
            end
      end
  end.

Definition utf8_decode (s : list Z) (len : Z) : list Z :=
  utf8_decode_loop (Z.to_nat len) (take (Z.to_nat len) s).

#[export] Instance collaborators : Collaborators :=
  {| hb_unicode_script := script_of;
     fribidi_get_bidi_types := bidi_types;
     fribidi_get_par_embedding_levels := par_embedding_levels;
     fribidi_reorder_runs := reorder_runs;
     hb_feature_from_string := feature_from_string;
     hb_shape_full := shape_full;
     fribidi_charset_to_unicode := utf8_decode;
     fribidi_unicode_to_charset := utf8_encode |}.

(** A context holding [text'] with base direction [dir] and a font. *)
Definition context (text' : list Z) (dir : raqm_direction_t) : raqm_t :=
  {| ref_count := 1;
     text := text';
     base_dir := dir;
     features := [];
     scripts := None;
     font := Some (hb_ft_font 0%nat);
     runs := [];
     glyphs := None |}.

(** A shaper that reports an error on every run. *)
Definition failing_collaborators : Collaborators :=
  {| hb_unicode_script := script_of;
     fribidi_get_bidi_types := bidi_types;
     fribidi_get_par_embedding_levels := par_embedding_levels;
     fribidi_reorder_runs := reorder_runs;
     hb_feature_from_string := feature_from_string;
     hb_shape_full := fun _ _ _ _ _ _ _ => (false, []);
     fribidi_charset_to_unicode := utf8_decode;
     fribidi_unicode_to_charset := utf8_encode |}.


(** A shaper that reports an error on every Arabic run and leaves its
    buffer empty. *)
Definition arabic_failing_collaborators : Collaborators :=
  {| hb_unicode_script := script_of;
     fribidi_get_bidi_types := bidi_types;
     fribidi_get_par_embedding_levels := par_embedding_levels;
     fribidi_reorder_runs := reorder_runs;
     hb_feature_from_string := feature_from_string;
     hb_shape_full := fun font' text' pos len script direction features' =>
       if script =? HB_SCRIPT_ARABIC then (false, [])
       else shape_full font' text' pos len script direction features';
     fribidi_charset_to_unicode := utf8_decode;
     fribidi_unicode_to_charset := utf8_encode |}.

End Sample.

(** A context with another glyph array. *)
Definition set_glyphs (rq : raqm_t) (glyphs' : option (list raqm_glyph_t))
    : raqm_t :=
  {| ref_count := ref_count rq;
     text := text rq;
     base_dir := base_dir rq;
     features := features rq;
     scripts := scripts rq;
     font := font rq;
     runs := runs rq;
     glyphs := glyphs' |}.

(** The collaborators [C] with the status that the shaper reports replaced
    by [status]. *)
Definition with_shaper_status (C : Collaborators)
    (status : option hb_font_t -> list Z -> Z -> Z -> hb_script_t ->
              hb_direction_t -> list hb_feature_t -> bool) : Collaborators :=
  {| hb_unicode_script := @hb_unicode_script C;
     fribidi_get_bidi_types := @fribidi_get_bidi_types C;
     fribidi_get_par_embedding_levels := @fribidi_get_par_embedding_levels C;
     fribidi_reorder_runs := @fribidi_reorder_runs C;
     hb_feature_from_string := @hb_feature_from_string C;
     hb_shape_full := fun font' text' pos len script direction features' =>
       (status font' text' pos len script direction features',
        snd (@hb_shape_full C font' text' pos len script direction features'));
     fribidi_charset_to_unicode := @fribidi_charset_to_unicode C;
     fribidi_unicode_to_charset := @fribidi_unicode_to_charset C |}.

(** ** Predicates of the statements *)

Definition is_opener (ch : Z) : Prop :=
  0 <= get_pair_index ch /\ IS_OPEN (get_pair_index ch) = true.
Definition is_closer (ch : Z) : Prop :=
  0 <= get_pair_index ch /\ IS_OPEN (get_pair_index ch) = false.

Definition is_concrete (script : hb_script_t) : bool :=
  negb (script =? HB_SCRIPT_COMMON) && negb (script =? HB_SCRIPT_INHERITED).

Fixpoint first_concrete (scripts : list hb_script_t) : option hb_script_t :=
  match scripts with
  | [] => None
  | s :: rest => if is_concrete s then Some s else first_concrete rest
  end.

(** Every position of the run holds the script of the run. *)
Definition uniform_script (scripts : list hb_script_t) (run : raqm_run_t) : Prop :=
  forall p, p ∈ run_positions run ->
    scripts !! Z.to_nat p = Some (run_script run).

(** Neighbours in the chain differ in script. *)
Definition adjacent_differ (chain : list raqm_run_t) : Prop :=
  forall i r1 r2, chain !! i = Some r1 -> chain !! S i = Some r2 ->
    run_script r1 <> run_script r2.

Definition nonneg_len (r : raqm_run_t) : Prop := 0 <= run_len r.

(** A chain of shape runs covers the [n] positions of a paragraph. *)
Definition covers (n : nat) (chain : list raqm_run_t) : Prop :=
  sum_len chain = Z.of_nat n /\
  flat_map run_positions chain ≡ₚ positions 0 (Z.of_nat n).

(** A chain of shape runs is the sequence of the maximal same-script
    spans of [scripts] over the positions [0, ..., n - 1], all of them
    top-to-bottom. *)
Definition script_spans_ttb (n : nat) (scripts : list hb_script_t)
    (chain : list raqm_run_t) : Prop :=
  Forall (fun run => run_direction run = HB_DIRECTION_TTB) chain /\
  flat_map run_positions chain = positions 0 (Z.of_nat n) /\
  Forall (fun run => 1 <= run_len run /\ uniform_script scripts run) chain /\
  adjacent_differ chain.

(** ** Loop invariants *)

(** What holds of the state after [k] rounds of the resolution walk. *)
Record walk_inv `{Collaborators} (text : list Z) (k : nat)
    (st : resolve_state) : Prop := {
  inv_length : length (rs_scripts st) = length text;
  inv_rest : forall j, (k <= j)%nat ->
    rs_scripts st !! j = initial_scripts text !! j;
  inv_set : last_set_index st = Z.of_nat k - 1;
  inv_index : last_script_index st = -1 <-> k = 0%nat;
  inv_value : forall j, k = S j ->
    rs_scripts st !! j = Some (last_script_value st);
  inv_capacity : stack_capacity (rs_stack st) = length text;
  inv_length_pi : length (stack_pair_index (rs_stack st)) = length text;
  inv_length_sc : length (stack_scripts (rs_stack st)) = length text;
  inv_size : (stack_size (rs_stack st) <= Nat.pred k)%nat;
  inv_cells : forall m, (1 <= m <= stack_size (rs_stack st))%nat ->
    exists p s j ch,
      stack_pair_index (rs_stack st) !! m = Some (Some p) /\
      stack_scripts (rs_stack st) !! m = Some (Some s) /\
      (j < k)%nat /\ text !! j = Some ch /\
      get_pair_index ch = p /\ is_opener ch /\
      rs_scripts st !! j = Some s
}.

(** What round [k] of the walk does to position [k] and to nothing else. *)
Record step_post `{Collaborators} (text : list Z) (k : nat)
    (st st' : resolve_state) : Prop := {
  post_frame : forall j, j <> k -> rs_scripts st' !! j = rs_scripts st !! j;
  post_first : k = 0%nat ->
    rs_scripts st' !! k = initial_scripts text !! k /\ rs_stack st' = rs_stack st;
  post_concrete : forall s, initial_scripts text !! k = Some s ->
    s <> HB_SCRIPT_COMMON -> s <> HB_SCRIPT_INHERITED ->
    rs_scripts st' !! k = Some s /\ rs_stack st' = rs_stack st;
  post_previous : forall s ch, (0 < k)%nat ->
    initial_scripts text !! k = Some s -> text !! k = Some ch ->
    s = HB_SCRIPT_INHERITED \/ (s = HB_SCRIPT_COMMON /\ ~ is_closer ch) ->
    rs_scripts st' !! k = Some (last_script_value st);
  post_closer : forall ch, (0 < k)%nat ->
    initial_scripts text !! k = Some HB_SCRIPT_COMMON ->
    text !! k = Some ch -> is_closer ch ->
    rs_scripts st' !! k = Some (last_script_value st) \/
    exists j ch' s, (j < k)%nat /\ text !! j = Some ch' /\
      get_pair_index ch' = Z.land (get_pair_index ch) (Z.lnot 1) /\
      rs_scripts st !! j = Some s /\ rs_scripts st' !! k = Some s
}.

(** The nodes made so far for one bidi run, as a list. *)
Definition nodes_of (st : split_state) : list raqm_run_t :=
  linked st ++ [current st].

(** What holds after [j] rounds of the forward loop over the bidi run
    that starts at [pos]. *)
Record forward_inv (scripts : list hb_script_t) (direction : hb_direction_t)
    (pos : Z) (j : nat) (st : split_state) : Prop := {
  fw_direction : Forall (fun r => run_direction r = direction) (nodes_of st);
  fw_cover : flat_map run_positions (nodes_of st) = positions pos (Z.of_nat j);
  fw_end : run_pos (current st) + run_len (current st) = pos + Z.of_nat j;
  fw_first : j = 0%nat ->
    linked st = [] /\ run_len (current st) = 0 /\
    forall s, scripts !! Z.to_nat pos = Some s -> run_script (current st) = s;
  fw_length : (0 < j)%nat -> 1 <= run_len (current st);
  fw_linked : Forall (fun r => 1 <= run_len r) (linked st);
  fw_uniform : Forall (uniform_script scripts) (nodes_of st);
  fw_adjacent : adjacent_differ (nodes_of st)
}.

(** What holds of the backward loop over the bidi run [pos, len] when the
    rounds for the indices [c, ..., len - 1] are over. *)
Record backward_inv (direction : hb_direction_t) (pos len : Z) (c : nat)
    (st : split_state) : Prop := {
  bw_direction : Forall (fun r => run_direction r = direction) (nodes_of st);
  bw_cover : flat_map run_positions (nodes_of st) ≡ₚ
             positions (pos + Z.of_nat c) (len - Z.of_nat c);
  bw_current : run_len (current st) = 0 \/
               run_pos (current st) = pos + Z.of_nat c;
  bw_nonneg : Forall nonneg_len (nodes_of st)
}.

Section ByteIndex.
Context `{Collaborators}.

(** The byte length of the UTF-8 encoding of the first [c] scalars. *)
Definition prefix_bytes (unicode : list Z) (c : Z) : Z :=
  Z.of_nat (length (fribidi_unicode_to_charset (take (Z.to_nat c) unicode))).

(** What holds after [i] rounds of the cluster remapping loop. *)
Definition remap_inv (u32_str : list Z) (info : list raqm_glyph_t) (i : nat)
    (cur : list raqm_glyph_t) : Prop :=
  length cur = length info /\
  (forall k, (i <= k)%nat -> cur !! k = info !! k) /\
  (forall k g, (k < i)%nat -> info !! k = Some g ->
     0 <= cluster g <= Z.of_nat (length u32_str) /\
     cur !! k = Some (set_cluster g (prefix_bytes u32_str (cluster g)))).
End ByteIndex.

(** ** Three sentences of the specification as they are written *)

(** C2 as the specification states it: in [pre · OPEN · t · CLOSE · post]
    with a pair of the table of Common script, [t] of concrete script [F]
    and the text around of another concrete script [X], the opener and
    the closer get the script [F]. *)
Definition bracket_symmetry_claim `{Collaborators} (pre t post : list Z)
    (open close : Z) (X F : hb_script_t) : Prop :=
  (exists n, paired_chars !! (2 * n)%nat = Some open /\
             paired_chars !! (2 * n + 1)%nat = Some close) ->
  hb_unicode_script open = HB_SCRIPT_COMMON ->
  hb_unicode_script close = HB_SCRIPT_COMMON ->
  Forall (fun ch => hb_unicode_script ch = X) (pre ++ post) ->
  Forall (fun ch => hb_unicode_script ch = F) t ->
  is_concrete X = true -> is_concrete F = true -> F <> X ->
  exists final,
    resolved_scripts (pre ++ open :: t ++ close :: post) = Done final /\
    final !! length pre = Some F /\
    final !! (length pre + 1 + length t)%nat = Some F.

(** C3 as the specification states it: a Common or Inherited scalar at a
    position [i > 0] gets the resolved script of position [i - 1]; at
    position 0 it gets the script of the first concrete scalar; and with a
    concrete scalar in the paragraph no resolved script is Common or
    Inherited. *)
Definition propagation_claim `{Collaborators} (text' : list Z) : Prop :=
  exists final,
    resolved_scripts text' = Done final /\
    (forall i s, (0 < i)%nat -> initial_scripts text' !! i = Some s ->
       is_concrete s = false -> final !! i = final !! Nat.pred i) /\
    (forall s c, initial_scripts text' !! 0%nat = Some s ->
       is_concrete s = false ->
       first_concrete (initial_scripts text') = Some c ->
       final !! 0%nat = Some c) /\
    (forall c, first_concrete (initial_scripts text') = Some c ->
       Forall (fun s => is_concrete s = true) final).

(** C5 as the specification states it, for the context [rq]: when the
    shaper reports an error on one of the runs it is given, layout returns
    failure and leaves the glyph array of the context as it was. *)
Definition shaping_failure_claim `{Collaborators} (rq : raqm_t) : Prop :=
  forall r1 run,
    _raqm_itemize rq = Done (true, r1) ->
    run ∈ runs r1 ->
    fst (hb_shape_full (font r1) (text r1) (run_pos run) (run_len run)
           (run_script run) (run_direction run) (features r1)) = false ->
    exists rq', raqm_layout (Some rq) = Done (false, Some rq') /\
      glyphs rq' = glyphs rq.

(** ** Further definitions of the statements *)

(** Pushing the entries of a list, first entry first, as a caller of
    [_raqm_stack_push] that ignores its result does. *)
Fixpoint push_all (stack : raqm_stack_t) (entries : list (hb_script_t * Z))
    : exec raqm_stack_t :=
  match entries with
  | [] => Done stack
  | (script, pi) :: rest =>
      do pushed <- _raqm_stack_push stack script pi;
      push_all (snd pushed) rest
  end.

(** Two states of the resolution walk, over two paragraphs of which the
    first, of [n] scalars, is a prefix of the second, that the rounds
    cannot tell apart: the same three variables, the same resolved scripts
    over the first [n] positions, and the same entries on the stack. *)
Record walk_sim (n : nat) (st st' : resolve_state) : Prop := {
  sim_scripts : forall j, (j < n)%nat -> rs_scripts st !! j = rs_scripts st' !! j;
  sim_index : last_script_index st = last_script_index st';
  sim_value : last_script_value st = last_script_value st';
  sim_size : stack_size (rs_stack st) = stack_size (rs_stack st');
  sim_cells : forall m, (1 <= m <= stack_size (rs_stack st))%nat ->
    stack_pair_index (rs_stack st) !! m = stack_pair_index (rs_stack st') !! m /\
    stack_scripts (rs_stack st) !! m = stack_scripts (rs_stack st') !! m
}.

(** What holds of the backward loop over the bidi run [pos, len] of
    [scripts] when the rounds for the indices [c, ..., len - 1] are over:
    the nodes, read from the last one linked to the first, tile the
    positions from [pos + c] on with spans of one script each. *)
Record backward_spans (scripts : list hb_script_t) (direction : hb_direction_t)
    (pos len : Z) (c : nat) (st : split_state) : Prop := {
  bs_direction : Forall (fun r => run_direction r = direction) (nodes_of st);
  bs_cover : flat_map run_positions (reverse (nodes_of st)) =
             positions (pos + Z.of_nat c) (len - Z.of_nat c);
  bs_start : Z.of_nat c < len -> run_pos (current st) = pos + Z.of_nat c;
  bs_first : Z.of_nat c = len ->
    linked st = [] /\ run_len (current st) = 0 /\
    forall s, scripts !! Z.to_nat (pos + len - 1) = Some s ->
      run_script (current st) = s;
  bs_length : Z.of_nat c < len -> 1 <= run_len (current st);
  bs_linked : Forall (fun r => 1 <= run_len r) (linked st);
  bs_uniform : Forall (uniform_script scripts) (nodes_of st);
  bs_adjacent : adjacent_differ (nodes_of st)
}.

(** The shape runs made for one bidi run are its maximal same-script
    spans: one script and at least one position each, neighbours of
    different script, and, read in the order [visual], the positions of the
    bidi run from the first to the last. *)
Definition script_spans_of (scripts : list hb_script_t) (r : FriBidiRun)
    (visual : list raqm_run_t) : Prop :=
  flat_map run_positions visual = bidi_positions r /\
  Forall (fun run => 1 <= run_len run /\ uniform_script scripts run) visual /\
  adjacent_differ visual.

(** The [max_level] that [_raqm_itemize] tests: 0 for a TTB paragraph,
    else what [fribidi_get_par_embedding_levels] returns. *)
Definition itemize_max_level `{Collaborators} (rq : raqm_t) : Z :=
  let '(max_level, _, _, _) := itemize_bidi rq in max_level.

(** A context with another feature array. *)
Definition set_features (rq : raqm_t) (features' : list hb_feature_t) : raqm_t :=
  {| ref_count := ref_count rq;
     text := text rq;
     base_dir := base_dir rq;
     features := features';
     scripts := scripts rq;
     font := font rq;
     runs := runs rq;
     glyphs := glyphs rq |}.

(** A context with another reference count. *)
Definition set_ref_count (rq : raqm_t) (count : Z) : raqm_t :=
  {| ref_count := count;
     text := text rq;
     base_dir := base_dir rq;
     features := features rq;
     scripts := scripts rq;
     font := font rq;
     runs := runs rq;
     glyphs := glyphs rq |}.

(** The glyph records of a shape run as the shaper fills its buffer from
    the font, the text and the features of [rq]. *)
Definition shaped_glyphs `{Collaborators} (rq : raqm_t) (run : raqm_run_t)
    : list raqm_glyph_t :=
  map glyph_of
    (snd (hb_shape_full (font rq) (text rq) (run_pos run) (run_len run)
            (run_script run) (run_direction run) (features rq))).

(** The context that [raqm_shape_u32] has built when it calls
    [raqm_layout], for a text that is not empty: new, with the first [len]
    scalars of the text, the direction, a font for the face, and the
    features of the strings that the parser accepts. *)
Definition shape_u32_context `{Collaborators} (text' : list Z) (len : Z)
    (face : FT_Face) (direction : raqm_direction_t)
    (features' : option (list string)) : raqm_t :=
  {| ref_count := 1;
     text := take (Z.to_nat len) text';
     base_dir := direction;
     features := match features' with
                 | Some fs => omap (fun p => hb_feature_from_string p (-1)) fs
                 | None => []
                 end;
     scripts := None;
     font := Some (hb_ft_font face);
     runs := [];
     glyphs := None |}.

(** ** Sample inputs *)

Module SampleInputs.
Import Sample.

(** "abc", three Arabic letters, "xyz". *)
Definition mixed : raqm_t :=
  context [0x61; 0x62; 0x63; 0x627; 0x644; 0x633; 0x78; 0x79; 0x7a]
    RAQM_DIRECTION_LTR.

(** Two Arabic letters, "(a)", an Arabic letter. *)
Definition bracketed : list Z := [0x627; 0x644; 0x28; 0x61; 0x29; 0x645].

(** "(a(", a Greek letter, ")". *)
Definition nested : list Z := [0x28; 0x61; 0x28; 0x3b1; 0x29].

(** "a", a Greek letter, "b", top to bottom. *)
Definition vertical : raqm_t :=
  context [0x61; 0x3b1; 0x62] RAQM_DIRECTION_TTB.

(** The context a layout leaves. *)
Definition laid_out `{Collaborators} (rq : raqm_t) : raqm_t :=
  match raqm_layout (Some rq) with
  | Done (_, Some rq') => rq'
  | _ => rq
  end.

(** The context a successful itemization leaves. *)
Definition itemized `{Collaborators} (rq : raqm_t) : raqm_t :=
  match _raqm_itemize rq with
  | Done (_, rq') => rq'
  | Fault => rq
  end.

(** Position, length, direction and script of the runs of a context. *)
Definition summary (rq : raqm_t) : list (Z * Z * hb_direction_t * hb_script_t) :=
  map (fun run => (run_pos run, run_len run, run_direction run, run_script run))
    (runs rq).

(** "a", an Arabic letter, a Hiragana letter, an emoji, "b" in UTF-8. *)
Definition utf8_text : list Z :=
  utf8_encode [0x61; 0x627; 0x3042; 0x1f600; 0x62].

(** A stack of capacity 5 after "(", "<" and "(" have been pushed in
    Latin, Greek and Latin text. *)
Definition three_openers : raqm_stack_t :=
  {| stack_capacity := 5;
     stack_size := 3;
     stack_pair_index := [None; Some 0; Some 2; Some 0; None];
     stack_scripts := [None; Some HB_SCRIPT_LATIN; Some HB_SCRIPT_GREEK;
                       Some HB_SCRIPT_LATIN; None] |}.

(** A stack of capacity 3 after "(" has been pushed in Latin text. *)
Definition one_opener : raqm_stack_t :=
  {| stack_capacity := 3;
     stack_size := 1;
     stack_pair_index := [None; Some 0; None];
     stack_scripts := [None; Some HB_SCRIPT_LATIN; None] |}.

(** The scripts of two Arabic letters, two Latin letters and an Arabic
    letter, and the bidi run of level 1 over all five. *)
Definition arabic_latin_arabic : list hb_script_t :=
  [HB_SCRIPT_ARABIC; HB_SCRIPT_ARABIC; HB_SCRIPT_LATIN; HB_SCRIPT_LATIN;
   HB_SCRIPT_ARABIC].

Definition odd_run : FriBidiRun := mk_bidi_run 0 5 1.

(** The mixed paragraph after its layout, with the base direction set to
    RTL afterwards. *)
Definition redirected : raqm_t :=
  match raqm_set_par_direction (Some (laid_out mixed)) RAQM_DIRECTION_RTL with
  | Some rq => rq
  | None => mixed
  end.

(** The text of the mixed paragraph, and two feature strings of which
    the sample parser accepts the first. *)
Definition mixed_text : list Z :=
  [0x61; 0x62; 0x63; 0x627; 0x644; 0x633; 0x78; 0x79; 0x7a].

Definition two_features : list string := ["liga"%string; "x"%string].

(** The mixed paragraph after its layout, with two Arabic letters set as
    the text afterwards. *)
Definition shortened : raqm_t :=
  match raqm_set_text (Some (laid_out mixed)) [0x627; 0x644] 2 with
  | Done (Some rq) => rq
  | _ => mixed
  end.

(** The mixed paragraph after its layout, with the base direction set to
    TTB afterwards. *)
Definition turned : raqm_t :=
  match raqm_set_par_direction (Some (laid_out mixed)) RAQM_DIRECTION_TTB with
  | Some rq => rq
  | None => mixed
  end.

(** The Arabic run of the mixed paragraph, as itemization links it. *)
Definition arabic_run : raqm_run_t :=
  {| run_pos := 3;
     run_len := 3;
     run_direction := HB_DIRECTION_RTL;
     run_script := HB_SCRIPT_ARABIC;
     run_font := None;
     run_buffer := None |}.
End SampleInputs.

(** * Properties *)

(** ** Outcomes, loops and arrays *)

Lemma bind_done {A B : Type} (m : exec A) (k : A -> exec B) (b : B) :
  bind m k = Done b -> exists a, m = Done a /\ k a = Done b.
Proof. destruct m as [a|]; simpl; [eauto | discriminate]. Qed.

Lemma load_done {A : Type} (arr : list A) (i : nat) (v : A) :
  load arr i = Done v <-> arr !! i = Some v.
Proof.
  unfold load. destruct (arr !! i); split; intros E; congruence.
Qed.

Lemma load_lookup {A : Type} (arr : list A) (i : nat) (v : A) :
  arr !! i = Some v -> load arr i = Done v.
Proof. apply load_done. Qed.

Lemma store_done {A : Type} (arr : list A) (i : nat) (v : A) :
  (i < length arr)%nat -> store arr i v = Done (<[i:=v]> arr).
Proof. intros Hi. unfold store. destruct (decide _); [done | lia]. Qed.

Lemma store_inv {A : Type} (arr arr' : list A) (i : nat) (v : A) :
  store arr i v = Done arr' -> (i < length arr)%nat /\ arr' = <[i:=v]> arr.
Proof. unfold store. destruct (decide _); intros E; [by inversion E | discriminate]. Qed.

Lemma for_loop_app {S : Type} (body : nat -> S -> exec S) (a b lo : nat) (s : S) :
  for_loop body lo (a + b) s =
  bind (for_loop body lo a s) (fun s' => for_loop body (lo + a) b s').
Proof.
  revert lo s. induction a as [|a IH]; intros lo s; simpl.
  - by rewrite Nat.add_0_r.
  - destruct (body lo s) as [s'|]; simpl; [|done].
    rewrite IH. by replace (Datatypes.S lo + a)%nat with (lo + Datatypes.S a)%nat by lia.
Qed.

(** Hoare rule of the counted loop. *)
Lemma for_loop_inv {S : Type} (I : nat -> S -> Prop) (body : nat -> S -> exec S)
    (lo count : nat) (s : S) :
  I lo s ->
  (forall i t, (lo <= i < lo + count)%nat -> I i t ->
     exists t', body i t = Done t' /\ I (Datatypes.S i) t') ->
  exists s', for_loop body lo count s = Done s' /\ I (lo + count)%nat s'.
Proof.
  revert lo s. induction count as [|c IH]; intros lo s H0 Hstep; simpl.
  - exists s. by rewrite Nat.add_0_r.
  - destruct (Hstep lo s) as (t' & -> & Ht'); [lia | done |]. simpl.
    destruct (IH (Datatypes.S lo) t') as (s' & -> & Hs'); [done | |].
    + intros i t Hi. apply Hstep. lia.
    + exists s'. split; [done|]. by replace (lo + Datatypes.S c)%nat with (Datatypes.S lo + c)%nat by lia.
Qed.

Lemma int_of_size_t_le (n : Z) : 0 <= n -> int_of_size_t n <= n.
Proof.
  intros Hn. unfold int_of_size_t.
  pose proof (Z.mod_le n 4294967296 Hn ltac:(lia)).
  destruct (_ <? _); lia.
Qed.

Lemma int_of_size_t_id (n : Z) : 0 <= n <= INT_MAX -> int_of_size_t n = n.
Proof.
  unfold INT_MAX, int_of_size_t. intros Hn.
  rewrite Z.mod_small by lia.
  destruct (n <? 2147483648) eqn:E; [done | lia].
Qed.

(** ** The rounds of script resolution *)

Section StepEquations.
Variable text : list Z.

(** A round that takes the last branch: nothing is back-filled, because
    [last_set_index + 1] is already [i]. *)
Lemma step_concrete (i : nat) (st : resolve_state) (s : hb_script_t) :
  rs_scripts st !! i = Some s ->
  last_set_index st = Z.of_nat i - 1 ->
  (s =? HB_SCRIPT_COMMON) && negb (last_script_index st =? -1) = false ->
  (s =? HB_SCRIPT_INHERITED) && negb (last_script_index st =? -1) = false ->
  resolve_step text i st =
  Done {| rs_scripts := rs_scripts st;
          last_script_index := Z.of_nat i;
          last_set_index := Z.of_nat i;
          last_script_value := s;
          rs_stack := rs_stack st |}.
Proof.
  intros Hs Hset Hc Hi. unfold resolve_step.
  rewrite (load_lookup _ _ _ Hs). cbn [bind]. rewrite Hc, Hi.
  replace (Z.to_nat (Z.of_nat i - (last_set_index st + 1))) with 0%nat by lia.
  simpl. by rewrite (load_lookup _ _ _ Hs).
Qed.

Lemma set_script_eq (i : nat) (st : resolve_state) (v : hb_script_t) :
  (i < length (rs_scripts st))%nat ->
  set_script st i v =
  Done {| rs_scripts := <[i:=v]> (rs_scripts st);
          last_script_index := last_script_index st;
          last_set_index := Z.of_nat i;
          last_script_value := last_script_value st;
          rs_stack := rs_stack st |}.
Proof. intros Hi. unfold set_script. by rewrite store_done. Qed.

(** A Common scalar that is no paired character, after the first round. *)
Lemma step_common_plain (i : nat) (st : resolve_state) (ch : Z) :
  rs_scripts st !! i = Some HB_SCRIPT_COMMON ->
  last_script_index st <> -1 ->
  text !! i = Some ch ->
  get_pair_index ch < 0 ->
  resolve_step text i st =
  Done {| rs_scripts := <[i:=last_script_value st]> (rs_scripts st);
          last_script_index := last_script_index st;
          last_set_index := Z.of_nat i;
          last_script_value := last_script_value st;
          rs_stack := rs_stack st |}.
Proof.
  intros Hs Hidx Hch Hpi. unfold resolve_step.
  rewrite (load_lookup _ _ _ Hs). cbn [bind].
  rewrite Z.eqb_refl. destruct (last_script_index st =? -1) eqn:E; [lia|]. cbn [negb andb].
  rewrite (load_lookup _ _ _ Hch). cbn [bind].
  destruct (0 <=? get_pair_index ch) eqn:E2; [lia|].
  apply set_script_eq. by eapply lookup_lt_Some.
Qed.

Lemma step_inherited (i : nat) (st : resolve_state) :
  rs_scripts st !! i = Some HB_SCRIPT_INHERITED ->
  last_script_index st <> -1 ->
  resolve_step text i st =
  Done {| rs_scripts := <[i:=last_script_value st]> (rs_scripts st);
          last_script_index := last_script_index st;
          last_set_index := Z.of_nat i;
          last_script_value := last_script_value st;
          rs_stack := rs_stack st |}.
Proof.
  intros Hs Hidx. unfold resolve_step.
  rewrite (load_lookup _ _ _ Hs). cbn [bind].
  replace (HB_SCRIPT_INHERITED =? HB_SCRIPT_COMMON) with false by (by vm_compute).
  rewrite Z.eqb_refl. destruct (last_script_index st =? -1) eqn:E; [lia|]. cbn [negb andb].
  apply set_script_eq. by eapply lookup_lt_Some.
Qed.

(** An opening paired character, after the first round, with room on
    the stack. *)
Lemma step_opener (i : nat) (st : resolve_state) (ch : Z) :
  rs_scripts st !! i = Some HB_SCRIPT_COMMON ->
  last_script_index st <> -1 ->
  text !! i = Some ch ->
  is_opener ch ->
  (Datatypes.S (stack_size (rs_stack st)) < length (stack_scripts (rs_stack st)))%nat ->
  (Datatypes.S (stack_size (rs_stack st)) < length (stack_pair_index (rs_stack st)))%nat ->
  stack_size (rs_stack st) <> stack_capacity (rs_stack st) ->
  resolve_step text i st =
  Done {| rs_scripts := <[i:=last_script_value st]> (rs_scripts st);
          last_script_index := last_script_index st;
          last_set_index := Z.of_nat i;
          last_script_value := last_script_value st;
          rs_stack :=
            {| stack_capacity := stack_capacity (rs_stack st);
               stack_size := Datatypes.S (stack_size (rs_stack st));
               stack_pair_index :=
                 <[Datatypes.S (stack_size (rs_stack st)) := Some (get_pair_index ch)]>
                   (stack_pair_index (rs_stack st));
               stack_scripts :=
                 <[Datatypes.S (stack_size (rs_stack st)) := Some (last_script_value st)]>
                   (stack_scripts (rs_stack st)) |} |}.
Proof.
  intros Hs Hidx Hch [Hpi Hopen] Hls Hlp Hcap. unfold resolve_step.
  rewrite (load_lookup _ _ _ Hs). cbn [bind].
  rewrite Z.eqb_refl. destruct (last_script_index st =? -1) eqn:E; [lia|]. cbn [negb andb].
  rewrite (load_lookup _ _ _ Hch). cbn [bind].
  destruct (0 <=? get_pair_index ch) eqn:E2; [|lia]. rewrite Hopen.
  assert (Hlt : (i < length (rs_scripts st))%nat) by by eapply lookup_lt_Some.
  rewrite set_script_eq by done. simpl.
  rewrite (load_lookup _ _ (last_script_value st))
    by by apply list_lookup_insert_eq.
  simpl. unfold _raqm_stack_push.
  destruct (decide _) as [?|_]; [done|].
  rewrite !store_done by done. done.
Qed.

(** A closing paired character, after the first round: the stack is
    popped down to [stack'], and the top of what is left, if anything,
    gives the script. *)
Lemma step_closer (i : nat) (st : resolve_state) (ch : Z)
    (stack' : raqm_stack_t) :
  rs_scripts st !! i = Some HB_SCRIPT_COMMON ->
  last_script_index st <> -1 ->
  text !! i = Some ch ->
  is_closer ch ->
  pop_until_match (stack_size (rs_stack st)) (rs_stack st)
    (Z.land (get_pair_index ch) (Z.lnot 1)) = Done stack' ->
  forall v : hb_script_t,
  (if decide (stack_size stack' = 0%nat) then v = last_script_value st
   else stack_scripts stack' !! stack_size stack' = Some (Some v)) ->
  resolve_step text i st =
  Done {| rs_scripts := <[i:=v]> (rs_scripts st);
          last_script_index := last_script_index st;
          last_set_index := Z.of_nat i;
          last_script_value := v;
          rs_stack := stack' |}.
Proof.
  intros Hs Hidx Hch [Hpi Hopen] Hpop v Hv. unfold resolve_step.
  rewrite (load_lookup _ _ _ Hs). cbn [bind].
  rewrite Z.eqb_refl. destruct (last_script_index st =? -1) eqn:E; [lia|]. cbn [negb andb].
  rewrite (load_lookup _ _ _ Hch). cbn [bind].
  destruct (0 <=? get_pair_index ch) eqn:E2; [|lia]. rewrite Hopen, Hpop. cbn [bind].
  assert (Hlt : (i < length (rs_scripts st))%nat) by by eapply lookup_lt_Some.
  unfold STACK_IS_NOT_EMPTY, STACK_IS_EMPTY.
  destruct (decide (stack_size stack' = 0%nat)) as [Hz|Hne].
  - subst v. rewrite bool_decide_eq_true_2 by lia. cbn [negb].
    rewrite store_done by done. done.
  - rewrite bool_decide_eq_false_2 by lia. cbn [negb].
    unfold _raqm_stack_top. rewrite decide_False by done.
    unfold load_init. rewrite Hv. cbn [bind]. rewrite store_done by done. cbn [bind].
    rewrite (load_lookup _ _ v) by by apply list_lookup_insert_eq.
    done.
Qed.
End StepEquations.

Lemma pop_until_match_done (fuel : nat) (stack : raqm_stack_t) (pi : Z) :
  (stack_size stack <= fuel)%nat ->
  (forall m, (1 <= m <= stack_size stack)%nat ->
     exists p, stack_pair_index stack !! m = Some (Some p)) ->
  exists size',
    pop_until_match fuel stack pi =
      Done {| stack_capacity := stack_capacity stack;
              stack_size := size';
              stack_pair_index := stack_pair_index stack;
              stack_scripts := stack_scripts stack |} /\
    (size' <= stack_size stack)%nat /\
    (size' <> 0%nat -> stack_pair_index stack !! size' = Some (Some pi)).
Proof.
  revert stack. induction fuel as [|fuel IH]; intros stack Hfuel Hcells.
  - exists 0%nat. simpl. destruct stack as [cap sz pis scs]. simpl in *.
    replace sz with 0%nat by lia. split; [done|]. split; [lia | done].
  - simpl. unfold STACK_IS_NOT_EMPTY, STACK_IS_EMPTY.
    destruct (decide (stack_size stack = 0%nat)) as [Hz|Hnz].
    + rewrite bool_decide_eq_true_2 by lia. cbn [negb].
      exists 0%nat. destruct stack as [cap sz pis scs]. simpl in *. subst sz.
      split; [done|]. split; [lia | done].
    + rewrite bool_decide_eq_false_2 by lia. cbn [negb].
      destruct (Hcells (stack_size stack)) as [p Hp]; [lia|].
      unfold load_init. rewrite Hp. cbn [bind].
      destruct (p =? pi) eqn:E; cbn [negb].
      * exists (stack_size stack). apply Z.eqb_eq in E. subst p.
        destruct stack as [cap sz pis scs]. simpl in *.
        split; [done|]. split; [lia | done].
      * unfold _raqm_stack_pop. rewrite decide_False by done. cbn [snd].
        destruct (IH {| stack_capacity := stack_capacity stack;
                        stack_size := Nat.pred (stack_size stack);
                        stack_pair_index := stack_pair_index stack;
                        stack_scripts := stack_scripts stack |})
          as (size' & Hloop & Hle & Htop).
        { simpl. lia. }
        { simpl. intros m Hm. apply Hcells. lia. }
        simpl in *. exists size'. split; [done|]. split; [lia | done].
Qed.

Section WalkInvariant.
Context `{Collaborators}.
Variable text : list Z.

Lemma walk_inv_init : walk_inv text 0 (resolve_init text).
Proof.
  split; simpl; try done.
  - unfold initial_scripts. by rewrite length_map.
  - by rewrite length_replicate.
  - by rewrite length_replicate.
  - intros m Hm. lia.
Qed.

Lemma common_ne_inherited : HB_SCRIPT_COMMON <> HB_SCRIPT_INHERITED.
Proof. by vm_compute. Qed.

Lemma resolve_step_inv (k : nat) (st : resolve_state) :
  walk_inv text k st -> (k < length text)%nat ->
  exists st', resolve_step text k st = Done st' /\
    walk_inv text (S k) st' /\ step_post text k st st'.
Proof.
  intros [Hlen Hrest Hset Hidx Hval Hcap Hlpi Hlsc Hsize Hcells] Hk.
  destruct (lookup_lt_is_Some_2 text k Hk) as [ch Hch].
  assert (Hinit : initial_scripts text !! k = Some (hb_unicode_script ch)).
  { unfold initial_scripts. by rewrite list_lookup_fmap, Hch. }
  assert (Hs : rs_scripts st !! k = Some (hb_unicode_script ch)).
  { by rewrite Hrest. }
  set (s := hb_unicode_script ch) in *.
  assert (Hlt : (k < length (rs_scripts st))%nat) by lia.
  (* the three ways a round can go *)
  destruct (decide (k = 0%nat \/ (s <> HB_SCRIPT_COMMON /\ s <> HB_SCRIPT_INHERITED)))
    as [Hlast|Hnot].
  - (* last branch *)
    eexists. split.
    { apply (step_concrete text k st s Hs Hset).
      - destruct Hlast as [->|[Hc _]].
        + replace (last_script_index st) with (-1) by (symmetry; by apply Hidx).
          simpl. apply andb_false_r.
        + apply andb_false_iff. left. by apply Z.eqb_neq.
      - destruct Hlast as [->|[_ Hi]].
        + replace (last_script_index st) with (-1) by (symmetry; by apply Hidx).
          simpl. apply andb_false_r.
        + apply andb_false_iff. left. by apply Z.eqb_neq. }
    split; [split; simpl|split; simpl].
    + done.
    + intros j Hj. apply Hrest. lia.
    + lia.
    + split; [lia | intros; lia].
    + intros j [= <-]. exact Hs.
    + done.
    + done.
    + done.
    + lia.
    + intros m Hm. destruct (Hcells m Hm) as (p & s' & j & ch' & ? & ? & ? & ? & ? & ? & ?).
      exists p, s', j, ch'. split_and!; first [assumption | lia].
    + done.
    + intros _. by rewrite Hs, Hinit.
    + intros s' Hs' _ _. rewrite Hinit in Hs'. by inversion Hs'.
    + intros s' ch' Hpos Hs' Hch' Hcase. rewrite Hinit in Hs'. inversion Hs'; subst s'.
      destruct Hlast as [->|[Hc Hi]]; [lia|]. destruct Hcase as [?|[? _]]; done.
    + intros ch' Hpos Hs' _ _. rewrite Hinit in Hs'. inversion Hs' as [Hs''].
      destruct Hlast as [->|[Hc Hi]]; [lia | done].
  - assert (Hpos : (0 < k)%nat) by (destruct k; [exfalso; apply Hnot; by left | lia]).
    assert (Hidx' : last_script_index st <> -1) by (rewrite Hidx; lia).
    assert (Hprev : rs_scripts st !! Nat.pred k = Some (last_script_value st)).
    { apply Hval. lia. }
    assert (Hframe : forall v j, j <> k -> <[k:=v]> (rs_scripts st) !! j = rs_scripts st !! j).
    { intros v j Hj. by apply list_lookup_insert_ne. }
    assert (Hcells' : forall v m, (1 <= m <= stack_size (rs_stack st))%nat ->
      exists p s' j ch',
        stack_pair_index (rs_stack st) !! m = Some (Some p) /\
        stack_scripts (rs_stack st) !! m = Some (Some s') /\
        (j < S k)%nat /\ text !! j = Some ch' /\
        get_pair_index ch' = p /\ is_opener ch' /\
        <[k:=v]> (rs_scripts st) !! j = Some s').
    { intros v m Hm. destruct (Hcells m Hm) as (p & s' & j & ch' & ? & ? & ? & ? & ? & ? & ?).
      exists p, s', j, ch'. split_and!; first [assumption | lia | idtac].
      rewrite list_lookup_insert_ne by lia. assumption. }
    assert (Hcommon : forall v,
      length (<[k:=v]> (rs_scripts st)) = length text /\
      (forall j, (S k <= j)%nat ->
         <[k:=v]> (rs_scripts st) !! j = initial_scripts text !! j) /\
      (last_script_index st = -1 <-> S k = 0%nat) /\
      (forall j, S k = S j -> <[k:=v]> (rs_scripts st) !! j = Some v)).
    { intros v. split_and!.
      - by rewrite length_insert.
      - intros j Hj. rewrite list_lookup_insert_ne by lia. apply Hrest. lia.
      - split; [intros; contradiction | lia].
      - intros j [= <-]. by apply list_lookup_insert_eq. }
    destruct (decide (s = HB_SCRIPT_INHERITED)) as [Hinh|Hninh].
    + (* Inherited *)
      rewrite Hinh in Hs.
      destruct (Hcommon (last_script_value st)) as (C1 & C2 & C3 & C4).
      eexists. split; [by apply step_inherited|].
      split; [split; simpl|split; simpl].
      * exact C1.
      * exact C2.
      * lia.
      * exact C3.
      * exact C4.
      * exact Hcap.
      * exact Hlpi.
      * exact Hlsc.
      * lia.
      * apply Hcells'.
      * apply Hframe.
      * lia.
      * intros s' Hs' _ Hi'. rewrite Hinit, Hinh in Hs'. by inversion Hs'.
      * intros. by apply list_lookup_insert_eq.
      * intros ch' _ Hs' _ _. rewrite Hinit, Hinh in Hs'.
        exfalso. apply common_ne_inherited. congruence.
    + assert (Hcom : s = HB_SCRIPT_COMMON).
      { destruct (decide (s = HB_SCRIPT_COMMON)); [done|]. exfalso. apply Hnot. by right. }
      rewrite Hcom in Hs.
      destruct (decide (get_pair_index ch < 0)) as [Hneg|Hbr].
      { (* no paired character *)
        destruct (Hcommon (last_script_value st)) as (C1 & C2 & C3 & C4).
        eexists. split; [by eapply step_common_plain|].
        split; [split; simpl|split; simpl].
        * exact C1.
        * exact C2.
        * lia.
        * exact C3.
        * exact C4.
        * exact Hcap.
        * exact Hlpi.
        * exact Hlsc.
        * lia.
        * apply Hcells'.
        * apply Hframe.
        * lia.
        * intros s' Hs' Hc' _. rewrite Hinit, Hcom in Hs'. by inversion Hs'.
        * intros. by apply list_lookup_insert_eq.
        * intros ch' _ _ Hch' [Hge _]. rewrite Hch in Hch'. inversion Hch'; subst ch'. lia. }
      destruct (IS_OPEN (get_pair_index ch)) eqn:Hopen.
      { (* opener *)
        assert (Hop : is_opener ch) by (split; [lia | done]).
        destruct (Hcommon (last_script_value st)) as (C1 & C2 & C3 & C4).
        eexists. split.
        { eapply step_opener; try done; lia. }
        split; [split; simpl|split; simpl].
        * exact C1.
        * exact C2.
        * lia.
        * exact C3.
        * exact C4.
        * exact Hcap.
        * by rewrite length_insert.
        * by rewrite length_insert.
        * lia.
        * intros m Hm.
          destruct (decide (m = S (stack_size (rs_stack st)))) as [->|Hm'].
          -- exists (get_pair_index ch), (last_script_value st), k, ch.
             rewrite !list_lookup_insert_eq by lia. split_and!; first [done | lia].
          -- destruct (Hcells' (last_script_value st) m) as (p & s' & j & ch' & ? & ? & ? & ? & ? & ? & ?);
               [lia|].
             exists p, s', j, ch'. rewrite !list_lookup_insert_ne by lia. done.
        * apply Hframe.
        * lia.
        * intros s' Hs' Hc' _. rewrite Hinit, Hcom in Hs'. by inversion Hs'.
        * intros. by apply list_lookup_insert_eq.
        * intros ch' _ _ Hch' [_ Hcl]. rewrite Hch in Hch'. inversion Hch'; subst ch'. congruence. }
      (* closer *)
      assert (Hcl : is_closer ch) by (split; [lia | done]).
      destruct (pop_until_match_done (stack_size (rs_stack st)) (rs_stack st)
                  (Z.land (get_pair_index ch) (Z.lnot 1)))
        as (size' & Hpop & Hle & Htop).
      { done. }
      { intros m Hm. destruct (Hcells m Hm) as (p & ? & ? & ? & ? & _). by exists p. }
      assert (Hv : exists v,
        (if decide (size' = 0%nat) then v = last_script_value st
         else stack_scripts (rs_stack st) !! size' = Some (Some v)) /\
        (v = last_script_value st \/
         exists j ch' , (j < k)%nat /\ text !! j = Some ch' /\
           get_pair_index ch' = Z.land (get_pair_index ch) (Z.lnot 1) /\
           rs_scripts st !! j = Some v)).
      { destruct (decide (size' = 0%nat)) as [->|Hne].
        - exists (last_script_value st). split; [done | by left].
        - destruct (Hcells size') as (p & s' & j & ch' & Hp & Hs' & Hj & Hch' & Hpi & _ & Hsj); [lia|].
          exists s'. split; [done|]. right. exists j, ch'.
          rewrite (Htop Hne) in Hp. inversion Hp; subst p. done. }
      destruct Hv as (v & Hv & Hwhich).
      destruct (Hcommon v) as (C1 & C2 & C3 & C4).
      eexists. split; [by eapply (step_closer text k st ch _ Hs Hidx' Hch Hcl Hpop v)|].
      split; [split; simpl|split; simpl].
      * exact C1.
      * exact C2.
      * lia.
      * exact C3.
      * exact C4.
      * exact Hcap.
      * exact Hlpi.
      * exact Hlsc.
      * lia.
      * intros m Hm. apply Hcells'. lia.
      * apply Hframe.
      * lia.
      * intros s' Hs' Hc' _. rewrite Hinit, Hcom in Hs'. by inversion Hs'.
      * intros s' ch' _ Hs' Hch' [Hi'|[_ Hncl]].
        -- rewrite Hinit, Hcom in Hs'.
           exfalso. apply common_ne_inherited. congruence.
        -- rewrite Hch in Hch'. inversion Hch'; subst ch'. done.
      * intros ch' _ _ Hch' _. rewrite Hch in Hch'. inversion Hch'; subst ch'.
        rewrite list_lookup_insert_eq by done.
        destruct Hwhich as [->|(j & ch'' & ? & ? & ? & ?)]; [by left|].
        right. exists j, ch'', v. done.
Qed.
End WalkInvariant.

Section WalkFacts.
Context `{Collaborators}.
Variable text : list Z.

Lemma resolve_walk_S (k : nat) :
  resolve_walk text (S k) =
  bind (resolve_walk text k) (resolve_step text k).
Proof.
  unfold resolve_walk. replace (S k) with (k + 1)%nat by lia.
  rewrite for_loop_app. simpl.
  destruct (for_loop _ 0 k _) as [st|]; simpl; [|done].
  by destruct (resolve_step text k st).
Qed.

(** The walk runs through every round without a fault and keeps the
    invariant. *)
Lemma resolve_walk_inv (k : nat) :
  (k <= length text)%nat ->
  exists st, resolve_walk text k = Done st /\ walk_inv text k st.
Proof.
  intros Hk. unfold resolve_walk.
  destruct (for_loop_inv (walk_inv text) (resolve_step text) 0 k (resolve_init text))
    as (st & Hst & Hinv).
  - apply walk_inv_init.
  - intros i t Hi Hinv. destruct (resolve_step_inv text i t Hinv) as (t' & ? & ? & _); [lia|].
    by exists t'.
  - by exists st.
Qed.

(** Once a round is over, later rounds leave its position alone. *)
Lemma resolve_walk_prefix (k n : nat) (st_k st_n : resolve_state) :
  (k <= n <= length text)%nat ->
  resolve_walk text k = Done st_k ->
  resolve_walk text n = Done st_n ->
  forall j, (j < k)%nat -> rs_scripts st_n !! j = rs_scripts st_k !! j.
Proof.
  intros [Hkn Hn]. revert st_n. induction n as [|n IH]; intros st_n Hk Hwn j Hj.
  - lia.
  - destruct (decide (k = S n)) as [->|Hne].
    + congruence.
    + destruct (resolve_walk_inv n) as (st & Hst & Hinv); [lia|].
      rewrite resolve_walk_S, Hst in Hwn. simpl in Hwn.
      destruct (resolve_step_inv text n st Hinv) as (st' & Hstep & _ & Hpost); [lia|].
      rewrite Hstep in Hwn. inversion Hwn; subst st'.
      rewrite (post_frame _ _ _ _ Hpost) by lia.
      apply IH; [lia | lia | done | done | done].
Qed.

Lemma resolved_scripts_walk :
  Z.of_nat (length text) <= INT_MAX ->
  resolved_scripts text =
  bind (resolve_walk text (length text)) (fun st => Done (rs_scripts st)).
Proof.
  intros Hmax. unfold resolved_scripts.
  rewrite int_of_size_t_id by lia. by rewrite Nat2Z.id.
Qed.

Lemma loop_count_le :
  (Z.to_nat (int_of_size_t (Z.of_nat (length text))) <= length text)%nat.
Proof.
  pose proof (int_of_size_t_le (Z.of_nat (length text)) ltac:(lia)). lia.
Qed.

Lemma resolved_scripts_done :
  exists final, resolved_scripts text = Done final /\
    length final = length text.
Proof.
  destruct (resolve_walk_inv (Z.to_nat (int_of_size_t (Z.of_nat (length text)))))
    as (st & Hst & Hinv); [apply loop_count_le|].
  exists (rs_scripts st). unfold resolved_scripts. rewrite Hst. simpl.
  split; [done | apply Hinv].
Qed.

(** The back-fill loop of the last branch never runs a round: at the
    entry of round [k] the index [last_set_index + 1] is already [k]. *)
Lemma backfill_never_runs (k : nat) (st : resolve_state) :
  (k <= length text)%nat ->
  resolve_walk text k = Done st ->
  Z.to_nat (Z.of_nat k - (last_set_index st + 1)) = 0%nat.
Proof.
  intros Hk Hwalk. destruct (resolve_walk_inv k Hk) as (st' & Hst' & Hinv).
  rewrite Hwalk in Hst'. inversion Hst'; subst st'.
  rewrite (inv_set _ _ _ Hinv). lia.
Qed.
End WalkFacts.

(** ** The bracket stack and the propagation of scripts *)

Lemma stack_push_full (stack : raqm_stack_t) (script : hb_script_t) (pi : Z) :
  stack_size stack = stack_capacity stack ->
  _raqm_stack_push stack script pi = Done (false, stack).
Proof. intros Hfull. unfold _raqm_stack_push. by rewrite decide_True. Qed.

Lemma stack_push_room (stack : raqm_stack_t) (script : hb_script_t) (pi : Z) :
  stack_size stack <> stack_capacity stack ->
  (S (stack_size stack) < length (stack_scripts stack))%nat ->
  (S (stack_size stack) < length (stack_pair_index stack))%nat ->
  exists stack', _raqm_stack_push stack script pi = Done (true, stack') /\
    stack_size stack' = S (stack_size stack) /\
    stack_capacity stack' = stack_capacity stack /\
    stack_scripts stack' = <[S (stack_size stack) := Some script]> (stack_scripts stack) /\
    stack_pair_index stack' = <[S (stack_size stack) := Some pi]> (stack_pair_index stack).
Proof.
  intros Hroom Hs Hp. unfold _raqm_stack_push. rewrite decide_False by done.
  rewrite !store_done by done. simpl. eexists. split; [done|]. done.
Qed.

(** C8. For a paragraph of [N] scalars the bracket stack made with
    capacity [N] never overflows: the walk runs through all its rounds
    without an access outside of an array; round 0 leaves the stack as it
    was created; before every later round the stack has room, so that a
    push in that round stores its script and pair index at index
    [size + 1], which is less than [N]; and a push on a full stack changes
    nothing and returns false. *)
Theorem bracket_stack_never_overflows `{Collaborators} (text : list Z) :
  let N := length text in
  let rounds := Z.to_nat (int_of_size_t (Z.of_nat N)) in
  (exists final, resolved_scripts text = Done final) /\
  (forall k, (k <= rounds)%nat ->
     exists st, resolve_walk text k = Done st /\
       stack_capacity (rs_stack st) = N /\
       length (stack_scripts (rs_stack st)) = N /\
       length (stack_pair_index (rs_stack st)) = N /\
       (k <= 1 -> rs_stack st = _raqm_stack_new N)%nat /\
       (1 <= k < rounds ->
        forall script pi, exists stack',
          _raqm_stack_push (rs_stack st) script pi = Done (true, stack') /\
          stack_size stack' = S (stack_size (rs_stack st)) /\
          stack_size stack' < N /\
          stack_scripts stack' !! stack_size stack' = Some (Some script) /\
          stack_pair_index stack' !! stack_size stack' = Some (Some pi))%nat) /\
  (forall stack script pi,
     stack_size stack = stack_capacity stack ->
     _raqm_stack_push stack script pi = Done (false, stack)).
Proof.
  intros N rounds. split; [|split].
  - destruct (resolved_scripts_done text) as (final & ? & _). by exists final.
  - intros k Hk.
    assert (Hrounds : (rounds <= N)%nat) by apply loop_count_le.
    destruct (resolve_walk_inv text k) as (st & Hst & Hinv); [lia|].
    exists st. destruct Hinv. split_and!; try done.
    + intros Hk1. destruct k as [|[|k]]; [| |lia].
      * unfold resolve_walk in Hst. simpl in Hst. by inversion Hst.
      * rewrite resolve_walk_S in Hst. unfold resolve_walk in Hst at 1.
        simpl in Hst.
        destruct (resolve_step_inv text 0 (resolve_init text)) as (st' & Hstep & _ & Hpost).
        { apply walk_inv_init. } { lia. }
        rewrite Hstep in Hst. inversion Hst; subst st'.
        destruct (post_first _ _ _ _ Hpost) as [_ ->]; done.
    + intros Hk1 script pi.
      destruct (stack_push_room (rs_stack st) script pi) as (stack' & Hpush & Hsz & _ & Hsc & Hpi);
        [lia | lia | lia |].
      exists stack'. split_and!; [done | done | lia | |].
      * rewrite Hsc, Hsz. apply list_lookup_insert_eq. lia.
      * rewrite Hpi, Hsz. apply list_lookup_insert_eq. lia.
  - apply stack_push_full.
Qed.

(** C3, amended. After script resolution of a paragraph of at most
    [INT_MAX] scalars, a scalar at a position [i > 0] whose Unicode script
    is Inherited, or Common without being a closing paired character, has
    the resolved script of position [i - 1]; a Common closing paired
    character has either that script or the resolved script of an earlier
    position that holds the opening character of its pair. *)
Theorem common_inherited_take_previous `{Collaborators} (text : list Z) :
  Z.of_nat (length text) <= INT_MAX ->
  exists final, resolved_scripts text = Done final /\
    length final = length text /\
    forall i ch, (0 < i)%nat -> text !! i = Some ch ->
      (hb_unicode_script ch = HB_SCRIPT_INHERITED \/
       (hb_unicode_script ch = HB_SCRIPT_COMMON /\ ~ is_closer ch) ->
       final !! i = final !! Nat.pred i) /\
      (hb_unicode_script ch = HB_SCRIPT_COMMON -> is_closer ch ->
       final !! i = final !! Nat.pred i \/
       exists j ch', (j < i)%nat /\ text !! j = Some ch' /\
         get_pair_index ch' = Z.land (get_pair_index ch) (Z.lnot 1) /\
         final !! i = final !! j).
Proof.
  intros Hmax.
  destruct (resolve_walk_inv text (length text)) as (st_n & Hn & Hinv_n); [lia|].
  exists (rs_scripts st_n). rewrite resolved_scripts_walk, Hn by done. simpl.
  split; [done|]. split; [apply Hinv_n|].
  intros i ch Hi Hch.
  assert (Hlt : (i < length text)%nat) by by eapply lookup_lt_Some.
  destruct (resolve_walk_inv text i) as (st & Hst & Hinv); [lia|].
  destruct (resolve_step_inv text i st Hinv Hlt) as (st' & Hstep & Hinv' & Hpost).
  assert (Hst' : resolve_walk text (S i) = Done st').
  { by rewrite resolve_walk_S, Hst. }
  assert (Hprev : rs_scripts st_n !! Nat.pred i = Some (last_script_value st)).
  { rewrite (resolve_walk_prefix text i (length text) st st_n) by (done || lia).
    apply Hinv. lia. }
  assert (Hcur : rs_scripts st_n !! i = rs_scripts st' !! i).
  { apply (resolve_walk_prefix text (S i) (length text)); (done || lia). }
  assert (Hinit : initial_scripts text !! i = Some (hb_unicode_script ch)).
  { unfold initial_scripts. by rewrite list_lookup_fmap, Hch. }
  split.
  - intros Hcase. rewrite Hcur, Hprev.
    apply (post_previous _ _ _ _ Hpost (hb_unicode_script ch) ch); done.
  - intros Hcom Hcl. rewrite Hcom in Hinit.
    destruct (post_closer _ _ _ _ Hpost ch Hi Hinit Hch Hcl)
      as [Hv|(j & ch' & s & Hj & Hch' & Hpi & Hsj & Hsi)].
    + left. by rewrite Hcur, Hprev.
    + right. exists j, ch'. split_and!; try done.
      rewrite Hcur, Hsi.
      rewrite (resolve_walk_prefix text i (length text) st st_n) by (done || lia).
      done.
Qed.

(** The table holds the pairs at consecutive even and odd indices, and the
    binary search finds every entry at its index. *)
Lemma pair_family (n : nat) (open close : Z) :
  paired_chars !! (2 * n)%nat = Some open ->
  paired_chars !! (2 * n + 1)%nat = Some close ->
  is_opener open /\ is_closer close /\
  get_pair_index open = Z.of_nat (2 * n) /\
  Z.land (get_pair_index close) (Z.lnot 1) = Z.of_nat (2 * n).
Proof.
  intros Ho Hc.
  assert (Hn : (n < 17)%nat).
  { apply lookup_lt_Some in Hc. simpl in Hc. lia. }
  do 17 (destruct n as [|n];
    [ simpl in Ho, Hc; inversion Ho; inversion Hc; subst;
      unfold is_opener, is_closer; split_and!; by vm_compute |]).
  lia.
Qed.

Section ConcreteSegment.
Variable text : list Z.

(** Rounds over scalars of concrete script copy nothing and leave the
    stack alone. *)
Lemma for_loop_concrete (n lo : nat) (st : resolve_state) :
  (forall j, (lo <= j < lo + n)%nat -> exists s,
     rs_scripts st !! j = Some s /\
     s <> HB_SCRIPT_COMMON /\ s <> HB_SCRIPT_INHERITED) ->
  last_set_index st = Z.of_nat lo - 1 ->
  exists st', for_loop (resolve_step text) lo n st = Done st' /\
    rs_scripts st' = rs_scripts st /\
    rs_stack st' = rs_stack st /\
    last_set_index st' = Z.of_nat (lo + n) - 1 /\
    (last_script_index st <> -1 -> last_script_index st' <> -1) /\
    ((0 < n)%nat -> last_script_index st' <> -1 /\
       rs_scripts st !! Nat.pred (lo + n) = Some (last_script_value st')) /\
    (n = 0%nat -> st' = st).
Proof.
  revert lo st. induction n as [|n IH]; intros lo st Hseg Hset.
  - exists st. simpl. split_and!; try done; [lia | intros; lia].
  - destruct (Hseg lo) as (s & Hs & Hc & Hi); [lia|]. simpl.
    rewrite (step_concrete text lo st s Hs Hset).
    2: { apply andb_false_iff. left. by apply Z.eqb_neq. }
    2: { apply andb_false_iff. left. by apply Z.eqb_neq. }
    cbn [bind].
    destruct (IH (S lo) {| rs_scripts := rs_scripts st;
                           last_script_index := Z.of_nat lo;
                           last_set_index := Z.of_nat lo;
                           last_script_value := s;
                           rs_stack := rs_stack st |})
      as (st' & Hloop & Hsc & Hstk & Hset' & _ & Hpos & Hzero).
    { simpl. intros j Hj. apply Hseg. lia. }
    { simpl. lia. }
    exists st'. simpl in *.
    split_and!; try done.
    + rewrite Hset'. lia.
    + intros _. destruct n as [|n].
      * rewrite (Hzero eq_refl). simpl. lia.
      * apply Hpos. lia.
    + intros _. destruct n as [|n].
      * rewrite (Hzero eq_refl). simpl. split; [lia|].
        by replace (Nat.pred (lo + 1)) with lo by lia.
      * destruct Hpos as [Hp1 Hp2]; [lia|]. split; [done|].
        by replace (Nat.pred (lo + S (S n))) with (Nat.pred (S lo + S n)) by lia.
Qed.
End ConcreteSegment.

(** C2, amended. In a paragraph [pre · OPEN · t · CLOSE · post], where
    [OPEN], [CLOSE] are a pair of the table and have Common script, [pre]
    is not empty and all of script [X], [t] is all of script [F], both
    concrete, script resolution gives the script [X] of the text before
    the opener to the opener and to the closer. *)
Theorem bracket_pair_takes_preceding_script `{Collaborators}
    (n : nat) (open close : Z) (pre t post : list Z) (X F : hb_script_t) :
  paired_chars !! (2 * n)%nat = Some open ->
  paired_chars !! (2 * n + 1)%nat = Some close ->
  hb_unicode_script open = HB_SCRIPT_COMMON ->
  hb_unicode_script close = HB_SCRIPT_COMMON ->
  pre <> [] ->
  Forall (fun ch => hb_unicode_script ch = X) pre ->
  Forall (fun ch => hb_unicode_script ch = F) t ->
  X <> HB_SCRIPT_COMMON -> X <> HB_SCRIPT_INHERITED ->
  F <> HB_SCRIPT_COMMON -> F <> HB_SCRIPT_INHERITED ->
  Z.of_nat (length (pre ++ open :: t ++ close :: post)) <= INT_MAX ->
  exists final,
    resolved_scripts (pre ++ open :: t ++ close :: post) = Done final /\
    final !! length pre = Some X /\
    final !! (length pre + 1 + length t)%nat = Some X.
Proof.
  intros Ho Hc Hso Hsc Hpre HX HF HXc HXi HFc HFi Hmax.
  destruct (pair_family n open close Ho Hc) as (Hop & Hcl & Hpo & Hpc).
  set (text := pre ++ open :: t ++ close :: post) in *.
  set (a := length pre). set (b := length t).
  assert (Ha : (0 < a)%nat) by (subst a; destruct pre; [done | simpl; lia]).
  assert (HN : length text = (a + 1 + b + 1 + length post)%nat).
  { subst text a b. rewrite length_app. simpl. rewrite length_app. simpl. lia. }
  assert (Hta : text !! a = Some open).
  { subst text a. by rewrite list_lookup_middle. }
  assert (Htc : text !! (a + 1 + b)%nat = Some close).
  { subst text a b. rewrite lookup_app_r by lia.
    replace (length pre + 1 + length t - length pre)%nat with (S (length t)) by lia.
    simpl. by rewrite list_lookup_middle. }
  assert (Hinit_pre : forall j, (j < a)%nat -> initial_scripts text !! j = Some X).
  { intros j Hj. unfold initial_scripts. rewrite list_lookup_fmap.
    subst text a. rewrite lookup_app_l by done.
    destruct (lookup_lt_is_Some_2 pre j Hj) as [ch Hch]. rewrite Hch. simpl.
    f_equal. by eapply (proj1 (Forall_lookup _ _) HX). }
  assert (Hinit_t : forall j, (a + 1 <= j < a + 1 + b)%nat ->
    initial_scripts text !! j = Some F).
  { intros j Hj. unfold initial_scripts. rewrite list_lookup_fmap.
    subst text a b. rewrite lookup_app_r by lia.
    destruct (j - length pre)%nat as [|m] eqn:Em; [lia|]. simpl.
    rewrite lookup_app_l by lia.
    destruct (lookup_lt_is_Some_2 t m) as [ch Hch]; [lia|]. rewrite Hch. simpl.
    f_equal. by eapply (proj1 (Forall_lookup _ _) HF). }
  assert (Hinit_a : initial_scripts text !! a = Some HB_SCRIPT_COMMON).
  { unfold initial_scripts. by rewrite list_lookup_fmap, Hta, <- Hso. }
  assert (Hinit_c : initial_scripts text !! (a + 1 + b)%nat = Some HB_SCRIPT_COMMON).
  { unfold initial_scripts. by rewrite list_lookup_fmap, Htc, <- Hsc. }
  assert (Hlen_init : length (initial_scripts text) = length text).
  { unfold initial_scripts. by rewrite length_map. }
  (* rounds over [pre] *)
  destruct (for_loop_concrete text a 0 (resolve_init text))
    as (st1 & Hw1 & Hsc1 & Hstk1 & Hset1 & _ & Hpos1 & _).
  { intros j Hj. exists X. split; [apply Hinit_pre; lia | done]. }
  { done. }
  destruct (Hpos1 Ha) as [Hidx1 Hval1]. simpl in Hsc1, Hstk1, Hval1.
  rewrite Hinit_pre in Hval1 by lia. inversion Hval1 as [Hlsv1].
  (* the opener *)
  pose proof (step_opener text a st1 open) as Hstep2.
  rewrite Hsc1, Hstk1, <- Hlsv1 in Hstep2. simpl in Hstep2.
  rewrite !length_replicate in Hstep2.
  specialize (Hstep2 Hinit_a Hidx1 Hta Hop ltac:(lia) ltac:(lia) ltac:(lia)).
  set (st2 := {| rs_scripts := <[a:=X]> (initial_scripts text);
                 last_script_index := last_script_index st1;
                 last_set_index := Z.of_nat a;
                 last_script_value := X;
                 rs_stack := {| stack_capacity := length text; stack_size := 1;
                   stack_pair_index := <[1%nat:=Some (get_pair_index open)]>
                                         (replicate (length text) None);
                   stack_scripts := <[1%nat:=Some X]> (replicate (length text) None) |} |}) in *.
  (* rounds over [t] *)
  destruct (for_loop_concrete text b (a + 1) st2)
    as (st3 & Hw3 & Hsc3 & Hstk3 & Hset3 & Hidx3 & _ & _).
  { intros j Hj. exists F. split; [|done]. simpl.
    rewrite list_lookup_insert_ne by lia. apply Hinit_t. lia. }
  { simpl. lia. }
  specialize (Hidx3 Hidx1).
  (* the closer *)
  assert (Hpop : pop_until_match (stack_size (rs_stack st3)) (rs_stack st3)
                   (Z.land (get_pair_index close) (Z.lnot 1)) = Done (rs_stack st3)).
  { rewrite Hstk3. simpl. unfold load_init.
    rewrite list_lookup_insert_eq by (rewrite length_replicate; lia).
    cbn [bind]. by rewrite Hpc, Hpo, Z.eqb_refl. }
  pose proof (step_closer text (a + 1 + b) st3 close (rs_stack st3)) as Hstep4.
  rewrite Hsc3 in Hstep4. simpl in Hstep4.
  rewrite list_lookup_insert_ne in Hstep4 by lia.
  specialize (Hstep4 Hinit_c Hidx3 Htc Hcl Hpop X).
  assert (Htop : if decide (stack_size (rs_stack st3) = 0%nat)
                 then X = last_script_value st3
                 else stack_scripts (rs_stack st3) !! stack_size (rs_stack st3)
                      = Some (Some X)).
  { rewrite Hstk3. simpl. apply list_lookup_insert_eq.
    rewrite length_replicate. lia. }
  specialize (Hstep4 Htop).
  (* the walk up to the opener and up to the closer *)
  assert (Hwalk2 : resolve_walk text (a + 1) = Done st2).
  { unfold resolve_walk. rewrite for_loop_app, Hw1. simpl.
    replace (0 + a)%nat with a by lia. simpl. by rewrite Hstep2. }
  assert (Hwalk4 : exists st4, resolve_walk text (a + 1 + b + 1) = Done st4 /\
    rs_scripts st4 !! (a + 1 + b)%nat = Some X).
  { eexists. split.
    - unfold resolve_walk. rewrite for_loop_app.
      fold (resolve_walk text (a + 1 + b)).
      unfold resolve_walk. rewrite for_loop_app.
      fold (resolve_walk text (a + 1)). rewrite Hwalk2. cbn [bind].
      replace (0 + (a + 1))%nat with (a + 1)%nat by lia. rewrite Hw3. cbn [bind].
      simpl. replace (0 + (a + 1 + b))%nat with (a + 1 + b)%nat by lia.
      rewrite Hstep4. done.
    - simpl. apply list_lookup_insert_eq. rewrite length_insert. lia. }
  destruct Hwalk4 as (st4 & Hwalk4 & Hfinal4).
  destruct (resolve_walk_inv text (length text)) as (st_n & Hn & Hinv_n); [lia|].
  exists (rs_scripts st_n). rewrite resolved_scripts_walk, Hn by done.
  split; [done|]. split.
  - rewrite (resolve_walk_prefix text (a + 1) (length text) st2 st_n) by (done || lia).
    simpl. rewrite list_lookup_insert_eq by lia. congruence.
  - rewrite (resolve_walk_prefix text (a + 1 + b + 1) (length text) st4 st_n)
      by (done || lia).
    rewrite Hfinal4. congruence.
Qed.

(** ** Splitting the bidi runs *)

Lemma positions_nil (pos len : Z) : len <= 0 -> positions pos len = [].
Proof. intros Hl. unfold positions. by replace (Z.to_nat len) with 0%nat by lia. Qed.

Lemma positions_snoc (pos len : Z) :
  0 <= len -> positions pos (len + 1) = positions pos len ++ [pos + len].
Proof.
  intros Hl. unfold positions.
  replace (Z.to_nat (len + 1)) with (Z.to_nat len + 1)%nat by lia.
  rewrite seq_app, map_app. simpl. do 3 f_equal. lia.
Qed.

Lemma positions_cons (pos len : Z) :
  0 <= len -> positions pos (len + 1) = pos :: positions (pos + 1) len.
Proof.
  intros Hl. unfold positions.
  replace (Z.to_nat (len + 1)) with (S (Z.to_nat len)) by lia.
  simpl. f_equal; [lia|].
  rewrite <- seq_shift, map_map. apply map_ext. intros k. lia.
Qed.

Lemma positions_app (pos a b : Z) :
  0 <= a -> 0 <= b ->
  positions pos (a + b) = positions pos a ++ positions (pos + a) b.
Proof.
  intros Ha Hb. unfold positions.
  replace (Z.to_nat (a + b)) with (Z.to_nat a + Z.to_nat b)%nat by lia.
  rewrite seq_app, map_app. f_equal. simpl.
  rewrite <- (Nat.add_0_r (Z.to_nat a)) at 1.
  rewrite <- (fmap_add_seq (Z.to_nat a) 0), <- list_fmap_compose.
  apply map_ext. intros k. simpl. lia.
Qed.

Lemma length_positions (pos len : Z) :
  length (positions pos len) = Z.to_nat len.
Proof. unfold positions. by rewrite length_map, length_seq. Qed.

Lemma elem_of_positions (pos len p : Z) :
  p ∈ positions pos len <-> pos <= p < pos + len.
Proof.
  unfold positions. rewrite list_elem_of_fmap. split.
  - intros (k & -> & Hk). apply elem_of_seq in Hk. lia.
  - intros Hp. exists (Z.to_nat (p - pos)). split; [lia|]. apply elem_of_seq. lia.
Qed.

Lemma for_down_inv {S : Type} (I : nat -> S -> Prop) (body : Z -> S -> exec S)
    (count : nat) (s : S) :
  I count s ->
  (forall c t, (c < count)%nat -> I (Datatypes.S c) t ->
     exists t', body (Z.of_nat c) t = Done t' /\ I c t') ->
  exists s', for_down body count s = Done s' /\ I 0%nat s'.
Proof.
  revert s. induction count as [|c IH]; intros s H0 Hstep; simpl.
  - by exists s.
  - destruct (Hstep c s) as (t' & -> & Ht'); [lia | done |]. simpl.
    apply IH; [done|]. intros c' t Hc'. apply Hstep. lia.
Qed.

Lemma load_at_done {A : Type} (arr : list A) (i : Z) :
  0 <= i < Z.of_nat (length arr) ->
  exists v, load_at arr i = Done v /\ arr !! Z.to_nat i = Some v.
Proof.
  intros Hi. unfold load_at. destruct (i <? 0) eqn:E; [lia|].
  destruct (lookup_lt_is_Some_2 arr (Z.to_nat i)) as [v Hv]; [lia|].
  exists v. by rewrite (load_lookup _ _ _ Hv).
Qed.

Lemma load_at_inv {A : Type} (arr : list A) (i : Z) (v : A) :
  load_at arr i = Done v -> 0 <= i /\ arr !! Z.to_nat i = Some v.
Proof.
  unfold load_at. destruct (i <? 0) eqn:E; [discriminate|].
  intros Hv. apply load_done in Hv. split; [lia | done].
Qed.

Lemma adjacent_differ_snoc (chain : list raqm_run_t) (r new : raqm_run_t) :
  adjacent_differ (chain ++ [r]) ->
  run_script r <> run_script new ->
  adjacent_differ ((chain ++ [r]) ++ [new]).
Proof.
  intros Hadj Hne i r1 r2 H1 H2.
  destruct (decide (S i < length (chain ++ [r]))%nat) as [Hlt|Hge].
  - rewrite lookup_app_l in H1 by lia. rewrite lookup_app_l in H2 by lia.
    by eapply Hadj.
  - assert (Hi : S i = length (chain ++ [r])).
    { apply lookup_lt_Some in H2. rewrite length_app in H2. simpl in H2. lia. }
    rewrite lookup_app_r in H2 by lia.
    replace (S i - length (chain ++ [r]))%nat with 0%nat in H2 by lia.
    simpl in H2. inversion H2; subst r2.
    rewrite lookup_app_l in H1 by lia.
    rewrite length_app in Hi. simpl in Hi.
    rewrite lookup_app_r in H1 by lia.
    replace (i - length chain)%nat with 0%nat in H1 by lia.
    simpl in H1. by inversion H1; subst r1.
Qed.

Lemma adjacent_differ_last (chain : list raqm_run_t) (r r' : raqm_run_t) :
  adjacent_differ (chain ++ [r]) ->
  run_script r' = run_script r ->
  adjacent_differ (chain ++ [r']).
Proof.
  intros Hadj Heq i r1 r2 H1 H2.
  assert (Hi : (S i < length chain + 1)%nat).
  { apply lookup_lt_Some in H2. by rewrite length_app in H2. }
  rewrite lookup_app_l in H1 by lia.
  destruct (decide (S i < length chain)%nat) as [Hlt|Hge].
  - rewrite lookup_app_l in H2 by lia.
    apply (Hadj i r1 r2); by rewrite lookup_app_l by lia.
  - rewrite lookup_app_r in H2 by lia.
    replace (S i - length chain)%nat with 0%nat in H2 by lia.
    simpl in H2. inversion H2; subst r2. rewrite Heq.
    apply (Hadj i r1 r).
    + by rewrite lookup_app_l by lia.
    + rewrite lookup_app_r by lia.
      by replace (S i - length chain)%nat with 0%nat by lia.
Qed.

Lemma for_loop_partial {S : Type} (I : nat -> S -> Prop) (body : nat -> S -> exec S)
    (lo count : nat) (s s' : S) :
  I lo s ->
  (forall i t t', (lo <= i < lo + count)%nat -> I i t -> body i t = Done t' ->
     I (Datatypes.S i) t') ->
  for_loop body lo count s = Done s' -> I (lo + count)%nat s'.
Proof.
  revert lo s. induction count as [|c IH]; intros lo s H0 Hstep; simpl.
  - intros [= <-]. by rewrite Nat.add_0_r.
  - destruct (body lo s) as [t|] eqn:Hb; [|discriminate]. simpl. intros Hloop.
    replace (lo + Datatypes.S c)%nat with (Datatypes.S lo + c)%nat by lia.
    apply (IH (Datatypes.S lo) t); [| |done].
    + apply (Hstep lo s t); [lia | done | done].
    + intros i u u' Hi. apply Hstep. lia.
Qed.

Lemma for_down_partial {S : Type} (I : nat -> S -> Prop) (body : Z -> S -> exec S)
    (count : nat) (s s' : S) :
  I count s ->
  (forall c t t', (c < count)%nat -> I (Datatypes.S c) t ->
     body (Z.of_nat c) t = Done t' -> I c t') ->
  for_down body count s = Done s' -> I 0%nat s'.
Proof.
  revert s. induction count as [|c IH]; intros s H0 Hstep; simpl.
  - by intros [= <-].
  - destruct (body (Z.of_nat c) s) as [t|] eqn:Hb; [|discriminate]. simpl.
    apply IH.
    + apply (Hstep c s t); [lia | done | done].
    + intros c' u u' Hc'. apply Hstep. lia.
Qed.

Lemma Forall_snoc {A : Type} (P : A -> Prop) (l : list A) (x : A) :
  Forall P (l ++ [x]) <-> Forall P l /\ P x.
Proof. by rewrite Forall_app, Forall_singleton. Qed.

Section Splitting.
Variable scripts : list hb_script_t.
Variable direction : hb_direction_t.
Variable pos : Z.

Lemma forward_step_inv (j : nat) (st st' : split_state) :
  0 <= pos ->
  forward_inv scripts direction pos j st ->
  split_forward_step scripts direction pos j st = Done st' ->
  forward_inv scripts direction pos (S j) st'.
Proof.
  intros Hpos [Hdir Hcov Hend Hfirst Hlen Hlinked Huni Hadj] Hstep.
  unfold split_forward_step in Hstep.
  destruct (load_at scripts (pos + Z.of_nat j)) as [script|] eqn:Hload; [|discriminate].
  apply load_at_inv in Hload. destruct Hload as [_ Hscript].
  cbn [bind] in Hstep.
  assert (Hnonneg : 0 <= run_len (current st)).
  { destruct j; [destruct Hfirst as (_ & -> & _); done | specialize (Hlen ltac:(lia)); lia]. }
  destruct (script =? run_script (current st)) eqn:Heq; simpl in Hstep;
    inversion Hstep; subst st'; clear Hstep.
  - (* the current node grows *)
    apply Z.eqb_eq in Heq.
    set (cur' := {| run_pos := run_pos (current st);
                    run_len := run_len (current st) + 1;
                    run_direction := run_direction (current st);
                    run_script := run_script (current st);
                    run_font := run_font (current st);
                    run_buffer := run_buffer (current st) |}).
    assert (Hpositions : run_positions cur' =
              run_positions (current st) ++ [pos + Z.of_nat j]).
    { unfold run_positions. simpl. rewrite positions_snoc by done. by rewrite Hend. }
    split; unfold nodes_of in *; simpl.
    + rewrite Forall_snoc in Hdir. destruct Hdir as [Hd1 Hd2].
      rewrite Forall_snoc. split; [exact Hd1 | exact Hd2].
    + rewrite flat_map_app in *. simpl in *. rewrite app_nil_r in *.
      rewrite Hpositions, app_assoc, Hcov.
      replace (Z.of_nat (S j)) with (Z.of_nat j + 1) by lia.
      rewrite positions_snoc by lia. reflexivity.
    + lia.
    + intros ?; lia.
    + intros _. lia.
    + exact Hlinked.
    + rewrite Forall_snoc in Huni. destruct Huni as [Hu1 Hu2].
      rewrite Forall_snoc. split; [exact Hu1|].
      intros p Hp. rewrite Hpositions in Hp. apply elem_of_app in Hp.
      destruct Hp as [Hp|Hp]; [by apply Hu2|].
      apply list_elem_of_singleton in Hp. subst p. simpl. rewrite <- Heq.
      exact Hscript.
    + apply (adjacent_differ_last _ (current st)); [exact Hadj | reflexivity].
  - (* a new node is linked *)
    apply Z.eqb_neq in Heq.
    assert (Hj : (0 < j)%nat).
    { destruct j; [|lia]. exfalso. destruct Hfirst as (_ & _ & Hs); [done|].
      apply Heq. symmetry. apply Hs. by rewrite Z.add_0_r in Hscript. }
    split; unfold nodes_of in *; simpl.
    + rewrite Forall_snoc. split; [exact Hdir | reflexivity].
    + rewrite flat_map_app, Hcov. simpl.
      replace (Z.of_nat (S j)) with (Z.of_nat j + 1) by lia.
      rewrite positions_snoc by lia. do 2 f_equal. lia.
    + lia.
    + intros ?; lia.
    + intros _. lia.
    + rewrite Forall_snoc. split; [exact Hlinked | by apply Hlen].
    + rewrite Forall_snoc. split; [exact Huni|].
      intros p Hp. unfold run_positions in Hp. simpl in Hp.
      apply elem_of_positions in Hp.
      replace p with (pos + Z.of_nat j) by lia. done.
    + apply adjacent_differ_snoc; [done|]. simpl. congruence.
Qed.

Lemma forward_step_done (j : nat) (st : split_state) :
  0 <= pos + Z.of_nat j < Z.of_nat (length scripts) ->
  exists st', split_forward_step scripts direction pos j st = Done st'.
Proof.
  intros Hin. unfold split_forward_step.
  destruct (load_at_done scripts (pos + Z.of_nat j) Hin) as (v & -> & _).
  cbn [bind]. destruct (negb _); eauto.
Qed.

Variable len : Z.

Lemma backward_step_inv (c : nat) (st st' : split_state) :
  Z.of_nat c < len ->
  backward_inv direction pos len (S c) st ->
  split_backward_step scripts direction pos (Z.of_nat c) st = Done st' ->
  backward_inv direction pos len c st'.
Proof.
  intros Hc [Hdir Hcov Hcur Hnonneg] Hstep. unfold nonneg_len in *.
  unfold split_backward_step in Hstep.
  destruct (load_at scripts (pos + Z.of_nat c)) as [script|] eqn:Hload; [|discriminate].
  cbn [bind] in Hstep.
  assert (Hcons : positions (pos + Z.of_nat c) (len - Z.of_nat c) =
            (pos + Z.of_nat c) :: positions (pos + Z.of_nat (S c)) (len - Z.of_nat (S c))).
  { replace (len - Z.of_nat c) with (len - Z.of_nat (S c) + 1) by lia.
    rewrite positions_cons by lia. do 2 f_equal. lia. }
  destruct (script =? run_script (current st)) eqn:Heq; simpl in Hstep;
    inversion Hstep; subst st'; clear Hstep; split; unfold nodes_of in *; simpl.
  - rewrite Forall_snoc in Hdir. destruct Hdir as [Hd1 Hd2].
    rewrite Forall_snoc. split; [exact Hd1 | exact Hd2].
  - rewrite flat_map_app in *. simpl in *. rewrite app_nil_r in *.
    assert (Hnn : 0 <= run_len (current st)).
    { rewrite Forall_snoc in Hnonneg. by destruct Hnonneg as [_ Hn]. }
    assert (Hpositions :
      run_positions {| run_pos := pos + Z.of_nat c;
                       run_len := run_len (current st) + 1;
                       run_direction := run_direction (current st);
                       run_script := run_script (current st);
                       run_font := run_font (current st);
                       run_buffer := run_buffer (current st) |} =
      (pos + Z.of_nat c) :: run_positions (current st)).
    { unfold run_positions. simpl. rewrite positions_cons by done. f_equal.
      destruct Hcur as [H0|Hp].
      - rewrite H0. by rewrite !positions_nil by lia.
      - rewrite Hp. f_equal. lia. }
    rewrite Hpositions, Hcons, <- Hcov.
    by rewrite <- Permutation_middle.
  - by right.
  - rewrite Forall_snoc in Hnonneg. destruct Hnonneg as [Hn1 Hn2].
    rewrite Forall_snoc. split; [exact Hn1 | unfold nonneg_len; simpl; lia].
  - rewrite Forall_snoc. split; [exact Hdir | reflexivity].
  - rewrite flat_map_app. simpl.
    replace (pos + Z.of_nat c + Z.of_nat 0) with (pos + Z.of_nat c) by lia.
    rewrite Hcov, Hcons.
    by rewrite <- Permutation_cons_append.
  - by right.
  - rewrite Forall_snoc. split; [exact Hnonneg | unfold nonneg_len; simpl; lia].
Qed.

Lemma backward_step_done (j : Z) (st : split_state) :
  0 <= pos + j < Z.of_nat (length scripts) ->
  exists st', split_backward_step scripts direction pos j st = Done st'.
Proof.
  intros Hin. unfold split_backward_step.
  destruct (load_at_done scripts (pos + j) Hin) as (v & -> & _).
  cbn [bind]. destruct (negb _); eauto.
Qed.
End Splitting.

Lemma length_run_positions (chain : list raqm_run_t) :
  Forall nonneg_len chain ->
  Z.of_nat (length (flat_map run_positions chain)) = sum_len chain.
Proof.
  induction 1 as [|r chain Hr _ IH]; simpl; [done|].
  rewrite length_app, Nat2Z.inj_add, IH.
  unfold run_positions. rewrite length_positions. unfold nonneg_len in Hr. lia.
Qed.

Lemma hb_dir_base_dir (rq1 rq2 : raqm_t) (level : Z) :
  base_dir rq1 = base_dir rq2 -> _raqm_hb_dir rq1 level = _raqm_hb_dir rq2 level.
Proof. intros Hb. unfold _raqm_hb_dir. by rewrite Hb. Qed.

Lemma split_bidi_run_base_dir (rq1 rq2 : raqm_t) (scripts : list hb_script_t)
    (r : FriBidiRun) :
  base_dir rq1 = base_dir rq2 ->
  split_bidi_run rq1 scripts r = split_bidi_run rq2 scripts r.
Proof. intros Hb. unfold split_bidi_run. by rewrite (hb_dir_base_dir rq1 rq2). Qed.

Lemma itemize_chain_base_dir (rq1 rq2 : raqm_t) (scripts : list hb_script_t)
    (bidi_runs : list FriBidiRun) :
  base_dir rq1 = base_dir rq2 ->
  itemize_chain rq1 scripts bidi_runs = itemize_chain rq2 scripts bidi_runs.
Proof.
  intros Hb. induction bidi_runs as [|r rest IH]; simpl; [done|].
  by rewrite (split_bidi_run_base_dir rq1 rq2), IH.
Qed.

Section SplitRun.
Variable rq : raqm_t.
Variable scripts : list hb_script_t.

(** The nodes made for one bidi run cover its positions once each. *)
Lemma split_bidi_run_cover (r : FriBidiRun) (nodes : list raqm_run_t) :
  0 <= bidi_pos r -> 0 <= bidi_len r ->
  split_bidi_run rq scripts r = Done nodes ->
  flat_map run_positions nodes ≡ₚ bidi_positions r /\
  Forall nonneg_len nodes /\
  Forall (fun run => run_direction run = _raqm_hb_dir rq (bidi_level r)) nodes /\
  nodes <> [].
Proof.
  intros Hpos Hlen. unfold split_bidi_run.
  set (direction := _raqm_hb_dir rq (bidi_level r)).
  destruct (HB_DIRECTION_IS_BACKWARD direction).
  - destruct (load_at scripts (bidi_pos r + bidi_len r - 1)) as [script|]; [|discriminate].
    cbn [bind].
    match goal with |- context [for_down ?b ?c ?s] =>
      destruct (for_down b c s) as [st|] eqn:Hloop; [|discriminate] end.
    cbn [bind]. intros [= <-].
    apply (for_down_partial (backward_inv direction (bidi_pos r) (bidi_len r))) in Hloop.
    + destruct Hloop as [Hdir Hcov _ Hnn].
      change (linked st ++ [current st]) with (nodes_of st). split_and!.
      * rewrite Hcov. unfold bidi_positions. simpl.
        by rewrite Z.add_0_r, Z.sub_0_r.
      * exact Hnn.
      * exact Hdir.
      * unfold nodes_of. by destruct (linked st).
    + split; unfold nodes_of; simpl.
      * by apply Forall_singleton.
      * unfold run_positions. simpl. rewrite !positions_nil by lia. done.
      * by left.
      * apply Forall_singleton. unfold nonneg_len. simpl. lia.
    + intros c t t' Hc. apply backward_step_inv. lia.
  - destruct (load_at scripts (bidi_pos r)) as [script|] eqn:Hload; [|discriminate].
    cbn [bind].
    match goal with |- context [for_loop ?b ?lo ?c ?s] =>
      destruct (for_loop b lo c s) as [st|] eqn:Hloop; [|discriminate] end.
    cbn [bind]. intros [= <-].
    apply (for_loop_partial (forward_inv scripts direction (bidi_pos r))) in Hloop.
    + destruct Hloop as [Hdir Hcov Hend Hfirst Hlength Hlinked _ _].
      change (linked st ++ [current st]) with (nodes_of st). split_and!.
      * rewrite Hcov. unfold bidi_positions. simpl. by rewrite Z2Nat.id by lia.
      * unfold nodes_of. rewrite Forall_snoc. split.
        -- eapply Forall_impl; [exact Hlinked|]. unfold nonneg_len. intros; simpl in *; lia.
        -- unfold nonneg_len. destruct (Z.to_nat (bidi_len r)) as [|n] eqn:En.
           ++ destruct Hfirst as (_ & -> & _); done.
           ++ specialize (Hlength ltac:(simpl; lia)). lia.
      * exact Hdir.
      * unfold nodes_of. by destruct (linked st).
    + apply load_at_inv in Hload. destruct Hload as [_ Hload].
      split; unfold nodes_of; simpl.
      * by apply Forall_singleton.
      * unfold run_positions. simpl. rewrite !positions_nil by lia. done.
      * lia.
      * intros _. split_and!; [done | done |]. intros s Hs. congruence.
      * lia.
      * done.
      * apply Forall_singleton. intros p Hp. unfold run_positions in Hp. simpl in Hp.
        rewrite positions_nil in Hp by lia. by apply elem_of_nil in Hp.
      * intros i r1 r2 _ H2. by destruct i.
    + intros i t t' _. by apply forward_step_inv.
Qed.

Lemma itemize_chain_cover (bidi_runs : list FriBidiRun) (chain : list raqm_run_t) :
  Forall (fun r => 0 <= bidi_pos r /\ 0 <= bidi_len r) bidi_runs ->
  itemize_chain rq scripts bidi_runs = Done chain ->
  flat_map run_positions chain ≡ₚ flat_map bidi_positions bidi_runs /\
  Forall nonneg_len chain /\
  (bidi_runs <> [] -> chain <> []).
Proof.
  intros Hb. revert chain. induction Hb as [|r rest [Hpos Hlen] _ IH]; intros chain; simpl.
  - intros [= <-]. done.
  - destruct (split_bidi_run rq scripts r) as [nodes|] eqn:Hsplit; [|discriminate].
    cbn [bind].
    destruct (itemize_chain rq scripts rest) as [more|]; [|discriminate].
    cbn [bind]. intros [= <-].
    destruct (split_bidi_run_cover r nodes Hpos Hlen Hsplit) as (Hc & Hn & _ & Hne).
    destruct (IH more eq_refl) as (Hc' & Hn' & _).
    split_and!.
    + rewrite flat_map_app. by rewrite Hc, Hc'.
    + by apply Forall_app.
    + intros _. by destruct nodes.
Qed.
End SplitRun.

(** The maximal spans of equal level tile the positions of the level
    array, in order. *)
Lemma level_spans_from_spec (levels : list Z) (pos : Z) :
  flat_map bidi_positions (level_spans_from pos levels) =
    positions pos (Z.of_nat (length levels)) /\
  Forall (fun r => pos <= bidi_pos r /\ 1 <= bidi_len r)
    (level_spans_from pos levels) /\
  (forall r spans, level_spans_from pos levels = r :: spans -> bidi_pos r = pos).
Proof.
  revert pos. induction levels as [|level rest IH]; intros pos.
  - simpl. split_and!; [done | done | discriminate].
  - destruct (IH (pos + 1)) as (Hcov & Hall & Hhead). simpl.
    replace (Z.of_nat (S (length rest))) with (Z.of_nat (length rest) + 1)
      in * by lia.
    rewrite positions_cons by lia. rewrite <- Hcov.
    destruct (level_spans_from (pos + 1) rest) as [|r spans] eqn:Hspans.
    + split_and!.
      * simpl. unfold bidi_positions. simpl. unfold positions. simpl. f_equal. lia.
      * apply Forall_singleton. simpl. lia.
      * by intros r spans [= <- <-].
    + specialize (Hhead r spans eq_refl).
      apply Forall_cons in Hall. destruct Hall as [[Hr1 Hr2] Hall].
      destruct (bidi_level r =? level).
      * split_and!.
        -- simpl. unfold bidi_positions at 1. simpl. rewrite positions_cons by lia.
           unfold bidi_positions at 2. by rewrite Hhead.
        -- apply Forall_cons. split; [simpl; lia|].
           eapply Forall_impl; [exact Hall|]. intros; simpl in *; lia.
        -- by intros ? ? [= <- <-].
      * split_and!.
        -- simpl. unfold bidi_positions at 1. simpl. unfold positions at 1. simpl.
           f_equal. lia.
        -- apply Forall_cons. split; [simpl; lia|].
           apply Forall_cons. split; [lia|].
           eapply Forall_impl; [exact Hall|]. intros; simpl in *; lia.
        -- by intros ? ? [= <- <-].
Qed.

(** Bidi runs that meet the contract cover the paragraph once. *)
Lemma bidi_runs_partition_cover (n : nat) (bidi_runs : list FriBidiRun) :
  bidi_runs_partition n bidi_runs ->
  flat_map bidi_positions bidi_runs ≡ₚ positions 0 (Z.of_nat n) /\
  Forall (fun r => 0 <= bidi_pos r /\ 0 <= bidi_len r) bidi_runs.
Proof.
  intros (levels & <- & Hperm). unfold bidi_runs_of_levels in Hperm.
  destruct (level_spans_from_spec levels 0) as (Hcov & Hall & _).
  split.
  - rewrite <- Hcov. by apply Permutation_flat_map.
  - rewrite Hperm. eapply Forall_impl; [exact Hall|]. intros; simpl in *; lia.
Qed.

(** ** Layout *)

Lemma set_scripts_id (rq : raqm_t) : set_scripts rq (scripts rq) = rq.
Proof. by destruct rq. Qed.

Lemma shape_run_fields `{Collaborators} (rq : raqm_t) (run : raqm_run_t) :
  run_pos (shape_run rq run) = run_pos run /\
  run_len (shape_run rq run) = run_len run /\
  run_direction (shape_run rq run) = run_direction run /\
  run_script (shape_run rq run) = run_script run.
Proof. done. Qed.

Lemma shape_run_positions `{Collaborators} (rq : raqm_t) (chain : list raqm_run_t) :
  flat_map run_positions (map (shape_run rq) chain) = flat_map run_positions chain.
Proof. induction chain as [|r chain IH]; simpl; [done|]. by rewrite IH. Qed.

Lemma shape_run_sum_len `{Collaborators} (rq : raqm_t) (chain : list raqm_run_t) :
  sum_len (map (shape_run rq) chain) = sum_len chain.
Proof. induction chain as [|r chain IH]; simpl; [done|]. by rewrite IH. Qed.

Lemma shape_run_ext `{Collaborators} (rq1 rq2 : raqm_t) (run : raqm_run_t) :
  font rq1 = font rq2 -> text rq1 = text rq2 -> features rq1 = features rq2 ->
  shape_run rq1 run = shape_run rq2 run.
Proof. intros Hf Ht Hfe. unfold shape_run. by rewrite Hf, Ht, Hfe. Qed.

Section LayoutInversion.
Context `{Collaborators}.

Lemma resolve_scripts_inv (rq : raqm_t) (ok : bool) (rq1 : raqm_t) :
  _raqm_resolve_scripts rq = Done (ok, rq1) ->
  ok = true /\
  exists scripts1, rq1 = set_scripts rq (Some scripts1) /\
    (scripts rq = Some scripts1 \/
     (scripts rq = None /\ resolved_scripts (text rq) = Done scripts1)).
Proof.
  unfold _raqm_resolve_scripts. destruct (scripts rq) as [s|] eqn:Hs.
  - intros [= <- <-]. split; [done|]. exists s. split; [|by left].
    by rewrite <- Hs, set_scripts_id.
  - destruct (resolved_scripts (text rq)) as [s|]; [|discriminate].
    cbn [bind]. intros [= <- <-]. split; [done|]. exists s. split; [done | by right].
Qed.

(** What a successful itemization has done. *)
Lemma itemize_inv (rq r1 : raqm_t) :
  _raqm_itemize rq = Done (true, r1) ->
  exists scripts1 chain,
    (scripts rq = Some scripts1 \/
     (scripts rq = None /\ resolved_scripts (text rq) = Done scripts1)) /\
    itemize_chain r1 scripts1 (itemize_bidi_runs rq) = Done chain /\
    chain <> [] /\
    r1 = set_runs (set_scripts rq (Some scripts1))
           (match runs rq with [] => chain | _ :: _ => runs rq end).
Proof.
  unfold _raqm_itemize.
  destruct (itemize_bidi rq) as [[[max_level types] levels] par_type].
  destruct (max_level <? 0); [discriminate|].
  destruct (_raqm_resolve_scripts rq) as [[ok rq1]|] eqn:Hres; [|discriminate].
  cbn [bind]. apply resolve_scripts_inv in Hres.
  destruct Hres as (-> & scripts1 & -> & Hfrom). simpl.
  destruct (itemize_chain _ scripts1 _) as [chain|] eqn:Hchain; [|discriminate].
  cbn [bind]. destruct chain as [|node chain]; [discriminate|].
  intros [= <-]. exists scripts1, (node :: chain). split_and!; [done | | done |].
  - rewrite <- Hchain. apply itemize_chain_base_dir. by destruct (runs rq).
  - destruct rq as [? ? ? ? ? ? rs ?]. simpl. by destruct rs.
Qed.

(** What a successful layout has done. *)
Lemma layout_inv (rq rq' : raqm_t) :
  raqm_layout (Some rq) = Done (true, Some rq') ->
  (1 <= text_len rq)%nat /\
  exists r1, _raqm_itemize rq = Done (true, r1) /\
    rq' = set_runs r1 (map (shape_run r1) (runs r1)).
Proof.
  unfold raqm_layout. destruct (decide (text_len rq = 0%nat)); [discriminate|].
  destruct (_raqm_itemize rq) as [[ok r1]|]; [|discriminate].
  cbn [bind]. destruct ok; simpl; [|discriminate].
  intros [= <-]. split; [lia|]. by exists r1.
Qed.
End LayoutInversion.

(** X19. When layout succeeds on a paragraph of [N >= 1] scalars whose
    bidi runs meet the contract of the reordering, the shape runs that
    itemization links together cover every scalar once: their lengths add
    up to [N] and their logical positions are a rearrangement of
    [0, ..., N - 1]. They are the run list of the context when it had
    none before. *)
Theorem shape_runs_cover_paragraph `{Collaborators} (rq rq' : raqm_t) :
  raqm_layout (Some rq) = Done (true, Some rq') ->
  bidi_runs_partition (text_len rq) (itemize_bidi_runs rq) ->
  (1 <= text_len rq)%nat /\
  exists scripts' chain,
    scripts rq' = Some scripts' /\
    itemize_chain rq' scripts' (itemize_bidi_runs rq) = Done chain /\
    covers (text_len rq) chain /\
    (runs rq = [] ->
     runs rq' = map (shape_run rq') chain /\ covers (text_len rq) (runs rq')).
Proof.
  intros Hlayout Hpart.
  destruct (layout_inv rq rq' Hlayout) as (Hlen & r1 & Hitem & ->).
  destruct (itemize_inv rq r1 Hitem) as (scripts1 & chain & _ & Hchain & _ & Hr1).
  destruct (bidi_runs_partition_cover _ _ Hpart) as (Hbcov & Hball).
  destruct (itemize_chain_cover r1 scripts1 _ chain Hball Hchain) as (Hcov & Hnn & _).
  assert (Hcovers : covers (text_len rq) chain).
  { split.
    - rewrite <- (length_run_positions chain Hnn).
      rewrite Hcov, Hbcov, length_positions. lia.
    - by rewrite Hcov. }
  split; [done|]. exists scripts1, chain. split_and!.
  - by rewrite Hr1.
  - rewrite <- Hchain. apply itemize_chain_base_dir. by rewrite Hr1.
  - done.
  - intros Hnone. rewrite Hr1, Hnone. simpl. split; [done|].
    destruct Hcovers as [Hsum Hperm]. split.
    + by rewrite shape_run_sum_len.
    + by rewrite shape_run_positions.
Qed.

Lemma level_spans_from_replicate (n : nat) (level pos : Z) :
  level_spans_from pos (replicate (S n) level) =
  [mk_bidi_run pos (Z.of_nat (S n)) level].
Proof.
  revert pos. induction n as [|n IH]; intros pos; [done|].
  change (replicate (S (S n)) level) with (level :: replicate (S n) level).
  cbn [level_spans_from]. rewrite IH. simpl. rewrite Z.eqb_refl.
  do 2 f_equal. lia.
Qed.

Lemma split_bidi_run_forward (rq : raqm_t) (scripts : list hb_script_t)
    (r : FriBidiRun) (nodes : list raqm_run_t) :
  HB_DIRECTION_IS_BACKWARD (_raqm_hb_dir rq (bidi_level r)) = false ->
  0 <= bidi_pos r ->
  split_bidi_run rq scripts r = Done nodes ->
  exists st, nodes = nodes_of st /\
    forward_inv scripts (_raqm_hb_dir rq (bidi_level r)) (bidi_pos r)
      (Z.to_nat (bidi_len r)) st.
Proof.
  intros Hfw Hpos. unfold split_bidi_run. rewrite Hfw.
  destruct (load_at scripts (bidi_pos r)) as [script|] eqn:Hload; [|discriminate].
  cbn [bind].
  match goal with |- context [for_loop ?b ?lo ?c ?s] =>
    destruct (for_loop b lo c s) as [st|] eqn:Hloop; [|discriminate] end.
  cbn [bind]. intros [= <-]. exists st. split; [done|].
  apply (for_loop_partial
           (forward_inv scripts (_raqm_hb_dir rq (bidi_level r)) (bidi_pos r)))
    in Hloop; [done | |].
  - apply load_at_inv in Hload. destruct Hload as [_ Hload].
    split; unfold nodes_of; simpl.
    + by apply Forall_singleton.
    + unfold run_positions. simpl. rewrite !positions_nil by lia. done.
    + lia.
    + intros _. split_and!; [done | done |]. intros s Hs. congruence.
    + lia.
    + done.
    + apply Forall_singleton. intros p Hp. unfold run_positions in Hp. simpl in Hp.
      rewrite positions_nil in Hp by lia. by apply elem_of_nil in Hp.
    + intros i r1 r2 _ H2. by destruct i.
  - intros i t t' _. by apply forward_step_inv.
Qed.

Lemma split_bidi_run_forward_done (rq : raqm_t) (scripts : list hb_script_t)
    (r : FriBidiRun) :
  HB_DIRECTION_IS_BACKWARD (_raqm_hb_dir rq (bidi_level r)) = false ->
  0 <= bidi_pos r -> 1 <= bidi_len r ->
  bidi_pos r + bidi_len r <= Z.of_nat (length scripts) ->
  exists nodes, split_bidi_run rq scripts r = Done nodes.
Proof.
  intros Hfw Hpos Hlen Hin. unfold split_bidi_run. rewrite Hfw.
  destruct (load_at_done scripts (bidi_pos r)) as (script & -> & _); [lia|].
  cbn [bind].
  match goal with |- context [for_loop ?b ?lo ?c ?s] =>
    destruct (for_loop_inv (fun _ _ => True) b lo c s) as (st & -> & _) end.
  - done.
  - intros i t Hi _.
    destruct (forward_step_done scripts (_raqm_hb_dir rq (bidi_level r))
                (bidi_pos r) i t) as [t' Ht']; [lia|].
    by exists t'.
  - cbn [bind]. eauto.
Qed.

Section TopToBottom.
Context `{Collaborators}.
Variable rq : raqm_t.
Hypothesis Httb : base_dir rq = RAQM_DIRECTION_TTB.

Lemma itemize_bidi_ttb :
  itemize_bidi rq =
  (0, types_memset (FRIBIDI_TYPE_LTR `mod` 256) (text_len rq),
   replicate (text_len rq) 0, FRIBIDI_PAR_ON).
Proof. unfold itemize_bidi. by rewrite Httb. Qed.

Lemma itemize_levels_ttb : itemize_levels rq = replicate (text_len rq) 0.
Proof. unfold itemize_levels. by rewrite itemize_bidi_ttb. Qed.

Lemma itemize_bidi_runs_ttb :
  (1 <= text_len rq)%nat ->
  bidi_runs_of_levels (itemize_levels rq) (itemize_bidi_runs rq) ->
  itemize_bidi_runs rq = [mk_bidi_run 0 (Z.of_nat (text_len rq)) 0].
Proof.
  intros Hlen Hcontract. unfold bidi_runs_of_levels in Hcontract.
  rewrite itemize_levels_ttb in Hcontract. unfold level_spans in Hcontract.
  destruct (text_len rq) as [|n] eqn:Hn; [lia|].
  rewrite level_spans_from_replicate in Hcontract.
  by apply Permutation_singleton_r in Hcontract.
Qed.

Lemma hb_dir_ttb (rq1 : raqm_t) (level : Z) :
  base_dir rq1 = base_dir rq -> _raqm_hb_dir rq1 level = HB_DIRECTION_TTB.
Proof. intros Hb. unfold _raqm_hb_dir. by rewrite Hb, Httb. Qed.
End TopToBottom.

(** X20. When layout succeeds on a non-empty paragraph with base direction
    TTB whose bidi runs meet the contract of the reordering: every
    embedding level is 0; there is one bidi run, which covers the whole
    paragraph; and the shape runs that itemization links together all have
    direction TTB and are, in order, the maximal same-script spans of the
    script array. They are the run list of the context when it had none
    before. *)
Theorem ttb_one_run_per_script_span `{Collaborators} (rq rq' : raqm_t) :
  base_dir rq = RAQM_DIRECTION_TTB ->
  raqm_layout (Some rq) = Done (true, Some rq') ->
  bidi_runs_of_levels (itemize_levels rq) (itemize_bidi_runs rq) ->
  (1 <= text_len rq)%nat /\
  itemize_levels rq = replicate (text_len rq) 0 /\
  itemize_bidi_runs rq = [mk_bidi_run 0 (Z.of_nat (text_len rq)) 0] /\
  exists scripts' chain,
    scripts rq' = Some scripts' /\
    itemize_chain rq' scripts' (itemize_bidi_runs rq) = Done chain /\
    script_spans_ttb (text_len rq) scripts' chain /\
    (runs rq = [] ->
     runs rq' = map (shape_run rq') chain /\
     script_spans_ttb (text_len rq) scripts' (runs rq')).
Proof.
  intros Httb Hlayout Hcontract.
  destruct (layout_inv rq rq' Hlayout) as (Hlen & r1 & Hitem & ->).
  destruct (itemize_inv rq r1 Hitem) as (scripts1 & chain & _ & Hchain & _ & Hr1).
  pose proof (itemize_bidi_runs_ttb rq Httb Hlen Hcontract) as Hruns.
  split; [done|]. split; [by apply itemize_levels_ttb|]. split; [done|].
  assert (Hbase : base_dir r1 = base_dir rq) by by rewrite Hr1.
  assert (Hspans : script_spans_ttb (text_len rq) scripts1 chain).
  { rewrite Hruns in Hchain. simpl in Hchain.
    destruct (split_bidi_run r1 scripts1 _) as [nodes|] eqn:Hsplit; [|discriminate].
    cbn [bind] in Hchain. inversion Hchain; subst chain. rewrite app_nil_r.
    apply split_bidi_run_forward in Hsplit.
    2: { simpl. by rewrite (hb_dir_ttb rq Httb r1 0 Hbase). }
    2: { simpl. lia. }
    destruct Hsplit as (st & -> & Hinv). simpl in Hinv.
    rewrite (hb_dir_ttb rq Httb r1 0 Hbase), Nat2Z.id in Hinv.
    destruct Hinv as [Hdir Hcov _ _ Hlength Hlinked Huni Hadj].
    split_and!; [done | done | | done].
    apply Forall_forall. intros run Hrun. split.
    - unfold nodes_of in Hrun. apply elem_of_app in Hrun.
      destruct Hrun as [Hrun|Hrun].
      + by apply (proj1 (Forall_forall _ _) Hlinked).
      + apply list_elem_of_singleton in Hrun. subst run. apply Hlength. lia.
    - by apply (proj1 (Forall_forall _ _) Huni). }
  exists scripts1, chain. split_and!.
  - by rewrite Hr1.
  - rewrite <- Hchain. apply itemize_chain_base_dir. by rewrite Hr1.
  - done.
  - intros Hnone. rewrite Hr1, Hnone. simpl. split; [done|].
    destruct Hspans as (Hdir & Hcov & Hall & Hadj). split_and!.
    + apply Forall_fmap. eapply Forall_impl; [exact Hdir|]. done.
    + by rewrite shape_run_positions.
    + apply Forall_fmap. eapply Forall_impl; [exact Hall|]. done.
    + intros i r1' r2' H1 H2. rewrite list_lookup_fmap in H1, H2.
      destruct (chain !! i) as [a|] eqn:Ha; [|discriminate].
      destruct (chain !! S i) as [b|] eqn:Hb; [|discriminate].
      simpl in H1, H2. inversion H1; inversion H2; subst. simpl.
      by apply (Hadj i a b).
Qed.

(** A first layout of a non-empty TTB paragraph succeeds. *)
Lemma ttb_layout_succeeds `{Collaborators} (rq : raqm_t) :
  base_dir rq = RAQM_DIRECTION_TTB ->
  (1 <= text_len rq)%nat ->
  scripts rq = None ->
  bidi_runs_of_levels (itemize_levels rq) (itemize_bidi_runs rq) ->
  exists rq', raqm_layout (Some rq) = Done (true, Some rq').
Proof.
  intros Httb Hlen Hnone Hcontract.
  pose proof (itemize_bidi_runs_ttb rq Httb Hlen Hcontract) as Hruns.
  unfold raqm_layout. rewrite decide_False by lia.
  unfold _raqm_itemize. rewrite Hruns, (itemize_bidi_ttb rq Httb). simpl.
  unfold _raqm_resolve_scripts. rewrite Hnone.
  destruct (resolved_scripts_done (text rq)) as (final & -> & Hfinal).
  cbn [bind]. simpl.
  match goal with |- context [split_bidi_run ?r ?s ?b] =>
    destruct (split_bidi_run_forward_done r s b) as [nodes Hnodes];
      [| | | | pose proof (split_bidi_run_cover r s b nodes) as Hcov ] end.
  - simpl. unfold _raqm_hb_dir. simpl. by rewrite Httb.
  - simpl. lia.
  - simpl. unfold text_len in *. lia.
  - simpl. unfold text_len in *. lia.
  - rewrite Hnodes. cbn [bind]. rewrite app_nil_r.
    destruct Hcov as (_ & _ & _ & Hne); [simpl; lia | simpl; lia | done |].
    destruct nodes as [|node nodes]; [done|]. cbn [bind]. simpl. eauto.
Qed.

Section Relayout.
Context `{Collaborators}.

Lemma itemize_bidi_ext (rq1 rq2 : raqm_t) :
  text rq1 = text rq2 -> base_dir rq1 = base_dir rq2 ->
  itemize_bidi rq1 = itemize_bidi rq2.
Proof. intros Ht Hb. unfold itemize_bidi, text_len. by rewrite Ht, Hb. Qed.

Lemma itemize_bidi_runs_ext (rq1 rq2 : raqm_t) :
  text rq1 = text rq2 -> base_dir rq1 = base_dir rq2 ->
  itemize_bidi_runs rq1 = itemize_bidi_runs rq2.
Proof.
  intros Ht Hb. unfold itemize_bidi_runs, text_len.
  by rewrite (itemize_bidi_ext rq1 rq2), Ht.
Qed.

(** On a context that has a script array and a run list, a successful
    itemization changes nothing. *)
Lemma itemize_again (rq r1 rq1 : raqm_t) (scripts1 : list hb_script_t) :
  _raqm_itemize rq = Done (true, r1) ->
  text rq1 = text rq -> base_dir rq1 = base_dir rq ->
  scripts r1 = Some scripts1 -> scripts rq1 = Some scripts1 ->
  runs rq1 <> [] ->
  _raqm_itemize rq1 = Done (true, rq1).
Proof.
  intros Hitem Ht Hb Hs1 Hs Hruns.
  destruct (itemize_inv rq r1 Hitem) as (s & chain & _ & Hchain & Hne & Hr1).
  assert (s = scripts1) as -> by (rewrite Hr1 in Hs1; simpl in Hs1; congruence).
  unfold _raqm_itemize in *.
  rewrite (itemize_bidi_runs_ext rq1 rq), (itemize_bidi_ext rq1 rq) by done.
  destruct (itemize_bidi rq) as [[[max_level types] levels] par_type].
  destruct (max_level <? 0); [discriminate|].
  unfold _raqm_resolve_scripts. rewrite Hs. cbn [bind]. simpl. rewrite Hs.
  rewrite (itemize_chain_base_dir rq1 r1) by (rewrite Hr1; simpl; congruence).
  rewrite Hchain. cbn [bind].
  destruct chain; [done|]. by destruct (runs rq1).
Qed.

Lemma shape_run_twice (rq1 rq2 : raqm_t) (run : raqm_run_t) :
  font rq1 = font rq2 -> text rq1 = text rq2 -> features rq1 = features rq2 ->
  shape_run rq2 (shape_run rq1 run) = shape_run rq1 run.
Proof. intros Hf Ht Hfe. unfold shape_run. simpl. by rewrite Hf, Ht, Hfe. Qed.

Lemma collect_glyphs_shaped (rq : raqm_t) (chain : list raqm_run_t) :
  exists all, collect_glyphs (map (shape_run rq) chain) = Done all.
Proof.
  induction chain as [|run chain [all IH]]; simpl; [by eexists|].
  rewrite IH. cbn [bind]. by eexists.
Qed.

(** A context that a successful layout has left is a fixed point of
    layout, whatever its glyph array field holds. *)
Lemma layout_fixed_point (rq rq1 : raqm_t) (g : option (list raqm_glyph_t)) :
  raqm_layout (Some rq) = Done (true, Some rq1) ->
  raqm_layout (Some (set_glyphs rq1 g)) = Done (true, Some (set_glyphs rq1 g)).
Proof.
  intros Hlayout.
  destruct (layout_inv rq rq1 Hlayout) as (Hlen & r1 & Hitem & Hrq1).
  destruct (itemize_inv rq r1 Hitem) as (s & chain & _ & _ & Hne & Hr1).
  assert (Hruns : runs r1 <> []).
  { rewrite Hr1. simpl. by destruct (runs rq). }
  assert (Hagain : _raqm_itemize (set_glyphs rq1 g) = Done (true, set_glyphs rq1 g)).
  { apply (itemize_again rq r1 _ s Hitem).
    - by rewrite Hrq1, Hr1.
    - by rewrite Hrq1, Hr1.
    - by rewrite Hr1.
    - by rewrite Hrq1, Hr1.
    - rewrite Hrq1. simpl. by destruct (runs r1). }
  unfold raqm_layout. rewrite decide_False.
  2: { unfold text_len in *. rewrite Hrq1, Hr1. simpl. lia. }
  rewrite Hagain. cbn [bind]. simpl. do 3 f_equal.
  unfold set_runs, set_glyphs. simpl. f_equal.
  rewrite Hrq1. simpl. rewrite map_map. apply map_ext. intros run.
  by apply shape_run_twice.
Qed.

Lemma set_glyphs_id (rq : raqm_t) : set_glyphs rq (glyphs rq) = rq.
Proof. by destruct rq. Qed.
End Relayout.

(** C4. On a context on which layout has succeeded, layout succeeds
    again and leaves the context as it is; with a call of get_glyphs after
    each of the two layouts, the second call returns the same glyph array
    and the same length as the first. *)
Theorem layout_twice_same_glyphs `{Collaborators} (rq rq1 : raqm_t) :
  raqm_layout (Some rq) = Done (true, Some rq1) ->
  raqm_layout (Some rq1) = Done (true, Some rq1) /\
  forall cell cell', exists all rq2,
    raqm_get_glyphs (Some rq1) (Some cell) =
      Done (Some all, Some (Z.of_nat (length all)), Some rq2) /\
    raqm_layout (Some rq2) = Done (true, Some rq2) /\
    raqm_get_glyphs (Some rq2) (Some cell') =
      Done (Some all, Some (Z.of_nat (length all)), Some rq2).
Proof.
  intros Hlayout. split.
  - rewrite <- (set_glyphs_id rq1) at 1 2. by apply (layout_fixed_point rq).
  - intros cell cell'.
    destruct (layout_inv rq rq1 Hlayout) as (_ & r1 & _ & Hrq1).
    destruct (collect_glyphs_shaped r1 (runs r1)) as [all Hall].
    exists all, (set_glyphs rq1 (Some all)).
    assert (Hruns : runs rq1 = map (shape_run r1) (runs r1)) by by rewrite Hrq1.
    split_and!.
    + unfold raqm_get_glyphs. rewrite Hruns, Hall. cbn [bind].
      unfold set_glyphs. by rewrite Hruns.
    + by apply (layout_fixed_point rq).
    + unfold raqm_get_glyphs. simpl. rewrite Hruns, Hall. cbn [bind].
      unfold set_glyphs. by rewrite Hruns.
Qed.

Lemma itemize_glyphs `{Collaborators} (rq r1 : raqm_t) (ok : bool) :
  _raqm_itemize rq = Done (ok, r1) -> glyphs r1 = glyphs rq.
Proof.
  destruct ok.
  - intros Hitem. destruct (itemize_inv rq r1 Hitem) as (s & chain & _ & _ & _ & ->).
    done.
  - unfold _raqm_itemize.
    destruct (itemize_bidi rq) as [[[max_level types] levels] par_type].
    destruct (max_level <? 0); [by intros [= <-]|].
    destruct (_raqm_resolve_scripts rq) as [[ok rq1]|] eqn:Hres; [|discriminate].
    cbn [bind]. apply resolve_scripts_inv in Hres.
    destruct Hres as (-> & scripts1 & -> & _). simpl.
    destruct (itemize_chain _ _ _) as [chain|]; [|discriminate].
    cbn [bind]. destruct chain; discriminate.
Qed.

(** X21. Layout does not look at the status that the shaper
    reports: its outcome is the same whatever that status is on each run;
    it returns success whenever the paragraph is not empty and itemization
    succeeds; and it never writes the glyph array of the context. *)
Theorem layout_ignores_shaper_status (C : Collaborators)
    (status : option hb_font_t -> list Z -> Z -> Z -> hb_script_t ->
              hb_direction_t -> list hb_feature_t -> bool) (rq : raqm_t) :
  @raqm_layout (with_shaper_status C status) (Some rq) = @raqm_layout C (Some rq) /\
  (forall r1, text_len rq <> 0%nat -> @_raqm_itemize C rq = Done (true, r1) ->
     exists rq', @raqm_layout C (Some rq) = Done (true, Some rq')) /\
  (forall ok rq', @raqm_layout C (Some rq) = Done (ok, Some rq') ->
     glyphs rq' = glyphs rq).
Proof.
  split_and!.
  - reflexivity.
  - intros r1 Hlen Hitem. unfold raqm_layout. rewrite decide_False by done.
    rewrite Hitem. cbn [bind]. simpl. eauto.
  - intros ok rq'. unfold raqm_layout.
    destruct (decide (text_len rq = 0%nat)); [by intros [= <- <-]|].
    destruct (_raqm_itemize rq) as [[ok1 r1]|] eqn:Hitem; [|discriminate].
    cbn [bind]. apply itemize_glyphs in Hitem.
    destruct ok1; simpl; intros [= <- <-]; done.
Qed.

(** C6 on the code: with a null context and a feature string that the
    parser accepts, [raqm_add_font_feature] dereferences the null
    pointer. *)
Theorem add_font_feature_null_faults `{Collaborators} (feature : string)
    (len : Z) (fea : hb_feature_t) :
  hb_feature_from_string feature len = Some fea ->
  raqm_add_font_feature None feature len = Fault.
Proof. intros Hparse. unfold raqm_add_font_feature. by rewrite Hparse. Qed.

(** The other mutators and the queries check for the null context. *)
Lemma null_context_checked `{Collaborators} (text' : list Z) (len : Z)
    (dir : raqm_direction_t) (face : FT_Face) (start : Z) (cell : option Z) :
  raqm_set_text None text' len = Done None /\
  raqm_set_par_direction None dir = None /\
  raqm_set_freetype_face None face start len = None /\
  raqm_layout None = Done (false, None) /\
  raqm_get_glyphs None cell = Done (None, cell, None) /\
  raqm_reference None = None /\
  raqm_destroy None = None.
Proof. by split_and!. Qed.

(** C10. [raqm_set_text] on a context replaces the text and nothing else:
    the script array, the run list and the glyph array stay. Script
    resolution returns at once on a context that has a script array, so a
    layout after [raqm_set_text] on a context that was laid out keeps the
    script array computed from the text of the earlier layout. *)
Theorem set_text_keeps_scripts `{Collaborators} (rq : raqm_t) (text' : list Z)
    (len : Z) :
  0 <= len <= Z.of_nat (length text') ->
  exists rq1,
    raqm_set_text (Some rq) text' len = Done (Some rq1) /\
    text rq1 = take (Z.to_nat len) text' /\
    scripts rq1 = scripts rq /\ runs rq1 = runs rq /\ glyphs rq1 = glyphs rq /\
    ref_count rq1 = ref_count rq /\ base_dir rq1 = base_dir rq /\
    features rq1 = features rq /\ font rq1 = font rq /\
    (forall scripts0, scripts rq = Some scripts0 ->
       _raqm_resolve_scripts rq1 = Done (true, rq1) /\
       forall ok rq2, raqm_layout (Some rq1) = Done (ok, Some rq2) ->
         scripts rq2 = Some scripts0) /\
    (forall rq0, raqm_layout (Some rq0) = Done (true, Some rq) ->
       exists scripts0,
         scripts rq = Some scripts0 /\
         (scripts rq0 = None -> resolved_scripts (text rq0) = Done scripts0) /\
         forall ok rq2, raqm_layout (Some rq1) = Done (ok, Some rq2) ->
           scripts rq2 = Some scripts0).
Proof.
  intros Hlen. eexists. split.
  { unfold raqm_set_text. destruct (_ <? len) eqn:E; [lia | reflexivity]. }
  simpl. split_and!; try done.
  - assert (Hkeep : forall scripts0, scripts rq = Some scripts0 ->
      forall rq1, scripts rq1 = Some scripts0 ->
      forall ok rq2, raqm_layout (Some rq1) = Done (ok, Some rq2) ->
        scripts rq2 = Some scripts0).
    { intros scripts0 _ rq1 Hs1 ok rq2. unfold raqm_layout.
      destruct (decide (text_len rq1 = 0%nat)); [by intros [= <- <-]|].
      destruct (_raqm_itemize rq1) as [[ok1 r1]|] eqn:Hitem; [|discriminate].
      cbn [bind]. destruct ok1; simpl; intros [= <- <-]; simpl.
      - destruct (itemize_inv rq1 r1 Hitem) as (s & chain & [Hs|[Hs _]] & _ & _ & ->);
          simpl; congruence.
      - revert Hitem. unfold _raqm_itemize.
        destruct (itemize_bidi rq1) as [[[max_level types] levels] par_type].
        destruct (max_level <? 0); [by intros [= <-]|].
        unfold _raqm_resolve_scripts. rewrite Hs1. cbn [bind]. simpl. rewrite Hs1.
        destruct (itemize_chain _ _ _) as [chain|]; [|discriminate].
        cbn [bind]. destruct chain; discriminate. }
    intros scripts0 Hs0. split.
    + unfold _raqm_resolve_scripts. simpl. by rewrite Hs0.
    + intros ok rq2. by apply (Hkeep scripts0 Hs0).
  - intros rq0 Hlayout0.
    destruct (layout_inv rq0 rq Hlayout0) as (_ & r1 & Hitem & Hrq).
    destruct (itemize_inv rq0 r1 Hitem) as (s & chain & Hfrom & _ & _ & Hr1).
    assert (Hs : scripts rq = Some s) by by rewrite Hrq, Hr1.
    exists s. split_and!; [done | |].
    + intros Hnone. destruct Hfrom as [Hsome|[_ Hres]]; [congruence | done].
    + intros ok rq2 Hlayout. revert Hlayout. unfold raqm_layout.
      match goal with |- context [decide ?P] => destruct (decide P) end;
        [by intros [= <- <-]|].
      match goal with |- context [_raqm_itemize ?r] =>
        destruct (_raqm_itemize r) as [[ok1 r2]|] eqn:Hitem1; [|discriminate] end.
      cbn [bind]. destruct ok1; simpl; intros [= <- <-]; simpl.
      * destruct (itemize_inv _ r2 Hitem1) as (s' & chain' & [Hs'|[Hs' _]] & _ & _ & ->);
          simpl in *; congruence.
      * revert Hitem1. unfold _raqm_itemize.
        match goal with |- context [itemize_bidi ?r] =>
          destruct (itemize_bidi r) as [[[max_level types] levels] par_type] end.
        destruct (max_level <? 0); [by intros [= <-]|].
        unfold _raqm_resolve_scripts. simpl. rewrite Hs. cbn [bind]. simpl. rewrite ?Hs.
        destruct (itemize_chain _ _ _) as [chain'|]; [|discriminate].
        cbn [bind]. destruct chain'; discriminate.
Qed.

(** ** The byte-oriented entry point *)

Section ByteClusters.
Context `{Collaborators}.

Lemma utf32_to_utf8_index_inv (unicode : list Z) (index c : Z) :
  _raqm_utf32_to_utf8_index unicode index = Done c ->
  0 <= index <= Z.of_nat (length unicode) /\ c = prefix_bytes unicode index.
Proof.
  unfold _raqm_utf32_to_utf8_index.
  destruct (index <? 0) eqn:E1; [discriminate|].
  destruct (Z.of_nat (length unicode) <? index) eqn:E2; [discriminate|].
  simpl. intros [= <-]. split; [lia | done].
Qed.

Lemma remap_cluster_inv (u32_str : list Z) (info : list raqm_glyph_t) (i : nat)
    (cur cur' : list raqm_glyph_t) :
  remap_inv u32_str info i cur ->
  remap_cluster u32_str i cur = Done cur' ->
  remap_inv u32_str info (S i) cur'.
Proof.
  intros (Hlen & Hrest & Hdone). unfold remap_cluster.
  destruct (load cur i) as [g|] eqn:Hg; [|discriminate]. cbn [bind].
  apply load_done in Hg.
  destruct (_raqm_utf32_to_utf8_index u32_str (cluster g)) as [c|] eqn:Hc;
    [|discriminate].
  cbn [bind]. apply utf32_to_utf8_index_inv in Hc. destruct Hc as [Hin ->].
  intros Hstore. apply store_inv in Hstore. destruct Hstore as [Hi ->].
  split_and!.
  - by rewrite length_insert.
  - intros k Hk. rewrite list_lookup_insert_ne by lia. apply Hrest. lia.
  - intros k g' Hk Hg'. destruct (decide (k = i)) as [->|Hne].
    + rewrite Hrest in Hg by lia. rewrite Hg in Hg'. inversion Hg'; subst g'.
      split; [done|]. by apply list_lookup_insert_eq.
    + rewrite list_lookup_insert_ne by lia. apply Hdone; [lia | done].
Qed.
End ByteClusters.

(** C9. When the byte-oriented entry point returns glyphs, they are the
    glyphs of the scalar entry point on the decoded text with the cluster
    of each returned glyph replaced: a glyph whose cluster [c] is an index
    into the decoded text gets the byte length of the UTF-8 encoding of
    the scalars [0, ..., c - 1] of the decoded text. When the encoder
    works scalar by scalar and gives back the original bytes on the
    decoded text, the original bytes from that byte index on are the
    encoding of the scalars from [c] on. *)
Theorem byte_clusters_are_prefix_lengths `{Collaborators} (u8_str : list Z)
    (u8_size : Z) (face : FT_Face) (direction : raqm_direction_t)
    (features' : option (list string)) (glyph_count : Z)
    (info' : list raqm_glyph_t) :
  let decoded := fribidi_charset_to_unicode u8_str u8_size in
  let u32_size := Z.of_nat (length decoded) in
  let u32_str := decoded ++ replicate (Z.to_nat (u8_size - u32_size)) 0 in
  raqm_shape u8_str u8_size face direction features' =
    Done (glyph_count, Some info') ->
  exists info,
    raqm_shape_u32 u32_str u32_size face direction features' =
      Done (glyph_count, Some info) /\
    length info' = length info /\
    forall k g, Z.of_nat k < glyph_count -> info !! k = Some g ->
      cluster g <= u32_size ->
      exists g',
        info' !! k = Some g' /\
        g' = set_cluster g (prefix_bytes decoded (cluster g)) /\
        ((forall a b, fribidi_unicode_to_charset (a ++ b) =
                      fribidi_unicode_to_charset a ++ fribidi_unicode_to_charset b) ->
         fribidi_unicode_to_charset decoded = take (Z.to_nat u8_size) u8_str ->
         drop (Z.to_nat (cluster g')) (take (Z.to_nat u8_size) u8_str) =
         fribidi_unicode_to_charset (drop (Z.to_nat (cluster g)) decoded)).
Proof.
  intros decoded u32_size u32_str. unfold raqm_shape.
  fold decoded. fold u32_size.
  destruct (Z.max 0 u8_size <? u32_size) eqn:Hsize; [discriminate|].
  fold u32_str.
  destruct (raqm_shape_u32 u32_str u32_size face direction features')
    as [[count [info|]]|] eqn:Hu32; cbn [bind]; [| |discriminate].
  2: { destruct (count =? 0); discriminate. }
  destruct (for_loop (remap_cluster u32_str) 0 (Z.to_nat count) info)
    as [cur|] eqn:Hloop; [|discriminate].
  cbn [bind]. intros [= <- <-]. exists info. split; [done|].
  apply (for_loop_partial (remap_inv u32_str info)) in Hloop.
  - destruct Hloop as (Hlen & _ & Hdone). split; [done|].
    intros k g Hk Hg Hc.
    destruct (Hdone k g) as [Hin Hcur]; [lia | done |].
    eexists. split; [exact Hcur|].
    assert (Hprefix : prefix_bytes u32_str (cluster g) = prefix_bytes decoded (cluster g)).
    { unfold prefix_bytes, u32_str. by rewrite take_app_le by (subst u32_size; lia). }
    split; [by rewrite Hprefix|].
    intros Hmorph Hround. simpl. rewrite Hprefix. unfold prefix_bytes.
    rewrite Nat2Z.id, <- Hround.
    rewrite <- (take_drop (Z.to_nat (cluster g)) decoded) at 2.
    rewrite Hmorph. by rewrite drop_app_length.
  - split_and!; [done | done | intros; lia].
  - intros i t t' _. apply remap_cluster_inv.
Qed.

(** ** The table of paired characters *)

(** The search loop is over before its fuel: more fuel changes nothing. *)
Lemma get_pair_index_loop_fuel (fuel extra : nat) (ch lower upper : Z) :
  0 <= lower -> upper - lower < Z.of_nat fuel ->
  get_pair_index_loop (fuel + extra) ch lower upper =
  get_pair_index_loop fuel ch lower upper.
Proof.
  revert lower upper. induction fuel as [|fuel IH]; intros lower upper Hlo Hfuel.
  - destruct extra; simpl; [done|]. destruct (lower <=? upper) eqn:E; [lia | done].
  - simpl. destruct (lower <=? upper) eqn:E; [|done].
    assert (Hmid : lower <= (lower + upper) `quot` 2 <= upper).
    { rewrite Z.quot_div_nonneg by lia.
      split; [apply Z.div_le_lower_bound | apply Z.div_le_upper_bound]; lia. }
    rewrite !IH by lia. done.
Qed.

Lemma get_pair_index_fuel (extra : nat) (ch : Z) :
  get_pair_index_loop (Z.to_nat paired_len + extra) ch 0 (paired_len - 1) =
  get_pair_index ch.
Proof. apply get_pair_index_loop_fuel; unfold paired_len; lia. Qed.

(** The popping loop is over before its fuel: more fuel changes
    nothing. *)
Lemma pop_until_match_fuel (fuel extra : nat) (stack : raqm_stack_t) (pi : Z) :
  (stack_size stack <= fuel)%nat ->
  pop_until_match (fuel + extra) stack pi = pop_until_match fuel stack pi.
Proof.
  revert stack. induction fuel as [|fuel IH]; intros stack Hfuel.
  - destruct extra; simpl; [done|].
    unfold STACK_IS_NOT_EMPTY, STACK_IS_EMPTY.
    by rewrite bool_decide_eq_true_2 by lia.
  - simpl. destruct (STACK_IS_NOT_EMPTY stack) eqn:Hne; [|done].
    destruct (load_init _ _) as [top|]; [|done]. cbn [bind].
    destruct (negb (top =? pi)); [|done].
    apply IH. unfold _raqm_stack_pop.
    destruct (decide _); simpl; lia.
Qed.

(** The search finds a scalar exactly when it is in the table, at its
    index. *)
Lemma not_elem_of_Forall {A : Type} (x : A) (l : list A) :
  x ∉ l <-> Forall (fun y => x <> y) l.
Proof.
  rewrite Forall_forall. split.
  - intros Hx y Hy ->. done.
  - intros Hall Hx. by apply (Hall x).
Qed.

Lemma get_pair_index_found (ch : Z) :
  (get_pair_index ch = -1 /\ ch ∉ paired_chars) \/
  (0 <= get_pair_index ch < paired_len /\
   paired_chars !! Z.to_nat (get_pair_index ch) = Some ch).
Proof.
  remember (get_pair_index ch) as r eqn:Hr.
  cbv - [Z.ltb] in Hr.
  repeat match type of Hr with
  | context [if ?a <? ?b then _ else _] => destruct (Z.ltb_spec a b)
  end; subst r;
  first
    [ left; split; [reflexivity|];
      apply (proj2 (not_elem_of_Forall _ _));
      unfold paired_chars; repeat (constructor; [lia|]); constructor
    | right; split; [unfold paired_len; lia|]; simpl; f_equal; lia ].
Qed.

(** The sample reordering meets the contract of the bidi runs on every
    level array. *)
Lemma sample_reverse_at (level : Z) (pending rs : list FriBidiRun) :
  Sample.reverse_at level pending rs ≡ₚ pending ++ rs.
Proof.
  revert pending. induction rs as [|r rest IH]; intros pending; simpl.
  - by rewrite app_nil_r.
  - destruct (level <=? bidi_level r).
    + rewrite IH. simpl. by rewrite Permutation_middle.
    + by rewrite IH.
Qed.

Lemma sample_reorder_from (level : nat) (rs : list FriBidiRun) :
  Sample.reorder_from level rs ≡ₚ rs.
Proof.
  revert rs. induction level as [|level IH]; intros rs; [done|].
  cbn [Sample.reorder_from]. by rewrite IH, sample_reverse_at.
Qed.

Lemma sample_reorder_runs_contract (types : bidi_types_t) (len : nat)
    (par : FriBidiParType) (levels : list Z) :
  bidi_runs_of_levels levels (Sample.reorder_runs types len par levels).
Proof. apply sample_reorder_from. Qed.

(** ** The bracket stack and the search of the table *)

Lemma push_all_room (entries : list (hb_script_t * Z)) (stack : raqm_stack_t) :
  length (stack_scripts stack) = stack_capacity stack ->
  length (stack_pair_index stack) = stack_capacity stack ->
  (stack_size stack + length entries < stack_capacity stack)%nat ->
  exists stack', push_all stack entries = Done stack' /\
    stack_size stack' = (stack_size stack + length entries)%nat /\
    stack_capacity stack' = stack_capacity stack /\
    length (stack_scripts stack') = stack_capacity stack /\
    length (stack_pair_index stack') = stack_capacity stack /\
    (forall m, (m <= stack_size stack)%nat ->
       stack_scripts stack' !! m = stack_scripts stack !! m /\
       stack_pair_index stack' !! m = stack_pair_index stack !! m) /\
    (forall i script pi, entries !! i = Some (script, pi) ->
       stack_scripts stack' !! (stack_size stack + S i)%nat = Some (Some script) /\
       stack_pair_index stack' !! (stack_size stack + S i)%nat = Some (Some pi)).
Proof.
  revert stack. induction entries as [|[script pi] rest IH]; intros stack Hls Hlp Hroom.
  - exists stack. simpl. split_and!; try done; lia.
  - simpl in Hroom. cbn [push_all].
    destruct (stack_push_room stack script pi) as (st1 & Hpush & Hsz & Hcap & Hsc & Hpi);
      [lia | lia | lia |].
    rewrite Hpush. cbn [bind snd].
    destruct (IH st1) as (stack' & Hall & Hsz' & Hcap' & Hls' & Hlp' & Hold & Hnew).
    { by rewrite Hsc, length_insert, Hcap. }
    { by rewrite Hpi, length_insert, Hcap. }
    { rewrite Hsz, Hcap. lia. }
    exists stack'. split_and!.
    + done.
    + rewrite Hsz', Hsz. simpl. lia.
    + congruence.
    + congruence.
    + congruence.
    + intros m Hm. destruct (Hold m) as [H1 H2]; [lia|].
      rewrite H1, H2, Hsc, Hpi. rewrite !list_lookup_insert_ne by lia. done.
    + intros i s p Hi. destruct i as [|i]; simpl in Hi.
      * inversion Hi; subst s p.
        destruct (Hold (S (stack_size stack))) as [H1 H2]; [lia|].
        replace (stack_size stack + 1)%nat with (S (stack_size stack)) by lia.
        rewrite H1, H2, Hsc, Hpi. rewrite !list_lookup_insert_eq by lia. done.
      * destruct (Hnew i s p Hi) as [H1 H2]. rewrite Hsz in H1, H2.
        replace (stack_size stack + S (S i))%nat with (S (stack_size stack) + S i)%nat
          by lia.
        done.
Qed.

Lemma push_all_overflow (entries : list (hb_script_t * Z)) (stack : raqm_stack_t) :
  length (stack_scripts stack) = stack_capacity stack ->
  length (stack_pair_index stack) = stack_capacity stack ->
  (stack_size stack < stack_capacity stack)%nat ->
  (stack_capacity stack <= stack_size stack + length entries)%nat ->
  push_all stack entries = Fault.
Proof.
  revert stack. induction entries as [|[script pi] rest IH]; intros stack Hls Hlp Hlt Hover.
  - simpl in Hover. lia.
  - cbn [push_all].
    destruct (decide (S (stack_size stack) = stack_capacity stack)) as [Hlast|Hmore].
    + unfold _raqm_stack_push. rewrite decide_False by lia.
      unfold store. rewrite decide_False by lia. done.
    + destruct (stack_push_room stack script pi) as (st1 & Hpush & Hsz & Hcap & Hsc & Hpi);
        [lia | lia | lia |].
      rewrite Hpush. cbn [bind snd]. apply IH.
      * by rewrite Hsc, length_insert, Hcap.
      * by rewrite Hpi, length_insert, Hcap.
      * lia.
      * rewrite Hsz, Hcap. simpl in Hover. lia.
Qed.

(** X1. A stack made by [_raqm_stack_new (max)] holds [max - 1] entries, in
    the cells 1, ..., [max - 1]: fewer than [max] pushes all succeed and
    the [i]-th of them lands in cell [i]; when [max] is not 0, the
    [max]-th push stores outside of the arrays; when [max] is 0 every push
    is refused. *)
Theorem stack_holds_capacity_minus_one (max : nat)
    (entries : list (hb_script_t * Z)) :
  ((length entries < max)%nat ->
   exists stack, push_all (_raqm_stack_new max) entries = Done stack /\
     stack_size stack = length entries /\
     forall i script pi, entries !! i = Some (script, pi) ->
       stack_scripts stack !! S i = Some (Some script) /\
       stack_pair_index stack !! S i = Some (Some pi)) /\
  ((0 < max <= length entries)%nat ->
   push_all (_raqm_stack_new max) entries = Fault) /\
  (max = 0%nat ->
   push_all (_raqm_stack_new max) entries = Done (_raqm_stack_new max)).
Proof.
  split_and!.
  - intros Hlen.
    destruct (push_all_room entries (_raqm_stack_new max))
      as (stack & Hall & Hsz & _ & _ & _ & _ & Hnew); simpl;
      rewrite ?length_replicate; try done.
    exists stack. split_and!; [done | done |].
    intros i s p Hi. by apply Hnew.
  - intros Hmax. apply push_all_overflow; simpl; rewrite ?length_replicate; lia.
  - intros ->. induction entries as [|[s p] rest IH]; [done|].
    cbn [push_all]. unfold _raqm_stack_push at 1. simpl. exact IH.
Qed.

(** X2. Last in, first out: after a push that is accepted, the top is the
    pushed script, the pair index under the top is the pushed one, and a
    pop takes the stack back to its size before the push. On an empty
    stack the top is [HB_SCRIPT_INVALID] and a pop is refused. *)
Theorem stack_push_top_pop (stack stack' : raqm_stack_t) (script : hb_script_t)
    (pi : Z) :
  _raqm_stack_push stack script pi = Done (true, stack') ->
  _raqm_stack_top stack' = Done script /\
  load_init (stack_pair_index stack') (stack_size stack') = Done pi /\
  STACK_IS_NOT_EMPTY stack' = true /\
  fst (_raqm_stack_pop stack') = true /\
  stack_size (snd (_raqm_stack_pop stack')) = stack_size stack /\
  (forall m, m <> S (stack_size stack) ->
     stack_scripts stack' !! m = stack_scripts stack !! m /\
     stack_pair_index stack' !! m = stack_pair_index stack !! m) /\
  (forall empty, stack_size empty = 0%nat ->
     _raqm_stack_top empty = Done HB_SCRIPT_INVALID /\
     _raqm_stack_pop empty = (false, empty)).
Proof.
  unfold _raqm_stack_push. destruct (decide _) as [|Hroom]; [discriminate|].
  destruct (store (stack_scripts stack) _ _) as [scripts'|] eqn:Hs; [|discriminate].
  cbn [bind].
  destruct (store (stack_pair_index stack) _ _) as [pair_index'|] eqn:Hp; [|discriminate].
  cbn [bind]. intros [= <-].
  apply store_inv in Hs. destruct Hs as [Hls ->].
  apply store_inv in Hp. destruct Hp as [Hlp ->].
  unfold _raqm_stack_top, _raqm_stack_pop, STACK_IS_NOT_EMPTY, STACK_IS_EMPTY,
    load_init. simpl.
  rewrite !list_lookup_insert_eq by done. split_and!; try done.
  - intros m Hm. by rewrite !list_lookup_insert_ne by lia.
  - intros empty Hempty. by rewrite !decide_True by done.
Qed.

Lemma pop_until_match_topmost_fuel (fuel : nat) (stack : raqm_stack_t) (pi : Z) :
  (stack_size stack <= fuel)%nat ->
  (forall m, (1 <= m <= stack_size stack)%nat ->
     exists p, stack_pair_index stack !! m = Some (Some p)) ->
  exists size',
    pop_until_match fuel stack pi =
      Done {| stack_capacity := stack_capacity stack;
              stack_size := size';
              stack_pair_index := stack_pair_index stack;
              stack_scripts := stack_scripts stack |} /\
    (size' <= stack_size stack)%nat /\
    (size' <> 0%nat -> stack_pair_index stack !! size' = Some (Some pi)) /\
    (forall m, (size' < m <= stack_size stack)%nat ->
       stack_pair_index stack !! m <> Some (Some pi)).
Proof.
  revert stack. induction fuel as [|fuel IH]; intros stack Hfuel Hcells.
  - exists 0%nat. simpl. destruct stack as [cap sz pis scs]. simpl in *.
    replace sz with 0%nat by lia. split_and!; [done | lia | done | intros; lia].
  - simpl. unfold STACK_IS_NOT_EMPTY, STACK_IS_EMPTY.
    destruct (decide (stack_size stack = 0%nat)) as [Hz|Hnz].
    + rewrite bool_decide_eq_true_2 by lia. cbn [negb].
      exists 0%nat. destruct stack as [cap sz pis scs]. simpl in *. subst sz.
      split_and!; [done | lia | done | intros; lia].
    + rewrite bool_decide_eq_false_2 by lia. cbn [negb].
      destruct (Hcells (stack_size stack)) as [p Hp]; [lia|].
      unfold load_init. rewrite Hp. cbn [bind].
      destruct (p =? pi) eqn:E; cbn [negb].
      * exists (stack_size stack). apply Z.eqb_eq in E. subst p.
        destruct stack as [cap sz pis scs]. simpl in *.
        split_and!; [done | lia | done | intros; lia].
      * apply Z.eqb_neq in E.
        unfold _raqm_stack_pop. rewrite decide_False by done. cbn [snd].
        destruct (IH {| stack_capacity := stack_capacity stack;
                        stack_size := Nat.pred (stack_size stack);
                        stack_pair_index := stack_pair_index stack;
                        stack_scripts := stack_scripts stack |})
          as (size' & Hloop & Hle & Htop & Habove).
        { simpl. lia. }
        { simpl. intros m Hm. apply Hcells. lia. }
        simpl in *. exists size'. split_and!; [done | lia | done |].
        intros m Hm. destruct (decide (m = stack_size stack)) as [->|Hne].
        -- rewrite Hp. congruence.
        -- apply Habove. lia.
Qed.

(** X3. The closing-bracket loop cuts the stack down to its topmost entry
    with the pair index [pi], which stays on the stack, and to the empty
    stack when there is none; the cells are left as they are. *)
Theorem pop_until_match_topmost (stack : raqm_stack_t) (pi : Z) :
  (forall m, (1 <= m <= stack_size stack)%nat ->
     exists p, stack_pair_index stack !! m = Some (Some p)) ->
  exists size',
    pop_until_match (stack_size stack) stack pi =
      Done {| stack_capacity := stack_capacity stack;
              stack_size := size';
              stack_pair_index := stack_pair_index stack;
              stack_scripts := stack_scripts stack |} /\
    (size' <= stack_size stack)%nat /\
    (size' <> 0%nat -> stack_pair_index stack !! size' = Some (Some pi)) /\
    (forall m, (size' < m <= stack_size stack)%nat ->
       stack_pair_index stack !! m <> Some (Some pi)).
Proof. intros Hcells. by apply pop_until_match_topmost_fuel. Qed.

(** X4. The binary search of [get_pair_index] over the table of paired
    characters is complete and exact: a scalar of the table gets its
    position in the table, every other scalar gets -1, and the search is
    over within the rounds it is given. *)
Theorem pair_index_is_table_position (ch : Z) :
  (ch ∈ paired_chars ->
   0 <= get_pair_index ch < paired_len /\
   paired_chars !! Z.to_nat (get_pair_index ch) = Some ch) /\
  (ch ∉ paired_chars -> get_pair_index ch = -1) /\
  (forall i, paired_chars !! i = Some ch -> get_pair_index ch = Z.of_nat i) /\
  (forall extra,
     get_pair_index_loop (Z.to_nat paired_len + extra) ch 0 (paired_len - 1) =
     get_pair_index ch).
Proof.
  pose proof (get_pair_index_found ch) as Hfound.
  split_and!.
  - intros Hin. destruct Hfound as [[_ Hout]|Hfound]; done.
  - intros Hout. destruct Hfound as [[Hnone _]|[_ Hat]]; [done|].
    exfalso. apply Hout. by eapply list_elem_of_lookup_2.
  - intros i Hi. destruct Hfound as [[_ Hout]|[Hrange Hat]].
    + exfalso. apply Hout. by eapply list_elem_of_lookup_2.
    + assert (Hnodup : NoDup paired_chars).
      { unfold paired_chars. apply NoDup_ListNoDup.
        repeat (constructor; [intros Hin; simpl in Hin; intuition lia|]).
        constructor. }
      pose proof (NoDup_lookup _ _ _ _ Hnodup Hi Hat). lia.
  - intros extra. apply get_pair_index_fuel.
Qed.

(** ** Where the resolved scripts come from *)

Lemma is_concrete_true (s : hb_script_t) :
  is_concrete s = true <-> s <> HB_SCRIPT_COMMON /\ s <> HB_SCRIPT_INHERITED.
Proof.
  unfold is_concrete. rewrite andb_true_iff, !negb_true_iff, !Z.eqb_neq. done.
Qed.

Lemma is_concrete_false (s : hb_script_t) :
  is_concrete s = false <-> s = HB_SCRIPT_COMMON \/ s = HB_SCRIPT_INHERITED.
Proof.
  unfold is_concrete. rewrite andb_false_iff, !negb_false_iff, !Z.eqb_eq. done.
Qed.

Lemma is_closer_dec (ch : Z) : {is_closer ch} + {~ is_closer ch}.
Proof.
  unfold is_closer.
  destruct (Z_le_dec 0 (get_pair_index ch)); [|right; tauto].
  destruct (IS_OPEN (get_pair_index ch)); [right | left]; [intros []; done | done].
Qed.

Section Origin.
Context `{Collaborators}.
Variable text : list Z.
Hypothesis Hmax : Z.of_nat (length text) <= INT_MAX.

(** Where the resolved script of every position comes from: its own
    Unicode script, at position 0 and for a concrete script; the script
    of an earlier position otherwise. *)
Lemma resolved_origin :
  exists final, resolved_scripts text = Done final /\
    length final = length text /\
    forall i ch, text !! i = Some ch ->
      ((i = 0%nat \/ is_concrete (hb_unicode_script ch) = true) /\
       final !! i = Some (hb_unicode_script ch)) \/
      ((0 < i)%nat /\ is_concrete (hb_unicode_script ch) = false /\
       exists j, (j < i)%nat /\ final !! i = final !! j).
Proof.
  destruct (resolve_walk_inv text (length text)) as (st_n & Hn & Hinv_n); [lia|].
  exists (rs_scripts st_n). rewrite resolved_scripts_walk, Hn by done.
  split; [done|]. split; [apply Hinv_n|].
  intros i ch Hch.
  assert (Hlt : (i < length text)%nat) by by eapply lookup_lt_Some.
  destruct (resolve_walk_inv text i) as (st & Hst & Hinv); [lia|].
  destruct (resolve_step_inv text i st Hinv Hlt) as (st' & Hstep & Hinv' & Hpost).
  assert (Hst' : resolve_walk text (S i) = Done st').
  { by rewrite resolve_walk_S, Hst. }
  assert (Hcur : rs_scripts st_n !! i = rs_scripts st' !! i).
  { apply (resolve_walk_prefix text (S i) (length text)); (done || lia). }
  assert (Hbefore : forall j, (j < i)%nat -> rs_scripts st_n !! j = rs_scripts st !! j).
  { intros j Hj. apply (resolve_walk_prefix text i (length text)); (done || lia). }
  assert (Hinit : initial_scripts text !! i = Some (hb_unicode_script ch)).
  { unfold initial_scripts. by rewrite list_lookup_fmap, Hch. }
  destruct (decide (i = 0%nat)) as [->|Hpos].
  { left. split; [by left|]. rewrite Hcur.
    destruct (post_first _ _ _ _ Hpost eq_refl) as [-> _]. done. }
  destruct (is_concrete (hb_unicode_script ch)) eqn:Hc.
  { left. split; [by right|]. rewrite Hcur. apply is_concrete_true in Hc.
    destruct Hc as [Hc1 Hc2].
    by destruct (post_concrete _ _ _ _ Hpost _ Hinit Hc1 Hc2) as [-> _]. }
  right. split; [lia|]. split; [done|].
  assert (Hprev : rs_scripts st_n !! Nat.pred i = Some (last_script_value st)).
  { rewrite Hbefore by lia. apply Hinv. lia. }
  apply is_concrete_false in Hc.
  destruct Hc as [Hcom|Hinh].
  - destruct (is_closer_dec ch) as [Hcl|Hncl].
    + rewrite Hcom in Hinit.
      destruct (post_closer _ _ _ _ Hpost ch ltac:(lia) Hinit Hch Hcl)
        as [Hv|(j & ch' & s & Hj & _ & _ & Hsj & Hsi)].
      * exists (Nat.pred i). split; [lia|]. by rewrite Hcur, Hprev.
      * exists j. split; [done|]. by rewrite Hcur, Hsi, Hbefore.
    + exists (Nat.pred i). split; [lia|]. rewrite Hcur, Hprev.
      apply (post_previous _ _ _ _ Hpost HB_SCRIPT_COMMON ch);
        [lia | by rewrite <- Hcom | done |].
      right. done.
  - exists (Nat.pred i). split; [lia|]. rewrite Hcur, Hprev.
    apply (post_previous _ _ _ _ Hpost HB_SCRIPT_INHERITED ch);
      [lia | by rewrite <- Hinh | done |].
    by left.
Qed.
End Origin.

(** X5. Script resolution keeps the length of the paragraph and the
    Unicode script of every scalar of concrete script; it also keeps the
    Unicode script of the scalar at position 0, whatever it is. A
    paragraph without Common and Inherited scalars resolves to its Unicode
    scripts. *)
Theorem resolution_keeps_concrete_scripts `{Collaborators} (text : list Z) :
  Z.of_nat (length text) <= INT_MAX ->
  exists final, resolved_scripts text = Done final /\
    length final = length text /\
    (forall i ch, text !! i = Some ch ->
       i = 0%nat \/ is_concrete (hb_unicode_script ch) = true ->
       final !! i = Some (hb_unicode_script ch)) /\
    (Forall (fun ch => is_concrete (hb_unicode_script ch) = true) text ->
     final = initial_scripts text).
Proof.
  intros Hmax. destruct (resolved_origin text Hmax) as (final & Hres & Hlen & Horigin).
  exists final. split_and!; [done | done | |].
  - intros i ch Hch Hcase.
    destruct (Horigin i ch Hch) as [[_ Hfinal]|(Hpos & Hc & _)]; [done|].
    destruct Hcase as [->|Hc']; [lia | congruence].
  - intros Hall. apply list_eq. intros i.
    unfold initial_scripts. rewrite list_lookup_fmap.
    destruct (text !! i) as [ch|] eqn:Hch; simpl.
    + destruct (Horigin i ch Hch) as [[_ Hfinal]|(_ & Hc & _)]; [done|].
      rewrite Forall_lookup in Hall. rewrite (Hall i ch Hch) in Hc. discriminate.
    + apply lookup_ge_None. apply lookup_ge_None in Hch. lia.
Qed.

(** X6. Script resolution invents no script: the resolved script of a
    position is the Unicode script of the scalar at that position or at an
    earlier one. *)
Theorem resolution_invents_no_script `{Collaborators} (text : list Z) :
  Z.of_nat (length text) <= INT_MAX ->
  exists final, resolved_scripts text = Done final /\
    forall i s, final !! i = Some s ->
      exists j ch, (j <= i)%nat /\ text !! j = Some ch /\
        s = hb_unicode_script ch.
Proof.
  intros Hmax. destruct (resolved_origin text Hmax) as (final & Hres & Hlen & Horigin).
  exists final. split; [done|].
  intros i. induction i as [i IH] using lt_wf_ind. intros s Hs.
  destruct (lookup_lt_is_Some_2 text i) as [ch Hch].
  { apply lookup_lt_Some in Hs. lia. }
  destruct (Horigin i ch Hch) as [[_ Hfinal]|(_ & _ & j & Hj & Hij)].
  - exists i, ch. split; [lia|]. split; [done | congruence].
  - rewrite Hij in Hs. destruct (IH j Hj s Hs) as (j' & ch' & ? & ? & ?).
    exists j', ch'. split; [lia | done].
Qed.

(** X7. When the first scalar of the paragraph has a concrete script, no
    resolved script is Common or Inherited. *)
Theorem resolution_concrete_after_concrete_start `{Collaborators}
    (text : list Z) (ch0 : Z) :
  Z.of_nat (length text) <= INT_MAX ->
  text !! 0%nat = Some ch0 ->
  is_concrete (hb_unicode_script ch0) = true ->
  exists final, resolved_scripts text = Done final /\
    Forall (fun s => is_concrete s = true) final.
Proof.
  intros Hmax Hch0 Hc0.
  destruct (resolved_origin text Hmax) as (final & Hres & Hlen & Horigin).
  exists final. split; [done|]. apply Forall_lookup.
  intros i. induction i as [i IH] using lt_wf_ind. intros s Hs.
  destruct (lookup_lt_is_Some_2 text i) as [ch Hch].
  { apply lookup_lt_Some in Hs. lia. }
  destruct (Horigin i ch Hch) as [[Hcase Hfinal]|(_ & _ & j & Hj & Hij)].
  - rewrite Hfinal in Hs. inversion Hs; subst s.
    destruct Hcase as [->|Hc]; [|done]. rewrite Hch0 in Hch. by inversion Hch; subst.
  - rewrite Hij in Hs. by apply (IH j Hj).
Qed.

Section Prefix.
Context `{Collaborators}.
Variable text : list Z.
Variable more : list Z.

Lemma sim_insert (k : nat) (v : hb_script_t) (l l' : list hb_script_t) :
  (k < length l)%nat -> (k < length l')%nat ->
  (forall j, (j < length text)%nat -> l !! j = l' !! j) ->
  forall j, (j < length text)%nat -> <[k:=v]> l !! j = <[k:=v]> l' !! j.
Proof.
  intros Hl Hl' Hag j Hj. destruct (decide (j = k)) as [->|Hne].
  - by rewrite !list_lookup_insert_eq.
  - rewrite !list_lookup_insert_ne by done. by apply Hag.
Qed.

Lemma resolve_step_sim (k : nat) (st st' : resolve_state) :
  (k < length text)%nat ->
  walk_inv text k st -> walk_inv (text ++ more) k st' ->
  walk_sim (length text) st st' ->
  exists st1 st1', resolve_step text k st = Done st1 /\
    resolve_step (text ++ more) k st' = Done st1' /\
    walk_sim (length text) st1 st1'.
Proof.
  intros Hk Hinv Hinv' [Hsc Hidx Hval Hsz Hcells].
  destruct (lookup_lt_is_Some_2 text k Hk) as [ch Hch].
  assert (Hch' : (text ++ more) !! k = Some ch) by by rewrite lookup_app_l.
  assert (Hs : rs_scripts st !! k = Some (hb_unicode_script ch)).
  { rewrite (inv_rest _ _ _ Hinv) by lia. unfold initial_scripts.
    by rewrite list_lookup_fmap, Hch. }
  assert (Hs' : rs_scripts st' !! k = Some (hb_unicode_script ch)).
  { rewrite (inv_rest _ _ _ Hinv') by lia. unfold initial_scripts.
    by rewrite list_lookup_fmap, Hch'. }
  assert (Hlt : (k < length (rs_scripts st))%nat) by by eapply lookup_lt_Some.
  assert (Hlt' : (k < length (rs_scripts st'))%nat) by by eapply lookup_lt_Some.
  pose proof (inv_set _ _ _ Hinv) as Hset.
  pose proof (inv_set _ _ _ Hinv') as Hset'.
  set (s := hb_unicode_script ch) in *.
  destruct (decide (k = 0%nat \/ (s <> HB_SCRIPT_COMMON /\ s <> HB_SCRIPT_INHERITED)))
    as [Hlast|Hnot].
  - assert (Hc : (s =? HB_SCRIPT_COMMON) && negb (last_script_index st =? -1) = false).
    { destruct Hlast as [->|[Hc _]].
      - replace (last_script_index st) with (-1)
          by (symmetry; by apply (inv_index _ _ _ Hinv)).
        apply andb_false_r.
      - apply Z.eqb_neq in Hc. by rewrite Hc. }
    assert (Hi : (s =? HB_SCRIPT_INHERITED) && negb (last_script_index st =? -1) = false).
    { destruct Hlast as [->|[_ Hc']].
      - replace (last_script_index st) with (-1)
          by (symmetry; by apply (inv_index _ _ _ Hinv)).
        apply andb_false_r.
      - apply Z.eqb_neq in Hc'. by rewrite Hc'. }
    eexists _, _. split; [by apply (step_concrete text k st s)|].
    split; [apply (step_concrete (text ++ more) k st' s); try done; by rewrite <- Hidx|].
    split; simpl; done.
  - assert (Hk0 : k <> 0%nat) by tauto.
    assert (Hne : last_script_index st <> -1).
    { intros E. by apply (inv_index _ _ _ Hinv) in E. }
    assert (Hne' : last_script_index st' <> -1) by by rewrite <- Hidx.
    destruct (decide (s = HB_SCRIPT_INHERITED)) as [Hinh|Hninh].
    { eexists _, _. split; [apply (step_inherited text k st); by rewrite <- ?Hinh|].
      split; [apply (step_inherited (text ++ more) k st'); by rewrite <- ?Hinh|].
      split; simpl; try done. rewrite Hval. by apply sim_insert. }
    assert (Hcom : s = HB_SCRIPT_COMMON).
    { destruct (decide (s = HB_SCRIPT_COMMON)); [done | tauto]. }
    rewrite Hcom in Hs, Hs'.
    destruct (Z_lt_dec (get_pair_index ch) 0) as [Hplain|Hpair].
    { eexists _, _. split; [by apply (step_common_plain text k st ch)|].
      split; [by apply (step_common_plain (text ++ more) k st' ch)|].
      split; simpl; try done. rewrite Hval. by apply sim_insert. }
    destruct (IS_OPEN (get_pair_index ch)) eqn:Hopen.
    + pose proof (inv_size _ _ _ Hinv) as Hsize.
      pose proof (inv_size _ _ _ Hinv') as Hsize'.
      eexists _, _. split.
      { apply (step_opener text k st ch); try done.
        - split; [lia | done].
        - rewrite (inv_length_sc _ _ _ Hinv). lia.
        - rewrite (inv_length_pi _ _ _ Hinv). lia.
        - rewrite (inv_capacity _ _ _ Hinv). lia. }
      split.
      { apply (step_opener (text ++ more) k st' ch); try done.
        - split; [lia | done].
        - rewrite (inv_length_sc _ _ _ Hinv'), length_app. lia.
        - rewrite (inv_length_pi _ _ _ Hinv'), length_app. lia.
        - rewrite (inv_capacity _ _ _ Hinv'), length_app. lia. }
      split; simpl; try done.
      * rewrite Hval. by apply sim_insert.
      * by rewrite Hsz.
      * intros m Hm. rewrite <- Hsz, <- Hval.
        destruct (decide (m = S (stack_size (rs_stack st)))) as [->|Hm'].
        -- rewrite !list_lookup_insert_eq; [done | | | |].
           ++ rewrite (inv_length_sc _ _ _ Hinv'), length_app. lia.
           ++ rewrite (inv_length_sc _ _ _ Hinv). lia.
           ++ rewrite (inv_length_pi _ _ _ Hinv'), length_app. lia.
           ++ rewrite (inv_length_pi _ _ _ Hinv). lia.
        -- rewrite !list_lookup_insert_ne by done. apply Hcells. lia.
    + set (pi := Z.land (get_pair_index ch) (Z.lnot 1)).
      destruct (pop_until_match_topmost_fuel (stack_size (rs_stack st))
                  (rs_stack st) pi) as (size1 & Hpop1 & Hle1 & Htop1 & Habove1).
      { lia. }
      { intros m Hm. destruct (inv_cells _ _ _ Hinv m Hm) as (p & _ & _ & _ & Hp & _).
        by exists p. }
      destruct (pop_until_match_topmost_fuel (stack_size (rs_stack st'))
                  (rs_stack st') pi) as (size2 & Hpop2 & Hle2 & Htop2 & Habove2).
      { lia. }
      { intros m Hm. destruct (inv_cells _ _ _ Hinv' m Hm) as (p & _ & _ & _ & Hp & _).
        by exists p. }
      assert (Hsame : size1 = size2).
      { destruct (Nat.lt_trichotomy size1 size2) as [Hlt12|[Heq|Hgt12]]; [|done|].
        - exfalso. apply (Habove1 size2); [lia|].
          rewrite (proj1 (Hcells size2 ltac:(lia))). apply Htop2. lia.
        - exfalso. apply (Habove2 size1); [lia|].
          rewrite <- (proj1 (Hcells size1 ltac:(lia))). apply Htop1. lia. }
      subst size2.
      assert (Hv : exists v,
        (if decide (size1 = 0%nat) then v = last_script_value st
         else stack_scripts (rs_stack st) !! size1 = Some (Some v))).
      { destruct (decide (size1 = 0%nat)) as [Hz|Hnz]; [by eexists|].
        destruct (inv_cells _ _ _ Hinv size1 ltac:(lia))
          as (_ & v & _ & _ & _ & Hv & _). by exists v. }
      destruct Hv as [v Hv].
      assert (Hcl : is_closer ch) by (split; [lia | done]).
      eexists _, _. split.
      { apply (step_closer text k st ch _ Hs Hne Hch Hcl Hpop1 v). simpl. exact Hv. }
      split.
      { apply (step_closer (text ++ more) k st' ch _ Hs' Hne' Hch' Hcl Hpop2 v).
        simpl. destruct (decide (size1 = 0%nat)) as [Hz|Hnz]; [congruence|].
        rewrite <- (proj2 (Hcells size1 ltac:(lia))). exact Hv. }
      split; simpl; try done.
      * by apply sim_insert.
      * intros m Hm. apply Hcells. lia.
Qed.

Hypothesis Hmax : Z.of_nat (length (text ++ more)) <= INT_MAX.

Lemma resolve_walk_sim (k : nat) :
  (k <= length text)%nat ->
  exists st st', resolve_walk text k = Done st /\
    resolve_walk (text ++ more) k = Done st' /\
    walk_inv text k st /\ walk_inv (text ++ more) k st' /\
    walk_sim (length text) st st'.
Proof.
  induction k as [|k IH]; intros Hk.
  - exists (resolve_init text), (resolve_init (text ++ more)).
    split_and!; try done; try apply walk_inv_init.
    split; simpl; try done.
    + intros j Hj. unfold initial_scripts.
      by rewrite !list_lookup_fmap, lookup_app_l.
    + intros m Hm. lia.
  - destruct IH as (st & st' & Hw & Hw' & Hinv & Hinv' & Hsim); [lia|].
    destruct (resolve_step_sim k st st') as (st1 & st1' & Hs1 & Hs1' & Hsim1);
      [lia | done | done | done |].
    exists st1, st1'. rewrite !resolve_walk_S, Hw, Hw'. cbn [bind].
    split_and!; try done.
    + destruct (resolve_step_inv text k st Hinv) as (t & Ht & Hinvt & _); [lia|].
      congruence.
    + destruct (resolve_step_inv (text ++ more) k st' Hinv') as (t & Ht & Hinvt & _).
      { rewrite length_app. lia. }
      congruence.
Qed.
End Prefix.

(** X8. Script resolution reads a paragraph from left to right only: the
    resolved scripts of a paragraph are the first resolved scripts of
    every paragraph that extends it. *)
Theorem resolution_of_prefix `{Collaborators} (text more : list Z) :
  Z.of_nat (length (text ++ more)) <= INT_MAX ->
  exists final final', resolved_scripts text = Done final /\
    resolved_scripts (text ++ more) = Done final' /\
    take (length text) final' = final.
Proof.
  intros Hmax.
  assert (Hmax1 : Z.of_nat (length text) <= INT_MAX).
  { rewrite length_app in Hmax. lia. }
  destruct (resolve_walk_sim text more (length text)) as
    (st & st' & Hw & Hw' & Hinv & Hinv' & Hsim); [lia|].
  destruct (resolve_walk_inv (text ++ more) (length (text ++ more)))
    as (st_n & Hn & Hinv_n); [lia|].
  exists (rs_scripts st), (rs_scripts st_n).
  rewrite !resolved_scripts_walk by done. rewrite Hw, Hn.
  split_and!; [done | done |].
  apply list_eq. intros j.
  destruct (decide (j < length text)%nat) as [Hj|Hj].
  - rewrite lookup_take_lt by done.
    rewrite (resolve_walk_prefix (text ++ more) (length text) (length (text ++ more))
               st' st_n); try done.
    + symmetry. by apply (sim_scripts _ _ _ Hsim).
    + rewrite length_app. lia.
  - rewrite lookup_take_ge by lia. symmetry. apply lookup_ge_None.
    rewrite (inv_length _ _ _ Hinv). lia.
Qed.

(** ** The script spans of a bidi run *)

Lemma adjacent_differ_reverse (chain : list raqm_run_t) :
  adjacent_differ chain -> adjacent_differ (reverse chain).
Proof.
  intros Hadj i r1 r2 H1 H2.
  assert (Hlen : (S i < length chain)%nat).
  { apply lookup_lt_Some in H2. by rewrite length_reverse in H2. }
  rewrite reverse_lookup in H1 by lia. rewrite reverse_lookup in H2 by lia.
  intros Heq. apply (Hadj (length chain - S (S i))%nat r2 r1); [done | | done].
  by replace (S (length chain - S (S i))) with (length chain - S i)%nat by lia.
Qed.

Section BackwardSpans.
Variable scripts : list hb_script_t.
Variable direction : hb_direction_t.
Variable pos : Z.
Variable len : Z.

Lemma backward_spans_step (c : nat) (st st' : split_state) :
  0 <= pos -> Z.of_nat c < len ->
  backward_spans scripts direction pos len (S c) st ->
  split_backward_step scripts direction pos (Z.of_nat c) st = Done st' ->
  backward_spans scripts direction pos len c st'.
Proof.
  intros Hpos Hc [Hdir Hcov Hstart Hfirst Hlen Hlinked Huni Hadj] Hstep.
  unfold split_backward_step in Hstep.
  destruct (load_at scripts (pos + Z.of_nat c)) as [script|] eqn:Hload; [|discriminate].
  apply load_at_inv in Hload. destruct Hload as [_ Hscript].
  cbn [bind] in Hstep.
  assert (Hcons : positions (pos + Z.of_nat c) (len - Z.of_nat c) =
            (pos + Z.of_nat c) :: positions (pos + Z.of_nat (S c)) (len - Z.of_nat (S c))).
  { replace (len - Z.of_nat c) with (len - Z.of_nat (S c) + 1) by lia.
    rewrite positions_cons by lia. do 2 f_equal. lia. }
  assert (Hnonneg : 0 <= run_len (current st)).
  { destruct (decide (Z.of_nat (S c) = len)) as [Hlast|Hmore].
    - destruct (Hfirst Hlast) as (_ & -> & _). done.
    - specialize (Hlen ltac:(lia)). lia. }
  destruct (script =? run_script (current st)) eqn:Heq; simpl in Hstep;
    inversion Hstep; subst st'; clear Hstep.
  - (* the current node grows downwards *)
    apply Z.eqb_eq in Heq.
    set (cur' := {| run_pos := pos + Z.of_nat c;
                    run_len := run_len (current st) + 1;
                    run_direction := run_direction (current st);
                    run_script := run_script (current st);
                    run_font := run_font (current st);
                    run_buffer := run_buffer (current st) |}).
    assert (Hpositions : run_positions cur' =
              (pos + Z.of_nat c) :: run_positions (current st)).
    { unfold run_positions. simpl. rewrite positions_cons by done. f_equal.
      destruct (decide (Z.of_nat (S c) = len)) as [Hlast|Hmore].
      - destruct (Hfirst Hlast) as (_ & -> & _). by rewrite !positions_nil by lia.
      - rewrite Hstart by lia. f_equal. lia. }
    split; unfold nodes_of in *; simpl.
    + rewrite Forall_snoc in Hdir. destruct Hdir as [Hd1 Hd2].
      rewrite Forall_snoc. split; [exact Hd1 | exact Hd2].
    + rewrite reverse_snoc in *. simpl in *.
      by rewrite Hpositions, Hcons, <- Hcov.
    + done.
    + intros ?; lia.
    + intros _. lia.
    + exact Hlinked.
    + rewrite Forall_snoc in Huni. destruct Huni as [Hu1 Hu2].
      rewrite Forall_snoc. split; [exact Hu1|].
      intros p Hp. rewrite Hpositions in Hp. apply elem_of_cons in Hp.
      destruct Hp as [->|Hp]; [|by apply Hu2].
      simpl. rewrite <- Heq. exact Hscript.
    + apply (adjacent_differ_last _ (current st)); [exact Hadj | reflexivity].
  - (* a new node is linked *)
    apply Z.eqb_neq in Heq.
    assert (Hmore : Z.of_nat (S c) < len).
    { destruct (decide (Z.of_nat (S c) = len)) as [Hlast|Hmore]; [|lia].
      exfalso. destruct (Hfirst Hlast) as (_ & _ & Hs).
      apply Heq. symmetry. apply Hs.
      by replace (pos + len - 1) with (pos + Z.of_nat c) by lia. }
    split; unfold nodes_of in *; simpl.
    + rewrite Forall_snoc. split; [exact Hdir | reflexivity].
    + rewrite reverse_snoc. simpl. rewrite Hcov, Hcons.
      unfold run_positions. simpl. f_equal. lia.
    + done.
    + intros ?; lia.
    + intros _. lia.
    + rewrite Forall_snoc. split; [exact Hlinked | by apply Hlen].
    + rewrite Forall_snoc. split; [exact Huni|].
      intros p Hp. unfold run_positions in Hp. simpl in Hp.
      apply elem_of_positions in Hp.
      replace p with (pos + Z.of_nat c) by lia. done.
    + apply adjacent_differ_snoc; [done|]. simpl. congruence.
Qed.
End BackwardSpans.

Lemma hb_dir_backward (rq : raqm_t) (level : Z) :
  HB_DIRECTION_IS_BACKWARD (_raqm_hb_dir rq level) = true <->
  base_dir rq <> RAQM_DIRECTION_TTB /\ Z.odd level = true.
Proof.
  unfold _raqm_hb_dir, FRIBIDI_LEVEL_IS_RTL.
  replace (Z.land level 1) with (Z.b2z (Z.odd level)).
  2: { change 1 with (Z.ones 1). rewrite Z.land_ones by lia.
       change (2 ^ 1) with 2. rewrite Zmod_odd. by destruct (Z.odd level). }
  destruct (decide (base_dir rq = RAQM_DIRECTION_TTB)) as [Httb|Hn].
  - split; [by vm_compute | tauto].
  - destruct (Z.odd level); simpl; split; try done; try (by vm_compute).
    by intros [_ ?].
Qed.

Section SplitSpans.
Variable rq : raqm_t.
Variable scripts : list hb_script_t.
Variable r : FriBidiRun.
Hypothesis Hpos : 0 <= bidi_pos r.
Hypothesis Hlen : 1 <= bidi_len r.
Hypothesis Hin : bidi_pos r + bidi_len r <= Z.of_nat (length scripts).

Lemma split_bidi_run_spans :
  exists nodes, split_bidi_run rq scripts r = Done nodes /\
    nodes <> [] /\
    Forall (fun run => run_direction run = _raqm_hb_dir rq (bidi_level r) /\
                       run_font run = None /\ run_buffer run = None) nodes /\
    script_spans_of scripts r
      (if HB_DIRECTION_IS_BACKWARD (_raqm_hb_dir rq (bidi_level r))
       then reverse nodes else nodes).
Proof.
  unfold split_bidi_run.
  set (direction := _raqm_hb_dir rq (bidi_level r)).
  destruct (HB_DIRECTION_IS_BACKWARD direction).
  - destruct (load_at_done scripts (bidi_pos r + bidi_len r - 1))
      as (script & -> & Hscript); [lia|].
    cbn [bind].
    match goal with |- context [for_down ?b ?n ?s] =>
      destruct (for_down_inv
        (fun k t => backward_spans scripts direction (bidi_pos r) (bidi_len r) k t /\
           Forall (fun run => run_font run = None /\ run_buffer run = None)
             (nodes_of t)) b n s)
        as (st & -> & Hinv & Hnull) end.
    + split.
      * split; unfold nodes_of; simpl.
        -- by apply Forall_singleton.
        -- unfold run_positions. simpl. rewrite !positions_nil by lia. done.
        -- lia.
        -- intros _. split_and!; [done | done |]. intros s Hs. congruence.
        -- lia.
        -- done.
        -- apply Forall_singleton. intros p Hp. unfold run_positions in Hp.
           simpl in Hp. rewrite positions_nil in Hp by lia.
           by apply elem_of_nil in Hp.
        -- intros i r1 r2 _ H2. by destruct i.
      * unfold nodes_of. simpl. by apply Forall_singleton.
    + intros c t Hc [Hinv Hnull].
      destruct (backward_step_done scripts direction (bidi_pos r) (Z.of_nat c) t)
        as [t' Ht']; [lia|].
      exists t'. split; [done|]. split.
      * apply (backward_spans_step scripts direction (bidi_pos r) (bidi_len r) c t);
          (done || lia).
      * clear Hinv. unfold split_backward_step in Ht'.
        destruct (load_at scripts _) as [s|]; [|discriminate]. cbn [bind] in Ht'.
        unfold nodes_of in *. rewrite Forall_snoc in Hnull. destruct Hnull as [Hn1 Hn2].
        destruct (negb _); inversion Ht'; subst t'; simpl.
        -- rewrite !Forall_snoc. done.
        -- rewrite Forall_snoc. done.
    + cbn [bind]. exists (nodes_of st). split; [done|].
      destruct Hinv as [Hdir Hcov _ _ Hlength Hlinked Huni Hadj].
      split_and!.
      * unfold nodes_of. by destruct (linked st).
      * apply Forall_forall. intros run Hrun. split.
        -- by apply (proj1 (Forall_forall _ _) Hdir).
        -- by apply (proj1 (Forall_forall _ _) Hnull).
      * split_and!.
        -- rewrite Hcov. unfold bidi_positions. simpl.
           by rewrite Z.add_0_r, Z.sub_0_r.
        -- apply Forall_reverse. apply Forall_forall. intros run Hrun. split.
           ++ unfold nodes_of in Hrun. apply elem_of_app in Hrun.
              destruct Hrun as [Hrun|Hrun].
              ** by apply (proj1 (Forall_forall _ _) Hlinked).
              ** apply list_elem_of_singleton in Hrun. subst run. apply Hlength. lia.
           ++ by apply (proj1 (Forall_forall _ _) Huni).
        -- by apply adjacent_differ_reverse.
  - destruct (load_at_done scripts (bidi_pos r)) as (script & -> & Hscript); [lia|].
    cbn [bind].
    match goal with |- context [for_loop ?b ?lo ?n ?s] =>
      destruct (for_loop_inv
        (fun k t => forward_inv scripts direction (bidi_pos r) k t /\
           Forall (fun run => run_font run = None /\ run_buffer run = None)
             (nodes_of t)) b lo n s)
        as (st & -> & Hinv & Hnull) end.
    + split.
      * split; unfold nodes_of; simpl.
        -- by apply Forall_singleton.
        -- unfold run_positions. simpl. rewrite !positions_nil by lia. done.
        -- lia.
        -- intros _. split_and!; [done | done |]. intros s Hs. congruence.
        -- lia.
        -- done.
        -- apply Forall_singleton. intros p Hp. unfold run_positions in Hp.
           simpl in Hp. rewrite positions_nil in Hp by lia.
           by apply elem_of_nil in Hp.
        -- intros i r1 r2 _ H2. by destruct i.
      * unfold nodes_of. simpl. by apply Forall_singleton.
    + intros j t Hj [Hinv Hnull].
      destruct (forward_step_done scripts direction (bidi_pos r) j t)
        as [t' Ht']; [lia|].
      exists t'. split; [done|]. split.
      * by apply (forward_step_inv scripts direction (bidi_pos r) j t).
      * clear Hinv. unfold split_forward_step in Ht'.
        destruct (load_at scripts _) as [s|]; [|discriminate]. cbn [bind] in Ht'.
        unfold nodes_of in *. rewrite Forall_snoc in Hnull. destruct Hnull as [Hn1 Hn2].
        destruct (negb _); inversion Ht'; subst t'; simpl.
        -- rewrite !Forall_snoc. done.
        -- rewrite Forall_snoc. done.
    + cbn [bind]. exists (nodes_of st). split; [done|].
      destruct Hinv as [Hdir Hcov _ _ Hlength Hlinked Huni Hadj].
      split_and!.
      * unfold nodes_of. by destruct (linked st).
      * apply Forall_forall. intros run Hrun. split.
        -- by apply (proj1 (Forall_forall _ _) Hdir).
        -- by apply (proj1 (Forall_forall _ _) Hnull).
      * split_and!.
        -- rewrite Hcov. unfold bidi_positions. simpl. by rewrite Z2Nat.id by lia.
        -- apply Forall_forall. intros run Hrun. split.
           ++ unfold nodes_of in Hrun. apply elem_of_app in Hrun.
              destruct Hrun as [Hrun|Hrun].
              ** by apply (proj1 (Forall_forall _ _) Hlinked).
              ** apply list_elem_of_singleton in Hrun. subst run. apply Hlength. lia.
           ++ by apply (proj1 (Forall_forall _ _) Huni).
        -- done.
Qed.
End SplitSpans.

(** X9. Splitting one bidi run that lies inside the script array never
    faults and gives its maximal same-script spans, each with the
    direction of the bidi run and with no font and no buffer yet. The
    spans are linked from the first position to the last, except for a
    bidi run of odd level in a paragraph whose base direction is not TTB:
    there they are linked from the last position to the first. *)
Theorem split_bidi_run_gives_script_spans (rq : raqm_t)
    (scripts : list hb_script_t) (r : FriBidiRun) :
  0 <= bidi_pos r -> 1 <= bidi_len r ->
  bidi_pos r + bidi_len r <= Z.of_nat (length scripts) ->
  exists nodes, split_bidi_run rq scripts r = Done nodes /\
    nodes <> [] /\
    Forall (fun run => run_direction run = _raqm_hb_dir rq (bidi_level r) /\
                       run_font run = None /\ run_buffer run = None) nodes /\
    script_spans_of scripts r
      (if decide (base_dir rq <> RAQM_DIRECTION_TTB /\ Z.odd (bidi_level r) = true)
       then reverse nodes else nodes).
Proof.
  intros Hpos Hlen Hin.
  destruct (split_bidi_run_spans rq scripts r Hpos Hlen Hin)
    as (nodes & Hsplit & Hne & Hall & Hspans).
  exists nodes. split_and!; [done | done | done |].
  destruct (HB_DIRECTION_IS_BACKWARD _) eqn:Hb.
  - apply hb_dir_backward in Hb. by rewrite decide_True.
  - rewrite decide_False; [done|]. intros Hback.
    apply hb_dir_backward in Hback. congruence.
Qed.

Lemma positions_inj (pos pos' len len' : Z) :
  1 <= len -> positions pos len = positions pos' len' ->
  pos = pos' /\ len = len'.
Proof.
  intros Hlen Heq.
  assert (Hl : Z.to_nat len = Z.to_nat len').
  { by rewrite <- (length_positions pos len), Heq, length_positions. }
  split; [|lia].
  replace len with (len - 1 + 1) in Heq by lia.
  replace len' with (len' - 1 + 1) in Heq by lia.
  rewrite !positions_cons in Heq by lia. by inversion Heq.
Qed.

(** Spans of one and the same script that differ from their neighbours
    are one span at most. *)
Lemma script_spans_single (scripts : list hb_script_t) (s : hb_script_t)
    (visual : list raqm_run_t) :
  Forall (fun x => x = s) scripts ->
  Forall (fun run => 1 <= run_len run /\ uniform_script scripts run) visual ->
  adjacent_differ visual ->
  (length visual <= 1)%nat /\ Forall (fun run => run_script run = s) visual.
Proof.
  intros Hall Hspans Hadj.
  assert (Hs : Forall (fun run => run_script run = s) visual).
  { eapply Forall_impl; [exact Hspans|]. intros run [Hl Hu].
    assert (Hp : run_pos run ∈ run_positions run).
    { apply elem_of_positions. lia. }
    specialize (Hu _ Hp).
    apply (proj1 (Forall_forall _ _) Hall (run_script run)).
    by eapply list_elem_of_lookup_2. }
  split; [|done].
  destruct visual as [|r1 [|r2 rest]]; simpl; [lia | lia |].
  exfalso. apply (Hadj 0%nat r1 r2); [done | done |].
  apply Forall_cons in Hs. destruct Hs as [H1 Hs].
  apply Forall_cons in Hs. destruct Hs as [H2 _]. congruence.
Qed.

(** X10. Over a script array that holds one script only, itemization makes
    one shape run for each bidi run, in the order of the bidi runs, with
    the position and the length of the bidi run, the direction of its
    level, and no font and no buffer. *)
Theorem one_script_one_run_per_bidi_run (rq : raqm_t)
    (scripts : list hb_script_t) (s : hb_script_t)
    (bidi_runs : list FriBidiRun) :
  Forall (fun x => x = s) scripts ->
  Forall (fun r => 0 <= bidi_pos r /\ 1 <= bidi_len r /\
                   bidi_pos r + bidi_len r <= Z.of_nat (length scripts)) bidi_runs ->
  itemize_chain rq scripts bidi_runs =
  Done (map (fun r => {| run_pos := bidi_pos r;
                         run_len := bidi_len r;
                         run_direction := _raqm_hb_dir rq (bidi_level r);
                         run_script := s;
                         run_font := None;
                         run_buffer := None |}) bidi_runs).
Proof.
  intros Hall Hrange.
  induction Hrange as [|r rest (Hpos & Hlen & Hin) _ IH]; simpl; [done|].
  destruct (split_bidi_run_spans rq scripts r Hpos Hlen Hin)
    as (nodes & -> & Hne & Hnodes & Hcov & Hspans & Hadj).
  rewrite IH. cbn [bind]. do 2 f_equal.
  set (visual := if HB_DIRECTION_IS_BACKWARD _ then reverse nodes else nodes) in *.
  destruct (script_spans_single scripts s visual Hall Hspans Hadj) as [Hone Hs].
  assert (Hvisual : visual = nodes).
  { subst visual. destruct (HB_DIRECTION_IS_BACKWARD _); [|done].
    rewrite length_reverse in Hone.
    destruct nodes as [|n1 [|n2 more]]; [done | done | simpl in Hone; lia]. }
  rewrite Hvisual in *.
  destruct nodes as [|node [|n2 more]]; [done | | simpl in Hone; lia].
  simpl in Hcov. rewrite app_nil_r in Hcov.
  rewrite Forall_singleton in Hnodes, Hspans, Hs.
  destruct Hnodes as (Hd & Hf & Hb). destruct Hspans as [Hl _].
  apply positions_inj in Hcov; [|done]. destruct Hcov as [Hp Hlen'].
  destruct node. simpl in *. by subst.
Qed.

(** ** Outcomes of layout and of the entry points *)

Section LayoutOutcome.
Context `{Collaborators}.

Lemma itemize_fails (rq rq' : raqm_t) :
  _raqm_itemize rq = Done (false, rq') ->
  rq' = rq /\ itemize_max_level rq < 0.
Proof.
  unfold _raqm_itemize, itemize_max_level.
  destruct (itemize_bidi rq) as [[[max_level types] levels] par_type].
  destruct (max_level <? 0) eqn:E; [intros [= <-]; split; [done | lia]|].
  destruct (_raqm_resolve_scripts rq) as [[ok rq1]|] eqn:Hres; [|discriminate].
  cbn [bind]. apply resolve_scripts_inv in Hres.
  destruct Hres as (-> & scripts1 & -> & _). simpl.
  destruct (itemize_chain _ _ _) as [chain|]; [|discriminate].
  cbn [bind]. destruct chain; discriminate.
Qed.

Lemma itemize_succeeds_level (rq r1 : raqm_t) :
  _raqm_itemize rq = Done (true, r1) -> 0 <= itemize_max_level rq.
Proof.
  unfold _raqm_itemize, itemize_max_level.
  destruct (itemize_bidi rq) as [[[max_level types] levels] par_type].
  destruct (max_level <? 0) eqn:E; [discriminate | lia].
Qed.
End LayoutOutcome.

(** X11. Layout fails on an empty paragraph and when the bidi engine reports
    a negative maximum level, and on nothing else; a failed layout leaves
    the context as it was. A successful layout writes the script array and
    the run list only: it keeps the reference count, the text, the base
    direction, the features, the font and a script array that was there
    before, and it leaves a script array and at least one run. *)
Theorem layout_failure_changes_nothing `{Collaborators} (rq : raqm_t) :
  (forall rq', raqm_layout (Some rq) = Done (false, rq') ->
     rq' = Some rq /\ (text_len rq = 0%nat \/ itemize_max_level rq < 0)) /\
  (text_len rq = 0%nat \/ itemize_max_level rq < 0 ->
   raqm_layout (Some rq) = Done (false, Some rq)) /\
  (forall rq', raqm_layout (Some rq) = Done (true, rq') ->
     exists r', rq' = Some r' /\
       text_len rq <> 0%nat /\ 0 <= itemize_max_level rq /\
       ref_count r' = ref_count rq /\ text r' = text rq /\
       base_dir r' = base_dir rq /\ features r' = features rq /\
       font r' = font rq /\ glyphs r' = glyphs rq /\
       is_Some (scripts r') /\ runs r' <> [] /\
       (forall s, scripts rq = Some s -> scripts r' = Some s)).
Proof.
  split_and!.
  - intros rq'. unfold raqm_layout.
    destruct (decide (text_len rq = 0%nat)) as [Hz|Hnz].
    { intros [= <-]. split; [done | by left]. }
    destruct (_raqm_itemize rq) as [[ok r1]|] eqn:Hitem; [|discriminate].
    cbn [bind]. destruct ok; simpl; [discriminate|].
    intros [= <-]. apply itemize_fails in Hitem. destruct Hitem as [-> Hlevel].
    split; [done | by right].
  - intros Hcase. unfold raqm_layout.
    destruct (decide (text_len rq = 0%nat)) as [Hz|Hnz]; [done|].
    destruct Hcase as [Hz|Hlevel]; [done|].
    unfold _raqm_itemize. unfold itemize_max_level in Hlevel.
    destruct (itemize_bidi rq) as [[[max_level types] levels] par_type].
    destruct (max_level <? 0) eqn:E; [done | lia].
  - intros rq' Hlayout.
    assert (exists r', rq' = Some r') as [r' ->].
    { unfold raqm_layout in Hlayout.
      destruct (decide _); [discriminate|].
      destruct (_raqm_itemize rq) as [[ok r1]|]; [|discriminate].
      cbn [bind] in Hlayout. destruct ok; simpl in Hlayout; [|discriminate].
      inversion Hlayout. by eexists. }
    exists r'. split; [done|].
    destruct (layout_inv rq r' Hlayout) as (Hlen & r1 & Hitem & ->).
    pose proof (itemize_succeeds_level rq r1 Hitem) as Hlevel.
    destruct (itemize_inv rq r1 Hitem) as (s & chain & Hfrom & _ & Hne & ->).
    simpl. split_and!; try done.
    + lia.
    + destruct (runs rq); [by destruct chain | done].
    + intros s' Hs'. destruct Hfrom as [Hs|[Hs _]]; congruence.
Qed.

Lemma bidi_runs_partition_range (n : nat) (bidi_runs : list FriBidiRun) :
  bidi_runs_partition n bidi_runs ->
  Forall (fun r => 0 <= bidi_pos r /\ 1 <= bidi_len r /\
                   bidi_pos r + bidi_len r <= Z.of_nat n) bidi_runs.
Proof.
  intros Hpart.
  destruct (bidi_runs_partition_cover n bidi_runs Hpart) as [Hcov _].
  destruct Hpart as (levels & <- & Hperm). unfold bidi_runs_of_levels in Hperm.
  destruct (level_spans_from_spec levels 0) as (_ & Hall & _).
  rewrite <- Hperm in Hall. apply Forall_forall. intros r Hr.
  destruct (proj1 (Forall_forall _ _) Hall r Hr) as [Hpos Hlen].
  split_and!; [done | done |].
  assert (Hlast : bidi_pos r + bidi_len r - 1 ∈ flat_map bidi_positions bidi_runs).
  { apply list_elem_of_In, in_flat_map. exists r. split; [by apply list_elem_of_In|].
    apply list_elem_of_In, elem_of_positions. lia. }
  rewrite Hcov in Hlast. apply elem_of_positions in Hlast. lia.
Qed.

Lemma itemize_chain_spans (rq : raqm_t) (scripts : list hb_script_t)
    (bidi_runs : list FriBidiRun) :
  Forall (fun r => 0 <= bidi_pos r /\ 1 <= bidi_len r /\
                   bidi_pos r + bidi_len r <= Z.of_nat (length scripts)) bidi_runs ->
  exists chain, itemize_chain rq scripts bidi_runs = Done chain /\
    (length bidi_runs <= length chain)%nat /\
    Forall (fun run => 1 <= run_len run /\ uniform_script scripts run /\
                       run_font run = None /\ run_buffer run = None) chain.
Proof.
  induction 1 as [|r rest (Hpos & Hlen & Hin) _ (more & Hmore & Hcount & Hall)]; simpl.
  - exists []. split_and!; [done | done | by constructor].
  - destruct (split_bidi_run_spans rq scripts r Hpos Hlen Hin)
      as (nodes & -> & Hne & Hnodes & _ & Hspans & _).
    rewrite Hmore. cbn [bind]. exists (nodes ++ more). split_and!.
    + done.
    + rewrite length_app. destruct nodes; [done | simpl; lia].
    + apply Forall_app. split; [|done].
      assert (Hspans' : Forall (fun run => 1 <= run_len run /\
                                           uniform_script scripts run) nodes).
      { destruct (HB_DIRECTION_IS_BACKWARD _); [|done].
        apply Forall_reverse in Hspans. by rewrite reverse_involutive in Hspans. }
      apply Forall_forall. intros run Hrun.
      destruct (proj1 (Forall_forall _ _) Hnodes run Hrun) as (_ & Hf & Hb).
      destruct (proj1 (Forall_forall _ _) Hspans' run Hrun) as (Hl & Hu).
      done.
Qed.

(** A first layout under the contract of the bidi runs goes through and
    leaves well-formed runs. *)
Lemma first_layout_runs `{Collaborators} (rq : raqm_t) :
  (1 <= text_len rq)%nat -> scripts rq = None -> runs rq = [] ->
  0 <= itemize_max_level rq ->
  bidi_runs_partition (text_len rq) (itemize_bidi_runs rq) ->
  exists rq' scripts',
    raqm_layout (Some rq) = Done (true, Some rq') /\
    resolved_scripts (text rq) = Done scripts' /\
    scripts rq' = Some scripts' /\
    (1 <= length (itemize_bidi_runs rq) <= length (runs rq'))%nat /\
    Forall (fun run =>
      1 <= run_len run /\ uniform_script scripts' run /\
      run_font run = None /\
      run_buffer run =
        Some (snd (hb_shape_full (font rq) (text rq) (run_pos run) (run_len run)
                     (run_script run) (run_direction run) (features rq))))
      (runs rq').
Proof.
  intros Hlen Hnone Hruns Hlevel Hpart.
  destruct (resolved_scripts_done (text rq)) as (scripts' & Hres & Hlength).
  pose proof (bidi_runs_partition_range _ _ Hpart) as Hrange.
  assert (Hsome : (1 <= length (itemize_bidi_runs rq))%nat).
  { destruct (bidi_runs_partition_cover _ _ Hpart) as [Hcov _].
    destruct (itemize_bidi_runs rq); [|simpl; lia].
    apply Permutation_length in Hcov. rewrite length_positions in Hcov.
    simpl in Hcov. lia. }
  set (r1 := set_scripts rq (Some scripts')).
  destruct (itemize_chain_spans r1 scripts' (itemize_bidi_runs rq))
    as (chain & Hchain & Hcount & Hall).
  { eapply Forall_impl; [exact Hrange|]. unfold text_len in *.
    intros r (? & ? & ?). rewrite Hlength. done. }
  assert (Hne : chain <> []) by (destruct chain; [simpl in Hcount; lia | done]).
  exists (set_runs r1 (map (shape_run r1) chain)), scripts'.
  split_and!; try done.
  - unfold raqm_layout. rewrite decide_False by lia.
    unfold _raqm_itemize. unfold itemize_max_level in Hlevel.
    destruct (itemize_bidi rq) as [[[max_level types] levels] par_type] eqn:Hbidi.
    destruct (max_level <? 0) eqn:E; [lia|].
    unfold _raqm_resolve_scripts. rewrite Hnone, Hres. cbn [bind]. simpl.
    fold (set_scripts rq (Some scripts')). fold r1. rewrite Hchain. cbn [bind].
    destruct chain as [|node chain']; [done|].
    subst r1. simpl. rewrite Hruns. done.
  - simpl. rewrite length_map. lia.
  - simpl. apply Forall_fmap. eapply Forall_impl; [exact Hall|].
    intros run (Hl & Hu & Hf & Hb). simpl. done.
Qed.

(** X12. A first layout of a non-empty paragraph whose bidi runs meet the
    contract of the reordering never faults and succeeds, whatever the
    base direction and the levels: it leaves the resolved scripts, at
    least one run for each bidi run, and every run has one script at all
    of its positions, at least one position, no font of its own, and the
    buffer that the shaper has filled for it from the font, the text and
    the features of the context. *)
Theorem first_layout_succeeds `{Collaborators} (rq : raqm_t) :
  (1 <= text_len rq)%nat -> scripts rq = None -> runs rq = [] ->
  0 <= itemize_max_level rq ->
  bidi_runs_partition (text_len rq) (itemize_bidi_runs rq) ->
  exists rq' scripts',
    raqm_layout (Some rq) = Done (true, Some rq') /\
    resolved_scripts (text rq) = Done scripts' /\
    scripts rq' = Some scripts' /\
    (1 <= length (itemize_bidi_runs rq) <= length (runs rq'))%nat /\
    Forall (fun run =>
      1 <= run_len run /\ uniform_script scripts' run /\
      run_font run = None /\
      run_buffer run =
        Some (snd (hb_shape_full (font rq) (text rq) (run_pos run) (run_len run)
                     (run_script run) (run_direction run) (features rq))))
      (runs rq').
Proof. apply first_layout_runs. Qed.

Lemma collect_glyphs_shape_run `{Collaborators} (rq : raqm_t)
    (chain : list raqm_run_t) :
  collect_glyphs (map (shape_run rq) chain) =
  Done (flat_map (shaped_glyphs rq) (map (shape_run rq) chain)).
Proof.
  induction chain as [|run chain IH]; simpl; [done|].
  rewrite IH. cbn [bind]. done.
Qed.

(** X13. After a successful layout, [raqm_get_glyphs] never faults: it
    returns, in the order of the runs, one glyph record for each entry
    that the shaper has put into the buffer of each run, with the glyph
    id, the advances, the offsets and the cluster of that entry, it stores
    their number in the length cell, and it keeps the array in the
    context. *)
Theorem glyphs_are_shaper_output `{Collaborators} (rq rq' : raqm_t) (cell : Z) :
  raqm_layout (Some rq) = Done (true, Some rq') ->
  raqm_get_glyphs (Some rq') (Some cell) =
    Done (Some (flat_map (shaped_glyphs rq) (runs rq')),
          Some (Z.of_nat (length (flat_map (shaped_glyphs rq) (runs rq')))),
          Some (set_glyphs rq' (Some (flat_map (shaped_glyphs rq) (runs rq'))))).
Proof.
  intros Hlayout.
  destruct (layout_inv rq rq' Hlayout) as (_ & r1 & Hitem & Hrq').
  destruct (itemize_inv rq r1 Hitem) as (s & chain & _ & _ & _ & Hr1).
  assert (Hsame : forall run, shaped_glyphs r1 run = shaped_glyphs rq run).
  { intros run. unfold shaped_glyphs. by rewrite Hr1. }
  assert (Hruns : runs rq' = map (shape_run r1) (runs r1)) by by rewrite Hrq'.
  unfold raqm_get_glyphs. rewrite Hruns, collect_glyphs_shape_run. cbn [bind].
  rewrite (flat_map_ext _ _ Hsame). unfold set_glyphs. by rewrite Hruns.
Qed.

(** X14. A run list that is there is never replaced: when the context has
    runs already, a successful layout links a new chain for the text and
    the direction of the moment and drops it; the runs keep their
    positions, lengths, directions and scripts, and only their buffers are
    filled again, from the font, the text and the features of the
    moment. *)
Theorem layout_keeps_existing_runs `{Collaborators} (rq rq' : raqm_t) :
  runs rq <> [] ->
  raqm_layout (Some rq) = Done (true, Some rq') ->
  runs rq' = map (shape_run rq) (runs rq) /\
  map (fun run => (run_pos run, run_len run, run_direction run, run_script run))
    (runs rq') =
  map (fun run => (run_pos run, run_len run, run_direction run, run_script run))
    (runs rq) /\
  Forall (fun run => run_buffer run = Some
    (snd (hb_shape_full (font rq) (text rq) (run_pos run) (run_len run)
            (run_script run) (run_direction run) (features rq)))) (runs rq').
Proof.
  intros Hruns Hlayout.
  destruct (layout_inv rq rq' Hlayout) as (_ & r1 & Hitem & ->).
  destruct (itemize_inv rq r1 Hitem) as (s & chain & _ & _ & _ & ->).
  simpl. destruct (runs rq) as [|run rest] eqn:Hr; [done|].
  split_and!.
  - apply map_ext. intros a. by apply shape_run_ext.
  - by rewrite map_map.
  - apply Forall_fmap, Forall_forall. intros a _. done.
Qed.

Section Features.
Context `{Collaborators}.

Lemma add_features_some (r : raqm_t) (fs : list string) :
  add_features (Some r) fs =
  Done (Some (set_features r
    (features r ++ omap (fun p => hb_feature_from_string p (-1)) fs))).
Proof.
  revert r. induction fs as [|p rest IH]; intros r; simpl.
  - rewrite app_nil_r. by destruct r.
  - unfold raqm_add_font_feature.
    destruct (hb_feature_from_string p (-1)) as [fea|]; cbn [bind snd].
    + rewrite IH. simpl. unfold set_features. simpl. by rewrite <- app_assoc.
    + apply IH.
Qed.

Lemma add_features_none (fs : list string) :
  add_features None fs =
  match omap (fun p => hb_feature_from_string p (-1)) fs with
  | [] => Done None
  | _ :: _ => Fault
  end.
Proof.
  induction fs as [|p rest IH]; simpl; [done|].
  unfold raqm_add_font_feature.
  destruct (hb_feature_from_string p (-1)) as [fea|]; cbn [bind snd]; [done|].
  apply IH.
Qed.
End Features.

(** X15. The loop of [raqm_shape_u32] over the feature strings appends to
    the feature array, in their order, the features of the strings that the
    parser accepts, skips the others, and changes nothing else of the
    context; on a null context it faults as soon as the parser accepts a
    string. *)
Theorem add_features_appends_parsed `{Collaborators} (fs : list string) :
  (forall r, add_features (Some r) fs =
     Done (Some (set_features r
       (features r ++ omap (fun p => hb_feature_from_string p (-1)) fs)))) /\
  add_features None fs =
    (if decide (Forall (fun p => hb_feature_from_string p (-1) = None) fs)
     then Done None else Fault).
Proof.
  split; [intros r; apply add_features_some|].
  rewrite add_features_none.
  destruct (decide (Forall _ fs)) as [Hall|Hnot].
  - induction Hall as [|p rest Hp _ IH]; simpl; [done|]. by rewrite Hp.
  - induction fs as [|p rest IH]; simpl.
    + exfalso. apply Hnot. constructor.
    + destruct (hb_feature_from_string p (-1)) as [fea|] eqn:Hp; [done|].
      apply IH. intros Hall. apply Hnot. by constructor.
Qed.

(** X16. [raqm_shape_u32] on a length of 0 returns no glyphs and a null
    array, whatever the text, the face, the direction and the features
    are; on a negative length, which the conversion to [size_t] turns into
    a length beyond the end of any text, the copy loop of [raqm_set_text]
    runs off the text. *)
Theorem shape_u32_degenerate_lengths `{Collaborators} (text' : list Z)
    (length : Z) (face : FT_Face) (direction : raqm_direction_t)
    (features' : option (list string)) :
  (length = 0 ->
   raqm_shape_u32 text' length face direction features' = Done (0, None)) /\
  (- 2147483648 <= length < 0 ->
   Z.of_nat (List.length text') < 18446744071562067968 ->
   raqm_shape_u32 text' length face direction features' = Fault).
Proof.
  split.
  - intros ->. unfold raqm_shape_u32.
    change (0 `mod` 18446744073709551616) with 0. unfold raqm_set_text.
    destruct (Z.ltb_spec (Z.of_nat (List.length text')) 0); [exfalso; lia|].
    cbn [bind]. simpl.
    destruct features' as [fs|].
    + rewrite add_features_some. cbn [bind]. simpl. done.
    + by cbn [bind].
  - intros Hneg Hshort. unfold raqm_shape_u32.
    assert (Hlen : length `mod` 18446744073709551616 = length + 18446744073709551616).
    { symmetry. apply (Z.mod_unique_pos _ _ (-1)); lia. }
    rewrite Hlen. unfold raqm_set_text.
    destruct (Z.ltb_spec (Z.of_nat (List.length text'))
                (length + 18446744073709551616)); [done | exfalso; lia].
Qed.

Lemma iter_reference (n : nat) (r : raqm_t) :
  Nat.iter n raqm_reference (Some r) =
  Some (set_ref_count r (ref_count r + Z.of_nat n)).
Proof.
  induction n as [|n IH].
  - simpl. rewrite Z.add_0_r. by destruct r.
  - rewrite Nat.iter_succ, IH. simpl. unfold set_ref_count. do 2 f_equal. lia.
Qed.

Lemma iter_destroy (n : nat) (r : raqm_t) :
  Z.of_nat n < ref_count r ->
  Nat.iter n raqm_destroy (Some r) =
  Some (set_ref_count r (ref_count r - Z.of_nat n)).
Proof.
  induction n as [|n IH]; intros Hn.
  - simpl. rewrite Z.sub_0_r. by destruct r.
  - rewrite Nat.iter_succ, IH by lia. simpl.
    destruct (Z.eqb_spec (ref_count r - Z.of_nat n - 1) 0); [exfalso; lia|].
    unfold set_ref_count. do 2 f_equal. lia.
Qed.

(** X17. Reference counting: a context with a count of at least 1 is still
    there after fewer calls of [raqm_destroy] than its count, with the
    count lowered by their number and nothing else changed, and is gone
    with the call that brings the count to 0; so any number of calls of
    [raqm_reference] followed by as many of [raqm_destroy] gives the
    context back, and a new context is gone with the first
    [raqm_destroy]. *)
Theorem reference_destroy_round_trip (r : raqm_t) (n : nat) :
  1 <= ref_count r -> ref_count r + Z.of_nat n <= INT_MAX ->
  Nat.iter n raqm_destroy (Nat.iter n raqm_reference (Some r)) = Some r /\
  (forall k, Z.of_nat k < ref_count r ->
     Nat.iter k raqm_destroy (Some r) =
       Some (set_ref_count r (ref_count r - Z.of_nat k))) /\
  Nat.iter (Z.to_nat (ref_count r)) raqm_destroy (Some r) = None /\
  raqm_destroy (Some raqm_create) = None.
Proof.
  intros Hcount Hmax. split_and!.
  - rewrite iter_reference, iter_destroy by (simpl; lia).
    simpl. unfold set_ref_count. simpl. destruct r. simpl. do 2 f_equal. lia.
  - intros k Hk. by apply iter_destroy.
  - replace (Z.to_nat (ref_count r)) with (S (Z.to_nat (ref_count r - 1))) by lia.
    rewrite Nat.iter_succ, iter_destroy by lia. simpl.
    destruct (Z.eqb_spec (ref_count r - Z.of_nat (Z.to_nat (ref_count r - 1)) - 1) 0);
      [done | exfalso; lia].
  - done.
Qed.

(** X18. The one-shot entry point runs the whole pipeline on a context of
    its own: for a length between 1 and [INT_MAX] that lies within the
    text, when the bidi runs of that context meet the contract of the
    reordering, [raqm_shape_u32] never faults; it lays out the new context
    with the first [length] scalars, the direction, a font for the face and
    the accepted features, and returns the glyph records of the runs of
    that layout, in run order, with their number reduced to
    [unsigned int]. *)
Theorem shape_u32_runs_the_pipeline `{Collaborators} (text' : list Z)
    (length : Z) (face : FT_Face) (direction : raqm_direction_t)
    (features' : option (list string)) :
  let rq := shape_u32_context text' length face direction features' in
  1 <= length <= INT_MAX -> length <= Z.of_nat (List.length text') ->
  0 <= itemize_max_level rq ->
  bidi_runs_partition (text_len rq) (itemize_bidi_runs rq) ->
  exists rq',
    raqm_layout (Some rq) = Done (true, Some rq') /\
    raqm_shape_u32 text' length face direction features' =
      Done (Z.of_nat (List.length (flat_map (shaped_glyphs rq) (runs rq')))
              `mod` 4294967296,
            Some (flat_map (shaped_glyphs rq) (runs rq'))).
Proof.
  intros rq Hlen Hin Hlevel Hpart.
  assert (Htext : text_len rq = Z.to_nat length).
  { unfold text_len, rq. simpl. rewrite length_take. lia. }
  destruct (first_layout_runs rq) as (rq' & scripts' & Hlayout & _);
    [lia | done | done | done | done |].
  exists rq'. split; [done|].
  unfold raqm_shape_u32.
  rewrite (Z.mod_small length) by (unfold INT_MAX in Hlen; lia).
  unfold raqm_set_text.
  destruct (Z.ltb_spec (Z.of_nat (List.length text')) length); [exfalso; lia|].
  cbn [bind]. unfold raqm_set_par_direction, raqm_set_freetype_face, raqm_create.
  unfold text_len. cbn [text ref_count base_dir features scripts font runs glyphs].
  assert (E1 : (Z.of_nat (List.length (take (Z.to_nat length) text')) =? 0) = false).
  { apply Z.eqb_neq. rewrite length_take. lia. }
  assert (E2 : (Z.of_nat (List.length (take (Z.to_nat length) text')) <=? 0) = false).
  { apply Z.leb_gt. rewrite length_take. lia. }
  rewrite E1, E2.
  cbn [orb text ref_count base_dir features scripts font runs glyphs].
  rewrite E1, E2. cbn [orb].
  match goal with
  | |- bind ?m _ = _ =>
      replace m with (Done (Some rq) : exec (option raqm_t))
  end.
  2: { destruct features' as [fs|]; [|done]. by rewrite add_features_some. }
  cbn [bind]. rewrite Hlayout. cbn [bind fst snd].
  destruct (layout_inv rq rq' Hlayout) as (_ & r1 & Hitem & Hrq').
  destruct (itemize_inv rq r1 Hitem) as (s & chain & _ & _ & _ & Hr1).
  assert (Hsame : forall run, shaped_glyphs r1 run = shaped_glyphs rq run).
  { intros run. unfold shaped_glyphs. by rewrite Hr1. }
  assert (Hruns : runs rq' = map (shape_run r1) (runs r1)) by by rewrite Hrq'.
  unfold raqm_get_glyphs. rewrite Hruns, collect_glyphs_shape_run. cbn [bind].
  by rewrite (flat_map_ext _ _ Hsame).
Qed.

(** ** Layout on a context that was laid out before *)


(** A layout that returns success leaves at least one run, and when the
    context had runs it leaves those, shaped again. *)
Lemma layout_runs (C : Collaborators) (rq rq' : raqm_t) :
  raqm_layout (Some rq) = Done (true, Some rq') ->
  (1 <= text_len rq)%nat /\ text rq' = text rq /\ base_dir rq' = base_dir rq /\
  runs rq' <> [] /\
  (runs rq <> [] -> runs rq' = map (shape_run rq) (runs rq)).
Proof.
  intros Hlayout.
  destruct (layout_inv rq rq' Hlayout) as (Hlen & r1 & Hitem & ->).
  destruct (itemize_inv rq r1 Hitem) as (s & chain & _ & _ & Hne & ->).
  simpl. split_and!; try done.
  - destruct (runs rq); [by destruct chain | done].
  - intros Hruns. destruct (runs rq) as [|run rest]; [done|].
    apply map_ext. intros a. by apply shape_run_ext.
Qed.


Lemma split_bidi_run_direction (rq : raqm_t) (scripts : list hb_script_t)
    (r : FriBidiRun) (nodes : list raqm_run_t) :
  split_bidi_run rq scripts r = Done nodes ->
  Forall (fun run => run_direction run = _raqm_hb_dir rq (bidi_level r)) nodes.
Proof.
  unfold split_bidi_run.
  set (direction := _raqm_hb_dir rq (bidi_level r)).
  destruct (HB_DIRECTION_IS_BACKWARD direction).
  - destruct (load_at scripts _) as [script|]; [|discriminate]. cbn [bind].
    match goal with |- context [for_down ?b ?n ?s] =>
      destruct (for_down b n s) as [st|] eqn:Hloop; [|discriminate] end.
    cbn [bind]. intros [= <-].
    apply (for_down_partial
      (fun _ t => Forall (fun run => run_direction run = direction) (nodes_of t)))
      in Hloop; [done | by apply Forall_singleton |].
    intros c t t' _ Hdir Hstep. unfold split_backward_step in Hstep.
    destruct (load_at scripts _) as [s|]; [|discriminate]. cbn [bind] in Hstep.
    unfold nodes_of in *.
    destruct (negb _); inversion Hstep; subst t'; simpl.
    + rewrite Forall_snoc. done.
    + rewrite Forall_snoc in Hdir. rewrite Forall_snoc. done.
  - destruct (load_at scripts _) as [script|]; [|discriminate]. cbn [bind].
    match goal with |- context [for_loop ?b ?lo ?n ?s] =>
      destruct (for_loop b lo n s) as [st|] eqn:Hloop; [|discriminate] end.
    cbn [bind]. intros [= <-].
    apply (for_loop_partial
      (fun _ t => Forall (fun run => run_direction run = direction) (nodes_of t)))
      in Hloop; [done | by apply Forall_singleton |].
    intros c t t' _ Hdir Hstep. unfold split_forward_step in Hstep.
    destruct (load_at scripts _) as [s|]; [|discriminate]. cbn [bind] in Hstep.
    unfold nodes_of in *.
    destruct (negb _); inversion Hstep; subst t'; simpl.
    + rewrite Forall_snoc. done.
    + rewrite Forall_snoc in Hdir. rewrite Forall_snoc. done.
Qed.

Lemma itemize_chain_direction (rq : raqm_t) (scripts : list hb_script_t)
    (bidi_runs : list FriBidiRun) (chain : list raqm_run_t) :
  base_dir rq <> RAQM_DIRECTION_TTB ->
  itemize_chain rq scripts bidi_runs = Done chain ->
  Forall (fun run => run_direction run <> HB_DIRECTION_TTB) chain.
Proof.
  intros Hbase. revert chain.
  induction bidi_runs as [|r rest IH]; intros chain; simpl.
  - intros [= <-]. constructor.
  - destruct (split_bidi_run rq scripts r) as [nodes|] eqn:Hsplit; [|discriminate].
    cbn [bind].
    destruct (itemize_chain rq scripts rest) as [more|]; [|discriminate].
    cbn [bind]. intros [= <-]. apply Forall_app. split; [|by apply IH].
    apply split_bidi_run_direction in Hsplit.
    eapply Forall_impl; [exact Hsplit|]. intros run ->.
    unfold _raqm_hb_dir. rewrite decide_False by done.
    by destruct (FRIBIDI_LEVEL_IS_RTL _).
Qed.

(** C7 on the code: the run list is not rebuilt. After a first layout
    with a base direction other than TTB, [raqm_set_par_direction] with TTB
    and a second layout that returns success, the base direction is TTB and
    the levels of the paragraph are all 0, but the runs are those of the
    first layout: they keep their directions, and not one of them is
    TTB. *)
Theorem relayout_ttb_keeps_directions `{Collaborators} (rq0 rq1 rq2 rq3 : raqm_t) :
  base_dir rq0 <> RAQM_DIRECTION_TTB -> runs rq0 = [] ->
  raqm_layout (Some rq0) = Done (true, Some rq1) ->
  raqm_set_par_direction (Some rq1) RAQM_DIRECTION_TTB = Some rq2 ->
  raqm_layout (Some rq2) = Done (true, Some rq3) ->
  base_dir rq3 = RAQM_DIRECTION_TTB /\ (1 <= text_len rq3)%nat /\
  itemize_levels rq3 = replicate (text_len rq3) 0 /\
  runs rq3 <> [] /\
  map (fun run => (run_pos run, run_len run, run_direction run, run_script run))
    (runs rq3) =
  map (fun run => (run_pos run, run_len run, run_direction run, run_script run))
    (runs rq1) /\
  Forall (fun run => run_direction run <> HB_DIRECTION_TTB) (runs rq3).
Proof.
  intros Hbase Hnone Hfirst Hset Hsecond.
  assert (Hdir1 : Forall (fun run => run_direction run <> HB_DIRECTION_TTB) (runs rq1)).
  { destruct (layout_inv rq0 rq1 Hfirst) as (_ & r1 & Hitem & ->).
    destruct (itemize_inv rq0 r1 Hitem) as (s & chain & _ & Hchain & _ & Hr1).
    apply itemize_chain_direction in Hchain; [|by rewrite Hr1].
    rewrite Hr1, Hnone. simpl. apply Forall_fmap.
    eapply Forall_impl; [exact Hchain|]. done. }
  destruct (layout_runs _ rq0 rq1 Hfirst) as (_ & _ & _ & Hne1 & _).
  injection Hset as <-.
  destruct (layout_runs _ _ rq3 Hsecond) as (Hlen & Htext & Hbase3 & Hne3 & Hruns3).
  simpl in Hruns3, Hbase3. specialize (Hruns3 Hne1).
  split_and!; try done.
  - unfold text_len in *. by rewrite Htext.
  - by apply itemize_levels_ttb.
  - rewrite Hruns3, map_map. done.
  - rewrite Hruns3. apply Forall_fmap.
    eapply Forall_impl; [exact Hdir1|]. done.
Qed.

(** ** The status of the shaper *)

(** C5 on the code: the status of the shaper is dropped. When
    itemization succeeds on a paragraph that is not empty and the shaper
    reports an error on one of the runs, layout returns success all the
    same, the run is in the run list with the buffer that the failed call
    has left, and [raqm_get_glyphs] replaces the glyph array of the context
    by the glyph records of all the buffers, that one included. *)
Theorem shaper_failure_goes_unreported `{Collaborators} (rq r1 : raqm_t)
    (run : raqm_run_t) (cell : Z) :
  text_len rq <> 0%nat ->
  _raqm_itemize rq = Done (true, r1) ->
  run ∈ runs r1 ->
  fst (hb_shape_full (font r1) (text r1) (run_pos run) (run_len run)
         (run_script run) (run_direction run) (features r1)) = false ->
  exists rq',
    raqm_layout (Some rq) = Done (true, Some rq') /\
    shape_run r1 run ∈ runs rq' /\
    raqm_get_glyphs (Some rq') (Some cell) =
      Done (Some (flat_map (shaped_glyphs rq) (runs rq')),
            Some (Z.of_nat (length (flat_map (shaped_glyphs rq) (runs rq')))),
            Some (set_glyphs rq' (Some (flat_map (shaped_glyphs rq) (runs rq'))))).
Proof.
  intros Hlen Hitem Hrun _.
  exists (set_runs r1 (map (shape_run r1) (runs r1))).
  assert (Hlayout : raqm_layout (Some rq) =
            Done (true, Some (set_runs r1 (map (shape_run r1) (runs r1))))).
  { unfold raqm_layout. rewrite decide_False by done. by rewrite Hitem. }
  split_and!; [done | by apply list_elem_of_fmap_2 |].
  destruct (itemize_inv rq r1 Hitem) as (s & chain & _ & _ & _ & Hr1).
  assert (Hsame : forall a, shaped_glyphs r1 a = shaped_glyphs rq a).
  { intros a. unfold shaped_glyphs. by rewrite Hr1. }
  unfold raqm_get_glyphs. cbn [runs set_runs].
  rewrite collect_glyphs_shape_run. cbn [bind].
  by rewrite (flat_map_ext _ _ Hsame).
Qed.

(** ** The byte-oriented entry point on a negative size *)

Lemma shape_u32_no_text `{Collaborators} (text' : list Z) (face : FT_Face)
    (direction : raqm_direction_t) (features' : option (list string)) :
  raqm_shape_u32 text' 0 face direction features' = Done (0, None).
Proof.
  unfold raqm_shape_u32.
  change (0 `mod` 18446744073709551616) with 0. unfold raqm_set_text.
  destruct (Z.ltb_spec (Z.of_nat (length text')) 0); [exfalso; lia|].
  cbn [bind]. simpl.
  destruct features' as [fs|].
  - rewrite add_features_some. cbn [bind]. simpl. done.
  - by cbn [bind].
Qed.

(** X22. The byte-oriented entry point on a negative size, of which the
    decoder decodes nothing: the buffer for the scalars is null, no
    context is laid out, and the result is no glyphs and a null array, not
    a fault. *)
Theorem shape_negative_size `{Collaborators} (u8_str : list Z) (u8_size : Z)
    (face : FT_Face) (direction : raqm_direction_t)
    (features' : option (list string)) :
  u8_size < 0 ->
  fribidi_charset_to_unicode u8_str u8_size = [] ->
  raqm_shape u8_str u8_size face direction features' = Done (0, None).
Proof.
  intros Hneg Hnone. unfold raqm_shape. rewrite Hnone.
  change (Z.of_nat (length (@nil Z))) with 0.
  destruct (Z.ltb_spec (Z.max 0 u8_size) 0); [exfalso; lia|].
  replace (Z.to_nat (u8_size - 0)) with 0%nat by lia.
  change ([] ++ replicate 0 0) with (@nil Z).
  by rewrite shape_u32_no_text.
Qed.

(** ** The model on the sample collaborators *)

Import Sample SampleInputs.

(** C2 fails on the code: in Arabic text around "(a)" both parentheses get
    the Arabic script of the text before the opener, not Latin. *)
Lemma bracket_symmetry_claim_fails :
  ~ bracket_symmetry_claim (H := Sample.collaborators)
      [0x627; 0x644] [0x61] [0x645] 0x28 0x29 HB_SCRIPT_ARABIC HB_SCRIPT_LATIN.
Proof.
  intros Hclaim.
  destruct Hclaim as (final & Hfinal & Hopen & _).
  - by exists 0%nat.
  - reflexivity.
  - reflexivity.
  - repeat constructor.
  - repeat constructor.
  - reflexivity.
  - reflexivity.
  - by vm_compute.
  - vm_compute in Hfinal. inversion Hfinal; subst final.
    vm_compute in Hopen. discriminate.
Qed.

(** C3 fails on the code. In "(a(α)" the closing parenthesis gets the Latin
    script of its opener, not the Greek script of the position before it;
    and the leading parenthesis keeps the Common script. *)
Lemma propagation_claim_fails :
  ~ propagation_claim (H := Sample.collaborators) nested.
Proof.
  intros (final & Hfinal & Hprev & _).
  vm_compute in Hfinal. inversion Hfinal; subst final.
  specialize (Hprev 4%nat HB_SCRIPT_COMMON ltac:(lia) eq_refl eq_refl).
  vm_compute in Hprev. discriminate.
Qed.

(** The leading Common scalar is not back-filled. *)
Lemma leading_common_stays_common :
  resolved_scripts (H := Sample.collaborators) [0x28; 0x61] =
  Done [HB_SCRIPT_COMMON; HB_SCRIPT_LATIN].
Proof. by vm_compute. Qed.

(** C5 fails on the code: with a shaper that reports an error on every
    run, layout of "a" returns success. *)
Lemma shaping_failure_claim_fails :
  ~ shaping_failure_claim (H := Sample.failing_collaborators)
      (Sample.context [0x61] RAQM_DIRECTION_LTR).
Proof.
  intros Hclaim.
  destruct (Hclaim
    (itemized (H := Sample.failing_collaborators)
       (Sample.context [0x61] RAQM_DIRECTION_LTR))
    {| run_pos := 0; run_len := 1; run_direction := HB_DIRECTION_LTR;
       run_script := HB_SCRIPT_LATIN; run_font := None; run_buffer := None |})
    as (rq' & Hlayout & _).
  - by vm_compute.
  - vm_compute. apply list_elem_of_here.
  - reflexivity.
  - vm_compute in Hlayout. discriminate.
Qed.

(** X19 at the mixed paragraph, base direction LTR. *)
Lemma shape_runs_cover_paragraph_witness :
  (1 <= text_len mixed)%nat /\
  exists scripts' chain,
    scripts (laid_out mixed) = Some scripts' /\
    itemize_chain (laid_out mixed) scripts' (itemize_bidi_runs mixed) = Done chain /\
    covers (text_len mixed) chain /\
    (runs mixed = [] ->
     runs (laid_out mixed) = map (shape_run (laid_out mixed)) chain /\
     covers (text_len mixed) (runs (laid_out mixed))).
Proof.
  apply (shape_runs_cover_paragraph mixed (laid_out mixed)).
  - vm_compute. reflexivity.
  - exists [0; 0; 0; 1; 1; 1; 0; 0; 0]. split; [reflexivity|].
    vm_compute. reflexivity.
Defined.

(** C2, amended, at two Arabic letters, "(a)", an Arabic letter. *)
Lemma bracket_pair_takes_preceding_script_witness :
  exists final,
    resolved_scripts ([0x627; 0x644] ++ 0x28 :: [0x61] ++ 0x29 :: [0x645]) = Done final /\
    final !! 2%nat = Some HB_SCRIPT_ARABIC /\
    final !! 4%nat = Some HB_SCRIPT_ARABIC.
Proof.
  apply (bracket_pair_takes_preceding_script 0 0x28 0x29 [0x627; 0x644] [0x61]
           [0x645] HB_SCRIPT_ARABIC HB_SCRIPT_LATIN).
  - reflexivity.
  - reflexivity.
  - reflexivity.
  - reflexivity.
  - discriminate.
  - repeat constructor.
  - repeat constructor.
  - vm_compute. discriminate.
  - vm_compute. discriminate.
  - vm_compute. discriminate.
  - vm_compute. discriminate.
  - vm_compute. discriminate.
Defined.

(** C3, amended, at "(a(", a Greek letter, ")". *)
Lemma common_inherited_take_previous_witness :
  exists final, resolved_scripts nested = Done final /\
    length final = length nested /\
    forall i ch, (0 < i)%nat -> nested !! i = Some ch ->
      (hb_unicode_script ch = HB_SCRIPT_INHERITED \/
       (hb_unicode_script ch = HB_SCRIPT_COMMON /\ ~ is_closer ch) ->
       final !! i = final !! Nat.pred i) /\
      (hb_unicode_script ch = HB_SCRIPT_COMMON -> is_closer ch ->
       final !! i = final !! Nat.pred i \/
       exists j ch', (j < i)%nat /\ nested !! j = Some ch' /\
         get_pair_index ch' = Z.land (get_pair_index ch) (Z.lnot 1) /\
         final !! i = final !! j).
Proof.
  apply (common_inherited_take_previous nested).
  vm_compute. discriminate.
Defined.

(** C4 at the mixed paragraph. *)
Lemma layout_twice_same_glyphs_witness :
  raqm_layout (Some (laid_out mixed)) = Done (true, Some (laid_out mixed)) /\
  forall cell cell', exists all rq2,
    raqm_get_glyphs (Some (laid_out mixed)) (Some cell) =
      Done (Some all, Some (Z.of_nat (length all)), Some rq2) /\
    raqm_layout (Some rq2) = Done (true, Some rq2) /\
    raqm_get_glyphs (Some rq2) (Some cell') =
      Done (Some all, Some (Z.of_nat (length all)), Some rq2).
Proof.
  apply (layout_twice_same_glyphs mixed (laid_out mixed)).
  vm_compute. reflexivity.
Defined.

(** C6 at the feature string "dlig". *)
Lemma add_font_feature_null_faults_witness :
  raqm_add_font_feature None "dlig" (-1) = Fault.
Proof.
  apply (add_font_feature_null_faults "dlig" (-1)
           {| feature_tag := 0; feature_value := 1;
              feature_start := 0; feature_end := -1 |}).
  reflexivity.
Defined.

(** X20 at "a", a Greek letter, "b". *)
Lemma ttb_one_run_per_script_span_witness :
  (1 <= text_len vertical)%nat /\
  itemize_levels vertical = replicate (text_len vertical) 0 /\
  itemize_bidi_runs vertical = [mk_bidi_run 0 (Z.of_nat (text_len vertical)) 0] /\
  exists scripts' chain,
    scripts (laid_out vertical) = Some scripts' /\
    itemize_chain (laid_out vertical) scripts' (itemize_bidi_runs vertical) =
      Done chain /\
    script_spans_ttb (text_len vertical) scripts' chain /\
    (runs vertical = [] ->
     runs (laid_out vertical) = map (shape_run (laid_out vertical)) chain /\
     script_spans_ttb (text_len vertical) scripts' (runs (laid_out vertical))).
Proof.
  apply (ttb_one_run_per_script_span vertical (laid_out vertical)).
  - reflexivity.
  - vm_compute. reflexivity.
  - vm_compute. reflexivity.
Defined.

(** C9 at eleven bytes of UTF-8 that hold five scalars: the clusters are
    the byte indices 0, 1, 3, 6 and 10. *)
Lemma byte_clusters_are_prefix_lengths_witness :
  exists info,
    raqm_shape_u32
      (fribidi_charset_to_unicode utf8_text 11 ++
       replicate (Z.to_nat (11 - Z.of_nat (length (fribidi_charset_to_unicode utf8_text 11)))) 0)
      (Z.of_nat (length (fribidi_charset_to_unicode utf8_text 11)))
      0%nat RAQM_DIRECTION_LTR None = Done (5, Some info) /\
    length (map (fun c => mk_glyph (fst c) 10 0 0 0 (snd c))
              [(0x61, 0); (0x627, 1); (0x3042, 3); (0x1f600, 6); (0x62, 10)]) =
      length info /\
    forall k g, Z.of_nat k < 5 -> info !! k = Some g ->
      cluster g <= Z.of_nat (length (fribidi_charset_to_unicode utf8_text 11)) ->
      exists g',
        map (fun c => mk_glyph (fst c) 10 0 0 0 (snd c))
          [(0x61, 0); (0x627, 1); (0x3042, 3); (0x1f600, 6); (0x62, 10)] !! k
          = Some g' /\
        g' = set_cluster g
               (prefix_bytes (fribidi_charset_to_unicode utf8_text 11) (cluster g)) /\
        ((forall a b, fribidi_unicode_to_charset (a ++ b) =
                      fribidi_unicode_to_charset a ++ fribidi_unicode_to_charset b) ->
         fribidi_unicode_to_charset (fribidi_charset_to_unicode utf8_text 11) =
           take (Z.to_nat 11) utf8_text ->
         drop (Z.to_nat (cluster g')) (take (Z.to_nat 11) utf8_text) =
         fribidi_unicode_to_charset
           (drop (Z.to_nat (cluster g)) (fribidi_charset_to_unicode utf8_text 11))).
Proof.
  apply (byte_clusters_are_prefix_lengths utf8_text 11 0%nat RAQM_DIRECTION_LTR None 5).
  vm_compute. reflexivity.
Defined.

(** C10 at the mixed paragraph after its layout, with two Arabic letters
    as the new text. *)
Lemma set_text_keeps_scripts_witness :
  exists rq1,
    raqm_set_text (Some (laid_out mixed)) [0x627; 0x644] 2 = Done (Some rq1) /\
    text rq1 = take (Z.to_nat 2) [0x627; 0x644] /\
    scripts rq1 = scripts (laid_out mixed) /\
    runs rq1 = runs (laid_out mixed) /\
    glyphs rq1 = glyphs (laid_out mixed) /\
    ref_count rq1 = ref_count (laid_out mixed) /\
    base_dir rq1 = base_dir (laid_out mixed) /\
    features rq1 = features (laid_out mixed) /\
    font rq1 = font (laid_out mixed) /\
    (forall scripts0, scripts (laid_out mixed) = Some scripts0 ->
       _raqm_resolve_scripts rq1 = Done (true, rq1) /\
       forall ok rq2, raqm_layout (Some rq1) = Done (ok, Some rq2) ->
         scripts rq2 = Some scripts0) /\
    (forall rq0, raqm_layout (Some rq0) = Done (true, Some (laid_out mixed)) ->
       exists scripts0,
         scripts (laid_out mixed) = Some scripts0 /\
         (scripts rq0 = None -> resolved_scripts (text rq0) = Done scripts0) /\
         forall ok rq2, raqm_layout (Some rq1) = Done (ok, Some rq2) ->
           scripts rq2 = Some scripts0).
Proof.
  apply (set_text_keeps_scripts (laid_out mixed) [0x627; 0x644] 2).
  vm_compute. split; discriminate.
Defined.

(** ** The scenarios of the specification, on the sample collaborators *)

Example scenario_pure_ltr :
  summary (laid_out (Sample.context [0x61; 0x62; 0x63] RAQM_DIRECTION_DEFAULT)) =
  [(0, 3, HB_DIRECTION_LTR, HB_SCRIPT_LATIN)].
Proof. by vm_compute. Qed.

Example scenario_pure_rtl :
  summary (laid_out (Sample.context [0x627; 0x644; 0x633; 0x644; 0x627; 0x645]
                       RAQM_DIRECTION_DEFAULT)) =
  [(0, 6, HB_DIRECTION_RTL, HB_SCRIPT_ARABIC)].
Proof. by vm_compute. Qed.

Example scenario_mixed_bidi :
  summary (laid_out mixed) =
  [(0, 3, HB_DIRECTION_LTR, HB_SCRIPT_LATIN);
   (3, 3, HB_DIRECTION_RTL, HB_SCRIPT_ARABIC);
   (6, 3, HB_DIRECTION_LTR, HB_SCRIPT_LATIN)].
Proof. by vm_compute. Qed.

Example scenario_bracket :
  resolved_scripts bracketed =
  Done [HB_SCRIPT_ARABIC; HB_SCRIPT_ARABIC; HB_SCRIPT_ARABIC; HB_SCRIPT_LATIN;
        HB_SCRIPT_ARABIC; HB_SCRIPT_ARABIC].
Proof. by vm_compute. Qed.

Example scenario_bracket_runs :
  summary (laid_out (Sample.context bracketed RAQM_DIRECTION_RTL)) =
  [(4, 2, HB_DIRECTION_RTL, HB_SCRIPT_ARABIC);
   (3, 1, HB_DIRECTION_LTR, HB_SCRIPT_LATIN);
   (0, 3, HB_DIRECTION_RTL, HB_SCRIPT_ARABIC)].
Proof. by vm_compute. Qed.

Example scenario_vertical :
  summary (laid_out vertical) =
  [(0, 1, HB_DIRECTION_TTB, HB_SCRIPT_LATIN);
   (1, 1, HB_DIRECTION_TTB, HB_SCRIPT_GREEK);
   (2, 1, HB_DIRECTION_TTB, HB_SCRIPT_LATIN)].
Proof. by vm_compute. Qed.

Example scenario_empty :
  raqm_layout (Some (Sample.context [] RAQM_DIRECTION_DEFAULT)) =
  Done (false, Some (Sample.context [] RAQM_DIRECTION_DEFAULT)).
Proof. by vm_compute. Qed.

(** After a layout, [raqm_set_text] with a shorter text and a second
    layout: the script array and the run list are those of the first
    text. *)
Example relayout_keeps_first_runs :
  exists rq1,
    raqm_set_text (Some (laid_out mixed)) [0x627; 0x644] 2 = Done (Some rq1) /\
    summary (laid_out rq1) = summary (laid_out mixed) /\
    scripts (laid_out rq1) = scripts (laid_out mixed).
Proof. eexists. split; [reflexivity|]. by vm_compute. Qed.

(** ** Further properties at sample inputs *)

(** X2 at a push of "(" in Latin text onto a new stack of capacity 3. *)
Lemma stack_push_top_pop_witness :
  _raqm_stack_top one_opener = Done HB_SCRIPT_LATIN /\
  load_init (stack_pair_index one_opener) (stack_size one_opener) = Done 0 /\
  STACK_IS_NOT_EMPTY one_opener = true /\
  fst (_raqm_stack_pop one_opener) = true /\
  stack_size (snd (_raqm_stack_pop one_opener)) = stack_size (_raqm_stack_new 3) /\
  (forall m, m <> S (stack_size (_raqm_stack_new 3)) ->
     stack_scripts one_opener !! m = stack_scripts (_raqm_stack_new 3) !! m /\
     stack_pair_index one_opener !! m = stack_pair_index (_raqm_stack_new 3) !! m) /\
  (forall empty, stack_size empty = 0%nat ->
     _raqm_stack_top empty = Done HB_SCRIPT_INVALID /\
     _raqm_stack_pop empty = (false, empty)).
Proof.
  apply (stack_push_top_pop (_raqm_stack_new 3) one_opener HB_SCRIPT_LATIN 0).
  reflexivity.
Defined.

(** X3 at the stack of "(", "<", "(" and the pair index of "<". *)
Lemma pop_until_match_topmost_witness :
  exists size',
    pop_until_match (stack_size three_openers) three_openers 2 =
      Done {| stack_capacity := stack_capacity three_openers;
              stack_size := size';
              stack_pair_index := stack_pair_index three_openers;
              stack_scripts := stack_scripts three_openers |} /\
    (size' <= stack_size three_openers)%nat /\
    (size' <> 0%nat -> stack_pair_index three_openers !! size' = Some (Some 2)) /\
    (forall m, (size' < m <= stack_size three_openers)%nat ->
       stack_pair_index three_openers !! m <> Some (Some 2)).
Proof.
  apply (pop_until_match_topmost three_openers 2).
  intros m Hm. simpl in Hm.
  destruct m as [|[|[|[|m]]]]; try lia; eexists; reflexivity.
Defined.

(** X5 at "(a(", a Greek letter, ")". *)
Lemma resolution_keeps_concrete_scripts_witness :
  exists final, resolved_scripts nested = Done final /\
    length final = length nested /\
    (forall i ch, nested !! i = Some ch ->
       i = 0%nat \/ is_concrete (hb_unicode_script ch) = true ->
       final !! i = Some (hb_unicode_script ch)) /\
    (Forall (fun ch => is_concrete (hb_unicode_script ch) = true) nested ->
     final = initial_scripts nested).
Proof.
  apply (resolution_keeps_concrete_scripts nested).
  vm_compute. discriminate.
Defined.

(** X6 at two Arabic letters, "(a)", an Arabic letter. *)
Lemma resolution_invents_no_script_witness :
  exists final, resolved_scripts bracketed = Done final /\
    forall i s, final !! i = Some s ->
      exists j ch, (j <= i)%nat /\ bracketed !! j = Some ch /\
        s = hb_unicode_script ch.
Proof.
  apply (resolution_invents_no_script bracketed).
  vm_compute. discriminate.
Defined.

(** X7 at two Arabic letters, "(a)", an Arabic letter. *)
Lemma resolution_concrete_after_concrete_start_witness :
  exists final, resolved_scripts bracketed = Done final /\
    Forall (fun s => is_concrete s = true) final.
Proof.
  apply (resolution_concrete_after_concrete_start bracketed 0x627).
  - vm_compute. discriminate.
  - reflexivity.
  - reflexivity.
Defined.

(** X8 at two Arabic letters and "(", extended by "a)" and an Arabic
    letter. *)
Lemma resolution_of_prefix_witness :
  exists final final',
    resolved_scripts [0x627; 0x644; 0x28] = Done final /\
    resolved_scripts ([0x627; 0x644; 0x28] ++ [0x61; 0x29; 0x645]) = Done final' /\
    take (length [0x627; 0x644; 0x28]) final' = final.
Proof.
  apply (resolution_of_prefix [0x627; 0x644; 0x28] [0x61; 0x29; 0x645]).
  vm_compute. discriminate.
Defined.

(** X9 at a bidi run of level 1 over Arabic, Latin and Arabic letters in a
    paragraph of base direction LTR. *)
Lemma split_bidi_run_gives_script_spans_witness :
  exists nodes, split_bidi_run mixed arabic_latin_arabic odd_run = Done nodes /\
    nodes <> [] /\
    Forall (fun run => run_direction run = _raqm_hb_dir mixed (bidi_level odd_run) /\
                       run_font run = None /\ run_buffer run = None) nodes /\
    script_spans_of arabic_latin_arabic odd_run
      (if decide (base_dir mixed <> RAQM_DIRECTION_TTB /\
                  Z.odd (bidi_level odd_run) = true)
       then reverse nodes else nodes).
Proof.
  apply (split_bidi_run_gives_script_spans mixed arabic_latin_arabic odd_run).
  - simpl. lia.
  - simpl. lia.
  - simpl. lia.
Defined.

(** X10 at four Latin letters in two bidi runs. *)
Lemma one_script_one_run_per_bidi_run_witness :
  itemize_chain mixed (replicate 4 HB_SCRIPT_LATIN)
    [mk_bidi_run 2 2 1; mk_bidi_run 0 2 0] =
  Done (map (fun r => {| run_pos := bidi_pos r;
                         run_len := bidi_len r;
                         run_direction := _raqm_hb_dir mixed (bidi_level r);
                         run_script := HB_SCRIPT_LATIN;
                         run_font := None;
                         run_buffer := None |})
          [mk_bidi_run 2 2 1; mk_bidi_run 0 2 0]).
Proof.
  apply (one_script_one_run_per_bidi_run mixed (replicate 4 HB_SCRIPT_LATIN)
           HB_SCRIPT_LATIN [mk_bidi_run 2 2 1; mk_bidi_run 0 2 0]).
  - repeat constructor.
  - repeat (constructor; [simpl; lia|]). constructor.
Defined.

(** X12 at the mixed paragraph, base direction LTR. *)
Lemma first_layout_succeeds_witness :
  exists rq' scripts',
    raqm_layout (Some mixed) = Done (true, Some rq') /\
    resolved_scripts (text mixed) = Done scripts' /\
    scripts rq' = Some scripts' /\
    (1 <= length (itemize_bidi_runs mixed) <= length (runs rq'))%nat /\
    Forall (fun run =>
      1 <= run_len run /\ uniform_script scripts' run /\
      run_font run = None /\
      run_buffer run =
        Some (snd (hb_shape_full (font mixed) (text mixed) (run_pos run)
                     (run_len run) (run_script run) (run_direction run)
                     (features mixed))))
      (runs rq').
Proof.
  apply (first_layout_succeeds mixed).
  - vm_compute. lia.
  - reflexivity.
  - reflexivity.
  - vm_compute. discriminate.
  - exists [0; 0; 0; 1; 1; 1; 0; 0; 0]. split; [reflexivity|].
    vm_compute. reflexivity.
Defined.

(** X13 at the mixed paragraph. *)
Lemma glyphs_are_shaper_output_witness :
  raqm_get_glyphs (Some (laid_out mixed)) (Some 0) =
    Done (Some (flat_map (shaped_glyphs mixed) (runs (laid_out mixed))),
          Some (Z.of_nat (length (flat_map (shaped_glyphs mixed)
                                    (runs (laid_out mixed))))),
          Some (set_glyphs (laid_out mixed)
                  (Some (flat_map (shaped_glyphs mixed) (runs (laid_out mixed)))))).
Proof.
  apply (glyphs_are_shaper_output mixed (laid_out mixed) 0).
  vm_compute. reflexivity.
Defined.

(** X14 at the mixed paragraph, laid out, then set to base direction
    RTL. *)
Lemma layout_keeps_existing_runs_witness :
  runs (laid_out redirected) = map (shape_run redirected) (runs redirected) /\
  map (fun run => (run_pos run, run_len run, run_direction run, run_script run))
    (runs (laid_out redirected)) =
  map (fun run => (run_pos run, run_len run, run_direction run, run_script run))
    (runs redirected) /\
  Forall (fun run => run_buffer run = Some
    (snd (hb_shape_full (font redirected) (text redirected) (run_pos run)
            (run_len run) (run_script run) (run_direction run)
            (features redirected)))) (runs (laid_out redirected)).
Proof.
  apply (layout_keeps_existing_runs redirected (laid_out redirected)).
  - vm_compute. discriminate.
  - vm_compute. reflexivity.
Defined.

(** X17 at a new context and three references. *)
Lemma reference_destroy_round_trip_witness :
  Nat.iter 3 raqm_destroy (Nat.iter 3 raqm_reference (Some raqm_create)) =
    Some raqm_create /\
  (forall k, Z.of_nat k < ref_count raqm_create ->
     Nat.iter k raqm_destroy (Some raqm_create) =
       Some (set_ref_count raqm_create (ref_count raqm_create - Z.of_nat k))) /\
  Nat.iter (Z.to_nat (ref_count raqm_create)) raqm_destroy (Some raqm_create) = None /\
  raqm_destroy (Some raqm_create) = None.
Proof.
  apply (reference_destroy_round_trip raqm_create 3).
  - simpl. lia.
  - vm_compute. discriminate.
Defined.

(** X18 at the text of the mixed paragraph, base direction LTR, with two
    feature strings. *)
Lemma shape_u32_runs_the_pipeline_witness :
  exists rq',
    raqm_layout
      (Some (shape_u32_context mixed_text 9 0%nat RAQM_DIRECTION_LTR
               (Some two_features))) = Done (true, Some rq') /\
    raqm_shape_u32 mixed_text 9 0%nat RAQM_DIRECTION_LTR (Some two_features) =
      Done (Z.of_nat (length (flat_map
              (shaped_glyphs (shape_u32_context mixed_text 9 0%nat
                                RAQM_DIRECTION_LTR (Some two_features)))
              (runs rq'))) `mod` 4294967296,
            Some (flat_map
              (shaped_glyphs (shape_u32_context mixed_text 9 0%nat
                                RAQM_DIRECTION_LTR (Some two_features)))
              (runs rq'))).
Proof.
  apply (shape_u32_runs_the_pipeline mixed_text 9 0%nat RAQM_DIRECTION_LTR
           (Some two_features)).
  - unfold INT_MAX. lia.
  - simpl. lia.
  - vm_compute. discriminate.
  - exists [0; 0; 0; 1; 1; 1; 0; 0; 0]. split; [reflexivity|].
    vm_compute. reflexivity.
Defined.

(** ** The run list and the shaper status at sample inputs *)


Example relayout_runs_of_first_text :
  raqm_layout (Some shortened) = Done (true, Some (laid_out shortened)) /\
  text (laid_out shortened) = [0x627; 0x644] /\
  summary (laid_out shortened) =
    [(0, 3, HB_DIRECTION_LTR, HB_SCRIPT_LATIN);
     (3, 3, HB_DIRECTION_RTL, HB_SCRIPT_ARABIC);
     (6, 3, HB_DIRECTION_LTR, HB_SCRIPT_LATIN)].
Proof. by vm_compute. Qed.

(** C7 on the code, at the mixed paragraph, laid out with base direction
    LTR, then set to TTB and laid out again: the runs stay LTR, RTL and
    LTR. *)
Lemma relayout_ttb_keeps_directions_witness :
  base_dir (laid_out turned) = RAQM_DIRECTION_TTB /\
  (1 <= text_len (laid_out turned))%nat /\
  itemize_levels (laid_out turned) = replicate (text_len (laid_out turned)) 0 /\
  runs (laid_out turned) <> [] /\
  map (fun run => (run_pos run, run_len run, run_direction run, run_script run))
    (runs (laid_out turned)) =
  map (fun run => (run_pos run, run_len run, run_direction run, run_script run))
    (runs (laid_out mixed)) /\
  Forall (fun run => run_direction run <> HB_DIRECTION_TTB) (runs (laid_out turned)).
Proof.
  apply (relayout_ttb_keeps_directions mixed (laid_out mixed) turned
           (laid_out turned)).
  - simpl. discriminate.
  - reflexivity.
  - vm_compute. reflexivity.
  - reflexivity.
  - vm_compute. reflexivity.
Defined.

Example relayout_ttb_runs :
  raqm_layout (Some turned) = Done (true, Some (laid_out turned)) /\
  base_dir (laid_out turned) = RAQM_DIRECTION_TTB /\
  map run_direction (runs (laid_out turned)) =
    [HB_DIRECTION_LTR; HB_DIRECTION_RTL; HB_DIRECTION_LTR].
Proof. by vm_compute. Qed.

(** C5 on the code, at the mixed paragraph with a shaper that reports an
    error on the Arabic run. *)
Lemma shaper_failure_goes_unreported_witness :
  exists rq',
    @raqm_layout arabic_failing_collaborators (Some mixed) =
      Done (true, Some rq') /\
    @shape_run arabic_failing_collaborators
      (@itemized arabic_failing_collaborators mixed) arabic_run ∈ runs rq' /\
    raqm_get_glyphs (Some rq') (Some 0) =
      Done (Some (flat_map (@shaped_glyphs arabic_failing_collaborators mixed)
                    (runs rq')),
            Some (Z.of_nat (length
              (flat_map (@shaped_glyphs arabic_failing_collaborators mixed)
                 (runs rq')))),
            Some (set_glyphs rq'
              (Some (flat_map (@shaped_glyphs arabic_failing_collaborators mixed)
                       (runs rq'))))).
Proof.
  apply (@shaper_failure_goes_unreported arabic_failing_collaborators mixed
           (@itemized arabic_failing_collaborators mixed) arabic_run 0).
  - vm_compute. discriminate.
  - vm_compute. reflexivity.
  - apply (list_elem_of_lookup_2 _ 1%nat). reflexivity.
  - reflexivity.
Defined.

(** With that shaper the layout of the nine scalars returns success, and
    [raqm_get_glyphs] then returns six glyphs: those of the two Latin
    runs. *)
Example partial_glyphs_are_returned :
  exists rq' all rq'',
    @raqm_layout arabic_failing_collaborators (Some mixed) =
      Done (true, Some rq') /\
    raqm_get_glyphs (Some rq') (Some 0) = Done (Some all, Some 6, Some rq'') /\
    map cluster all = [0; 1; 2; 6; 7; 8].
Proof. do 3 eexists. split_and!; by vm_compute. Qed.

(** X22 at eleven bytes of UTF-8 and the size -1. *)
Lemma shape_negative_size_witness :
  raqm_shape utf8_text (-1) 0%nat RAQM_DIRECTION_LTR None = Done (0, None).
Proof.
  apply (shape_negative_size utf8_text (-1) 0%nat RAQM_DIRECTION_LTR None).
  - lia.
  - reflexivity.
Defined.
